(** * Binding tables, variable resolution and the memory dump of wasm.c

    A shallow embedding of [src/wasm.c]: the text slices, the binding hash
    (an array of entries linked by [next]/[prev] pointers, with a free list),
    the by-var accessors of a module, [wasm_extend_type_bindings] and
    [wasm_print_memory], followed by the properties proved about them.

    Conventions of the embedding.
    - A pointer into the entry array of a hash is the index of the slot it
      points to; [NULL] is [None].  Every dereference goes through [load] or
      [store], which have no result ([None]) when the pointer is outside the
      array; an assertion failure, a null dereference and a loop that does not
      end are modelled the same way.  [Some x] is a run that returns [x].
    - [size_t] counters are [nat] (an array of as many entries as would make
      them wrap cannot be allocated); the 32-bit hash value is a [Z] reduced
      modulo [2^32] after every multiplication.
    - An [int] is a [Z]; where the code adds two [int]s or converts a
      [size_t] to [int] the model takes [to_int] of the result, the value
      between [INT_MIN] and [INT_MAX] that a two's-complement machine
      gives.
    - The record field [length] of a slice is called [len], since [length] is
      the length of lists. *)

From Stdlib Require Import ZArith Lia Strings.Byte Strings.Ascii Strings.String.
From stdpp Require Import base option list strings.

#[global] Instance byte_eq_dec : EqDecision byte := Byte.byte_eq_dec.

(** ** Text slices *)

(** [start = Some bs]: the start pointer is not null and [bs] are the bytes
    stored from that address on (at least [len] of them for a slice made by
    the front end).  [start = None]: the null pointer. *)
Record WasmStringSlice := {
  start : option (list byte);
  len : nat;
}.

(** The slice left by [memset(.., 0, sizeof(WasmStringSlice))]. *)
Definition zero_slice : WasmStringSlice := {| start := None; len := 0 |}.

(** The bytes [memcmp] and the hash loop read. *)
Definition slice_bytes (bs : list byte) (n : nat) : list byte := take n bs.

Definition wasm_string_slices_are_equal (a b : WasmStringSlice) : bool :=
  match start a, start b with
  | Some pa, Some pb =>
      bool_decide (len a = len b)
      && bool_decide (slice_bytes pa (len a) = slice_bytes pb (len a))
  | _, _ => false
  end.

Definition fnv_prime : Z := 0x01000193.
Definition fnv_offset_basis : Z := 0x811c9dc5.

(** One turn of the FNV-1a loop on a [uint32_t]. *)
Definition fnv1a_step (hval : Z) (b : byte) : Z :=
  ((Z.lxor hval (Z.of_N (Byte.to_N b))) * fnv_prime) mod 2 ^ 32.

(** [wasm_hash_name].  With a null [start] the loop body is never entered when
    [len] is 0, and dereferences the null pointer otherwise. *)
Definition wasm_hash_name (name : WasmStringSlice) : option Z :=
  match start name with
  | Some bs => Some (fold_left fnv1a_step (slice_bytes bs (len name)) fnv_offset_basis)
  | None => if decide (len name = 0) then Some fnv_offset_basis else None
  end.

(** ** The binding hash *)

Record WasmBinding := {
  name : WasmStringSlice;
  index : Z;
}.

Record WasmBindingHashEntry := {
  binding : WasmBinding;
  next : option nat;
  prev : option nat;
}.

(** [data] is the allocated array: [capacity] entries when the vector is
    consistent. *)
Record WasmBindingHashEntryVector := {
  data : list WasmBindingHashEntry;
  size : nat;
  capacity : nat;
}.

Record WasmBindingHash := {
  entries : WasmBindingHashEntryVector;
  free_head : option nat;
}.

Inductive WasmResult := WASM_OK | WASM_ERROR.

#[global] Instance WasmResult_eq_dec : EqDecision WasmResult.
Proof. solve_decision. Defined.

Definition INITIAL_HASH_CAPACITY : nat := 8.

(** The range of [int], 32 bits wide.  C leaves the sum of two [int]s
    outside the range undefined, and the conversion of a [size_t] outside
    it to the implementation; [to_int] is the value compiled code gives for
    both: the number of the range that differs by a multiple of [2^32]. *)
Definition INT_MIN : Z := (- 2 ^ 31)%Z.

Definition INT_MAX : Z := (2 ^ 31 - 1)%Z.

Definition to_int (z : Z) : Z := ((z - INT_MIN) mod 2 ^ 32 + INT_MIN)%Z.

(** [WasmBindingHash hash = {}]. *)
Definition empty_vector : WasmBindingHashEntryVector :=
  {| data := []; size := 0; capacity := 0 |}.
Definition empty_hash : WasmBindingHash :=
  {| entries := empty_vector; free_head := None |}.

Definition zero_binding : WasmBinding := {| name := zero_slice; index := 0 |}.
Definition zero_entry : WasmBindingHashEntry :=
  {| binding := zero_binding; next := None; prev := None |}.

(** Field assignments. *)
Definition set_next (v : option nat) (e : WasmBindingHashEntry) : WasmBindingHashEntry :=
  {| binding := binding e; next := v; prev := prev e |}.
Definition set_prev (v : option nat) (e : WasmBindingHashEntry) : WasmBindingHashEntry :=
  {| binding := binding e; next := next e; prev := v |}.
Definition set_binding (b : WasmBinding) (e : WasmBindingHashEntry) : WasmBindingHashEntry :=
  {| binding := b; next := next e; prev := prev e |}.
Definition set_name (n : WasmStringSlice) (e : WasmBindingHashEntry) : WasmBindingHashEntry :=
  set_binding {| name := n; index := index (binding e) |} e.
Definition set_index (i : Z) (e : WasmBindingHashEntry) : WasmBindingHashEntry :=
  set_binding {| name := name (binding e); index := i |} e.

Definition with_data (h : WasmBindingHash) (d : list WasmBindingHashEntry) : WasmBindingHash :=
  {| entries := {| data := d; size := size (entries h); capacity := capacity (entries h) |};
     free_head := free_head h |}.
Definition with_size (h : WasmBindingHash) (n : nat) : WasmBindingHash :=
  {| entries := {| data := data (entries h); size := n; capacity := capacity (entries h) |};
     free_head := free_head h |}.
Definition with_free_head (h : WasmBindingHash) (p : option nat) : WasmBindingHash :=
  {| entries := entries h; free_head := p |}.

(** Reading and writing the entry a pointer points to. *)
Definition load (h : WasmBindingHash) (p : nat) : option WasmBindingHashEntry :=
  data (entries h) !! p.
Definition store (h : WasmBindingHash) (p : nat)
    (f : WasmBindingHashEntry → WasmBindingHashEntry) : option WasmBindingHash :=
  _ ← load h p; Some (with_data h (alter f p (data (entries h)))).
(** [if (q) q->field = ..]. *)
Definition store_if (h : WasmBindingHash) (q : option nat)
    (f : WasmBindingHashEntry → WasmBindingHashEntry) : option WasmBindingHash :=
  match q with
  | Some p => store h p f
  | None => Some h
  end.

(** [wasm_hash_main_entry]: the slot [hash(name) % capacity]. *)
Definition wasm_hash_main_entry (hash : WasmBindingHash) (nm : WasmStringSlice) : option nat :=
  hval ← wasm_hash_name nm;
  if decide (capacity (entries hash) = 0) then None
  else Some (Z.to_nat (hval mod Z.of_nat (capacity (entries hash)))).

Definition wasm_hash_entry_is_free (entry : WasmBindingHashEntry) : bool :=
  bool_decide (start (name (binding entry)) = None).

(** The loop [while (other_entry->next != entry) other_entry = other_entry->next;]. *)
Fixpoint walk_to_predecessor (fuel : nat) (hash : WasmBindingHash)
    (other_entry entry : nat) : option nat :=
  match fuel with
  | 0 => None
  | S fuel =>
      oe ← load hash other_entry;
      if decide (next oe = Some entry) then Some other_entry
      else nxt ← next oe; walk_to_predecessor fuel hash nxt entry
  end.

Definition wasm_hash_new_entry (hash : WasmBindingHash) (nm : WasmStringSlice)
    : option (nat * WasmBindingHash) :=
  entry ← wasm_hash_main_entry hash nm;
  e ← load hash entry;
  '(entry, hash) ←
    (if negb (wasm_hash_entry_is_free e) then
       free_entry ← free_head hash;
       fe ← load hash free_entry;
       let hash := with_free_head hash (next fe) in
       hash ← store_if hash (next fe) (set_prev None);
       (* our main position is already claimed *)
       e ← load hash entry;
       other_entry ← wasm_hash_main_entry hash (name (binding e));
       if decide (other_entry = entry) then
         (* add as the second entry in the chain *)
         hash ← store hash free_entry (set_next (next e));
         hash ← store hash entry (set_next (Some free_entry));
         Some (free_entry, hash)
       else
         (* move the entry to the free entry *)
         oe ← load hash other_entry;
         if wasm_hash_entry_is_free oe then None
         else
           other_entry ← walk_to_predecessor (capacity (entries hash)) hash other_entry entry;
           hash ← store hash other_entry (set_next (Some free_entry));
           e ← load hash entry;
           hash ← store hash free_entry (λ _, e);
           hash ← store hash entry (set_next None);
           Some (entry, hash)
     else
       (* remove from the free list *)
       hash ← store_if hash (next e) (set_prev (prev e));
       e ← load hash entry;
       hash ← match prev e with
              | Some p => store hash p (set_next (next e))
              | None => Some (with_free_head hash (next e))
              end;
       hash ← store hash entry (set_next None);
       Some (entry, hash));
  hash ← store hash entry (set_binding {| name := nm; index := 0 |});
  hash ← store hash entry (set_prev None);
  Some (entry, hash).

(** The do-while loop of [find_binding_index_by_name]. *)
Fixpoint find_loop (fuel : nat) (hash : WasmBindingHash) (entry : nat)
    (nm : WasmStringSlice) : option Z :=
  match fuel with
  | 0 => None
  | S fuel =>
      e ← load hash entry;
      if wasm_string_slices_are_equal (name (binding e)) nm then Some (index (binding e))
      else match next e with
           | None => Some (-1)%Z
           | Some nxt =>
               ne ← load hash nxt;
               if wasm_hash_entry_is_free ne then Some (-1)%Z
               else find_loop fuel hash nxt nm
           end
  end.

Definition find_binding_index_by_name (hash : WasmBindingHash) (nm : WasmStringSlice)
    : option Z :=
  if decide (capacity (entries hash) = 0) then Some (-1)%Z
  else
    entry ← wasm_hash_main_entry hash nm;
    find_loop (capacity (entries hash)) hash entry nm.

(** ** Growth and insertion *)

Section Allocation.

(** Whether the allocator grants an array of [n] entries.  The vector
    operations [wasm_reserve_binding_hash_entrys] and [wasm_extend_types] are
    generated by [DEFINE_VECTOR], which is not part of wasm.c; their only
    sources of failure are these two requests. *)
Variable alloc_ok : nat → bool.
Variable alloc_types_ok : nat → bool.

(** Modelled from the spec: the macro-generated reserve of
    [DEFINE_VECTOR(binding_hash_entry, ..)] is missing from wasm.c; the spec
    says a resize allocates "a new table of [new_capacity] slots" and fails
    only when "memory for growth cannot be obtained".  The entries of the
    new array are unspecified until written; they are modelled as zeroed. *)
Definition wasm_reserve_binding_hash_entrys (vec : WasmBindingHashEntryVector)
    (desired : nat) : WasmResult * WasmBindingHashEntryVector :=
  if decide (desired ≤ capacity vec) then (WASM_OK, vec)
  else if alloc_ok desired then
    (WASM_OK, {| data := data vec ++ replicate (desired - length (data vec)) zero_entry;
                 size := size vec;
                 capacity := desired |})
  else (WASM_ERROR, vec).

(** The first loop of [wasm_hash_resize], from slot [i] for [n] more turns:
    every slot is pushed on the front of the free list. *)
Fixpoint init_free_list (n i : nat) (new_hash : WasmBindingHash) : option WasmBindingHash :=
  match n with
  | 0 => Some new_hash
  | S n =>
      _ ← load new_hash i;
      new_hash ← store_if new_hash (free_head new_hash) (set_prev (Some i));
      new_hash ← store new_hash i (set_name zero_slice);
      new_hash ← store new_hash i (set_next (free_head new_hash));
      init_free_list n (S i) (with_free_head new_hash (Some i))
  end.

(** The second loop of [wasm_hash_resize]: the occupied entries of the old
    hash are entered into the new one in slot order. *)
Fixpoint copy_entries (n i : nat) (hash new_hash : WasmBindingHash) : option WasmBindingHash :=
  match n with
  | 0 => Some new_hash
  | S n =>
      old_entry ← load hash i;
      if wasm_hash_entry_is_free old_entry then copy_entries n (S i) hash new_hash
      else
        '(new_entry, new_hash) ← wasm_hash_new_entry new_hash (name (binding old_entry));
        new_hash ← store new_hash new_entry (set_binding (binding old_entry));
        copy_entries n (S i) hash new_hash
  end.

Definition wasm_hash_resize (hash : WasmBindingHash) (desired_capacity : nat)
    : option (WasmResult * WasmBindingHash) :=
  match wasm_reserve_binding_hash_entrys empty_vector desired_capacity with
  | (WASM_ERROR, _) => Some (WASM_ERROR, hash)
  | (WASM_OK, new_entries) =>
      let new_hash := {| entries := new_entries; free_head := None |} in
      new_hash ← init_free_list (capacity (entries new_hash)) 0 new_hash;
      fh ← free_head new_hash;
      new_hash ← store new_hash fh (set_prev None);
      new_hash ← copy_entries (capacity (entries hash)) 0 hash new_hash;
      Some (WASM_OK, new_hash)
  end.

(** [wasm_insert_binding]: the returned [WasmBinding*] is the slot that holds
    the binding, [None] for [NULL]. *)
Definition wasm_insert_binding (hash : WasmBindingHash) (nm : WasmStringSlice)
    : option (option nat * WasmBindingHash) :=
  '(r, hash) ← (if decide (size (entries hash) = 0)
                then wasm_hash_resize hash INITIAL_HASH_CAPACITY
                else Some (WASM_OK, hash));
  if decide (r ≠ WASM_OK) then Some (None, hash)
  else
    '(r, hash) ← (match free_head hash with
                  | None => wasm_hash_resize hash (capacity (entries hash) * 2)
                  | Some _ => Some (WASM_OK, hash)
                  end);
    if decide (r ≠ WASM_OK) then Some (None, hash)
    else
      '(entry, hash) ← wasm_hash_new_entry hash nm;
      Some (Some entry, with_size hash (S (size (entries hash)))).

(** A caller's [binding->index = i] through the pointer an insertion returned. *)
Definition record_index (hash : WasmBindingHash) (p : nat) (i : Z) : option WasmBindingHash :=
  store hash p (set_index i).

(** ** Named-type lists *)

Inductive WasmType := WASM_TYPE_VOID | WASM_TYPE_I32 | WASM_TYPE_I64
                    | WASM_TYPE_F32 | WASM_TYPE_F64.

Record WasmTypeBindings := {
  types : list WasmType;
  bindings : WasmBindingHash;
}.

(** Modelled from the spec: [wasm_extend_types] is generated by
    [DEFINE_VECTOR(type, WasmType)], missing from wasm.c; it "appends [src]'s
    type list onto [dst]'s" and can fail only for want of memory. *)
Definition wasm_extend_types (dst src : list WasmType) : WasmResult * list WasmType :=
  if alloc_types_ok (length dst + length src) then (WASM_OK, dst ++ src)
  else (WASM_ERROR, dst).

(** The loop of [wasm_extend_type_bindings] over the slots of [src]. *)
Fixpoint extend_bindings (n i : nat) (src dst : WasmBindingHash) (last_type : Z)
    : option (WasmResult * WasmBindingHash) :=
  match n with
  | 0 => Some (WASM_OK, dst)
  | S n =>
      src_entry ← load src i;
      if wasm_hash_entry_is_free src_entry then extend_bindings n (S i) src dst last_type
      else
        '(dst_binding, dst) ← wasm_insert_binding dst (name (binding src_entry));
        match dst_binding with
        | None => Some (WASM_ERROR, dst)
        | Some p =>
            dst ← store dst p (set_binding (binding src_entry));
            e ← load dst p;
            dst ← store dst p (set_index (to_int (index (binding e) + last_type)));
            extend_bindings n (S i) src dst last_type
        end
  end.

Definition wasm_extend_type_bindings (dst src : WasmTypeBindings)
    : option (WasmResult * WasmTypeBindings) :=
  let last_type := to_int (Z.of_nat (length (types dst))) in
  match wasm_extend_types (types dst) (types src) with
  | (WASM_ERROR, ts) => Some (WASM_ERROR, {| types := ts; bindings := bindings dst |})
  | (WASM_OK, ts) =>
      '(result, h) ← extend_bindings (capacity (entries (bindings src))) 0
                       (bindings src) (bindings dst) last_type;
      Some (result, {| types := ts; bindings := h |})
  end.

End Allocation.

(** ** Variable references and module queries *)

(** [WasmVar]: a tag and a union of an index and a name. *)
Inductive WasmVar :=
| WASM_VAR_TYPE_INDEX (index : Z)
| WASM_VAR_TYPE_NAME (name : WasmStringSlice).

Definition wasm_get_index_from_var (hash : WasmBindingHash) (var : WasmVar) : option Z :=
  match var with
  | WASM_VAR_TYPE_NAME nm => find_binding_index_by_name hash nm
  | WASM_VAR_TYPE_INDEX i => Some i
  end.

(** The flat vectors of a module hold the addresses of its functions, function
    types, imports and exports; [size] is the length of the list.  A returned
    pointer is [Some address], or [None] for [NULL]. *)
Definition address := nat.

Record WasmModule := {
  funcs : list address;
  func_types : list address;
  imports : list address;
  exports : list address;
  func_bindings : WasmBindingHash;
  func_type_bindings : WasmBindingHash;
  import_bindings : WasmBindingHash;
  export_bindings : WasmBindingHash;
}.

(** [vec.data[index]] for an [int] index: no result outside [0 .. size-1]. *)
Definition vector_at (v : list address) (i : Z) : option address :=
  if decide (0 ≤ i)%Z then v !! Z.to_nat i else None.

Definition wasm_get_export_by_name (module : WasmModule) (nm : WasmStringSlice)
    : option (option address) :=
  index ← find_binding_index_by_name (export_bindings module) nm;
  if decide (index = -1)%Z then Some None
  else e ← vector_at (exports module) index; Some (Some e).

Definition wasm_get_func_by_var (module : WasmModule) (var : WasmVar)
    : option (option address) :=
  index ← wasm_get_index_from_var (func_bindings module) var;
  if decide (index < 0 ∨ index >= Z.of_nat (length (funcs module)))%Z then Some None
  else e ← vector_at (funcs module) index; Some (Some e).

Definition wasm_get_func_type_by_var (module : WasmModule) (var : WasmVar)
    : option (option address) :=
  index ← wasm_get_index_from_var (func_type_bindings module) var;
  if decide (index < 0 ∨ index >= Z.of_nat (length (func_types module)))%Z then Some None
  else e ← vector_at (func_types module) index; Some (Some e).

Definition wasm_get_import_by_var (module : WasmModule) (var : WasmVar)
    : option (option address) :=
  index ← wasm_get_index_from_var (import_bindings module) var;
  if decide (index < 0 ∨ index >= Z.of_nat (length (imports module)))%Z then Some None
  else e ← vector_at (imports module) index; Some (Some e).

(** ** Index getters, exports and functions *)




(** The fields of [WasmFunc] and [WasmExport] that are read outside the
    destructors. *)
Record WasmFunc := {
  func_name : WasmStringSlice;
  params_and_locals : WasmTypeBindings;
}.

Record WasmExport := {
  export_name : WasmStringSlice;
  export_var : WasmVar;
}.

Definition wasm_get_local_index_by_var (func : WasmFunc) (var : WasmVar) : option Z :=
  wasm_get_index_from_var (bindings (params_and_locals func)) var.

(** [wasm_get_global_index_by_var] reads [module->globals.bindings] and
    nothing else of the module; [globals] stands for [module->globals],
    which is not among the fields of [WasmModule] above. *)
Definition wasm_get_global_index_by_var (globals : WasmTypeBindings) (var : WasmVar)
    : option Z :=
  wasm_get_index_from_var (bindings globals) var.

(** What the addresses held by [exports] and [funcs] point to; [None] at an
    address that holds no such object. *)
Record WasmObjects := {
  export_at : address → option WasmExport;
  func_at : address → option WasmFunc;
}.

(** The loop of [wasm_func_is_exported] from export [i] for [n] more turns;
    [func] is the address of the function asked about, and the result is the
    [int] returned. *)
Fixpoint func_is_exported_loop (objects : WasmObjects) (module : WasmModule)
    (func : address) (n i : nat) : option Z :=
  match n with
  | 0 => Some 0%Z
  | S n =>
      p ← exports module !! i;
      export ← export_at objects p;
      match export_var export with
      | WASM_VAR_TYPE_NAME nm =>
          (* [a->start && b->start && ..]: the function is read only when
             the name of the export has a start *)
          equal ← (if decide (start nm = None) then Some false
                   else f ← func_at objects func;
                        Some (wasm_string_slices_are_equal nm (func_name f)));
          if equal : bool then Some 1%Z
          else func_is_exported_loop objects module func n (S i)
      | WASM_VAR_TYPE_INDEX index =>
          if decide (index >= 0 ∧ index < Z.of_nat (length (funcs module)))%Z then
            fp ← vector_at (funcs module) index;
            if decide (fp = func) then Some 1%Z
            else func_is_exported_loop objects module func n (S i)
          else func_is_exported_loop objects module func n (S i)
      end
  end.

Definition wasm_func_is_exported (objects : WasmObjects) (module : WasmModule)
    (func : address) : option Z :=
  func_is_exported_loop objects module func (length (exports module)) 0.

(** ** The memory dump *)

Definition DUMP_OCTETS_PER_LINE : nat := 16.
Definition DUMP_OCTETS_PER_GROUP : nat := 2.

(** What [printf] writes: the digit of a value below 16 under [%x], and the
    [n] low hexadecimal digits of a value, the most significant first. *)
Definition hex_digit (n : Z) : ascii :=
  default "?"%char (String.get (Z.to_nat n) "0123456789abcdef").

Fixpoint hex_digits (n : nat) (v : Z) : string :=
  match n with
  | 0 => ""
  | S n => hex_digits n (v / 16) +:+ String (hex_digit (v mod 16)) ""
  end.

(** [printf("%07x", (int)v)]: the value is cut to 32 bits and written with
    at least 7 digits, padded with zeros; an eighth digit appears when the
    value needs it. *)
Definition printf_07x (v : Z) : string :=
  let u := (v mod 2 ^ 32)%Z in
  if decide (u < 16 ^ 7)%Z then hex_digits 7 u else hex_digits 8 u.

(** [printf("%02x", *p)] for a [uint8_t]. *)
Definition printf_02x (b : byte) : string := hex_digits 2 (Z.of_N (Byte.to_N b)).

(** [isprint] in the C locale. *)
Definition isprint (b : byte) : bool :=
  (32 <=? Byte.to_N b)%N && (Byte.to_N b <=? 126)%N.

Definition newline : string := String "010"%char "".

(** The buffer [start .. start + size) is the list of its bytes; a pointer
    [p] into it is its distance from [start], and [p < end] holds exactly when
    [bytes !! p] is a byte. *)

(** [for (i = 0; i < DUMP_OCTETS_PER_GROUP; ++i, ++p)]: the octets of one
    group, two spaces for an octet past the end. *)
Fixpoint dump_group (n : nat) (bytes : list byte) (p : nat) : string :=
  match n with
  | 0 => ""
  | S n =>
      match bytes !! p with
      | Some b => printf_02x b
      | None => "  "
      end +:+ dump_group n bytes (S p)
  end.

(** [while (p < line_end)]: the groups of a line, a space after each. *)
Fixpoint dump_groups (fuel : nat) (bytes : list byte) (p line_end : nat) : string :=
  match fuel with
  | 0 => ""
  | S fuel =>
      if decide (p < line_end) then
        dump_group DUMP_OCTETS_PER_GROUP bytes p +:+ " "
        +:+ dump_groups fuel bytes (p + DUMP_OCTETS_PER_GROUP) line_end
      else ""
  end.

(** [for (i = 0; i < DUMP_OCTETS_PER_LINE && p < end; ++i, ++p)]: the
    characters of a line when [print_chars] is set, and where [p] ends. *)
Fixpoint dump_chars (n : nat) (bytes : list byte) (p : nat) (print_chars : bool)
    : string * nat :=
  match n with
  | 0 => ("", p)
  | S n =>
      match bytes !! p with
      | None => ("", p)
      | Some b =>
          let '(s, p') := dump_chars n bytes (S p) print_chars in
          ((if print_chars
            then String (if isprint b then ascii_of_byte b else "."%char) ""
            else "") +:+ s, p')
      end
  end.

(** One turn of the outer loop: the text of the line that starts at [p], and
    the value of [p] after it. *)
Definition dump_line (bytes : list byte) (offset : Z) (print_chars : bool)
    (desc : option string) (p : nat) : string * nat :=
  let line := p in
  let line_end := p + DUMP_OCTETS_PER_LINE in
  let address := printf_07x (Z.of_nat p + offset) +:+ ": " in
  let groups := dump_groups DUMP_OCTETS_PER_LINE bytes p line_end in
  let '(chars, p) := dump_chars DUMP_OCTETS_PER_LINE bytes line print_chars in
  let description :=
    match desc with
    | Some d => if decide (length bytes ≤ p) then "  ; " +:+ d else ""
    | None => ""
    end in
  (address +:+ groups +:+ " " +:+ chars +:+ description +:+ newline, p).

(** [while (p < end)]: the lines written from [p] on. *)
Fixpoint dump_lines (fuel : nat) (bytes : list byte) (offset : Z) (print_chars : bool)
    (desc : option string) (p : nat) : list string :=
  match fuel with
  | 0 => []
  | S fuel =>
      if decide (p < length bytes) then
        let '(text, p) := dump_line bytes offset print_chars desc p in
        text :: dump_lines fuel bytes offset print_chars desc p
      else []
  end.

(** [wasm_print_memory]: what is written to the standard output. *)
Definition wasm_print_memory (bytes : list byte) (offset : Z) (print_chars : bool)
    (desc : option string) : string :=
  foldr String.app "" (dump_lines (length bytes) bytes offset print_chars desc 0).

(** The format of the dump in the words of its description: the line count,
    and the parts of line [k] for its row of at most 16 bytes. *)
Definition dump_line_count (size : nat) : nat := (size + 15) / 16.

Definition octet_text (row : list byte) (i : nat) : string :=
  match row !! i with
  | Some b => printf_02x b
  | None => "  "
  end.

Definition groups_text (row : list byte) : string :=
  foldr String.app ""
    ((λ g, octet_text row (2 * g) +:+ octet_text row (2 * g + 1) +:+ " ") <$> seq 0 8).

Definition chars_text (print_chars : bool) (row : list byte) : string :=
  foldr String.app ""
    ((λ b, if print_chars
           then String (if isprint b then ascii_of_byte b else "."%char) ""
           else "") <$> row).

Definition dump_row (bytes : list byte) (k : nat) : list byte :=
  take 16 (drop (16 * k) bytes).

Definition line_text (bytes : list byte) (offset : Z) (print_chars : bool)
    (desc : option string) (k : nat) : string :=
  printf_07x (Z.of_nat (16 * k) + offset) +:+ ": "
  +:+ groups_text (dump_row bytes k) +:+ " "
  +:+ chars_text print_chars (dump_row bytes k)
  +:+ match desc with
      | Some d => if decide (S k = dump_line_count (length bytes)) then "  ; " +:+ d else ""
      | None => ""
      end
  +:+ newline.

(** ** Well-formed binding tables *)

(** A name a caller may insert: its start pointer is not null. *)
Definition valid_name (nm : WasmStringSlice) : Prop := is_Some (start nm).

(** What [wasm_string_slices_are_equal] compares of a non-null slice. *)
Definition slice_key (nm : WasmStringSlice) : nat * list byte :=
  (len nm, slice_bytes (default [] (start nm)) (len nm)).

(** The bindings held by the occupied slots, in slot order. *)
Definition occupied_entries (d : list WasmBindingHashEntry) : list WasmBinding :=
  binding <$> filter (λ e, wasm_hash_entry_is_free e = false) d.
Definition occupied_bindings (h : WasmBindingHash) : list WasmBinding :=
  occupied_entries (data (entries h)).

(** [reachable h a b]: following [next] links from slot [a] leads to slot [b]. *)
Inductive reachable (h : WasmBindingHash) : nat → nat → Prop :=
| reachable_here a : reachable h a a
| reachable_next a e c b :
    load h a = Some e → next e = Some c → reachable h c b → reachable h a b.

(** The invariant of a table with storage.  [fl] lists the slots of the free
    list from [free_head] on, and [chain m] the slots linked from main slot
    [m]: the free list is doubly linked and holds exactly the free slots; a
    chain starts in its main slot, holds occupied entries whose names hash
    to that slot, and every occupied entry is on the chain of its name. *)
Record wf (h : WasmBindingHash) (fl : list nat) (chain : nat → list nat) : Prop := {
  wf_cap : capacity (entries h) = length (data (entries h));
  wf_pos : 0 < capacity (entries h);
  wf_fl_nodup : NoDup fl;
  wf_fl_head : free_head h = head fl;
  wf_fl_link : ∀ i s, fl !! i = Some s →
    ∃ e, load h s = Some e ∧ wasm_hash_entry_is_free e = true ∧
         next e = fl !! S i ∧ prev e = match i with 0 => None | S j => fl !! j end;
  wf_fl_all : ∀ s e, load h s = Some e → wasm_hash_entry_is_free e = true → s ∈ fl;
  wf_ch_nodup : ∀ m, NoDup (chain m);
  wf_ch_head : ∀ m s, chain m !! 0 = Some s → s = m;
  wf_ch_link : ∀ m i s, chain m !! i = Some s →
    ∃ e, load h s = Some e ∧ wasm_hash_entry_is_free e = false ∧
         wasm_hash_main_entry h (name (binding e)) = Some m ∧ next e = chain m !! S i;
  wf_ch_all : ∀ s e, load h s = Some e → wasm_hash_entry_is_free e = false →
    ∃ m, wasm_hash_main_entry h (name (binding e)) = Some m ∧ s ∈ chain m;
}.

(** The tables the insertions build: the empty table [{}], or a well-formed
    table into which something has been inserted since its last growth. *)
Definition hash_inv (h : WasmBindingHash) : Prop :=
  h = empty_hash ∨ (size (entries h) ≠ 0 ∧ ∃ fl chain, wf h fl chain).

(** No slot holds a name equal to [nm]. *)
Definition unbound (h : WasmBindingHash) (nm : WasmStringSlice) : Prop :=
  ∀ s e, load h s = Some e → wasm_string_slices_are_equal (name (binding e)) nm = false.

Section Runs.
Variable alloc_ok : nat → bool.

(** Inserting the names of [l] in order, each followed by the caller's
    assignment of its index.  [Some None]: an insertion returned [NULL]. *)
Fixpoint insert_all (h : WasmBindingHash) (l : list (WasmStringSlice * Z))
    : option (option WasmBindingHash) :=
  match l with
  | [] => Some (Some h)
  | (nm, i) :: l =>
      '(p, h) ← wasm_insert_binding alloc_ok h nm;
      match p with
      | None => Some None
      | Some p => h ← record_index h p i; insert_all h l
      end
  end.

(** [grown k h]: [h] is built from the empty table by insertions, [k] of which
    changed the capacity. *)
Inductive grown : nat → WasmBindingHash → Prop :=
| grown_empty : grown 0 empty_hash
| grown_insert k h nm p h1 i h2 :
    grown k h → valid_name nm →
    wasm_insert_binding alloc_ok h nm = Some (Some p, h1) →
    record_index h1 p i = Some h2 →
    grown (if decide (capacity (entries h1) = capacity (entries h)) then k else S k) h2.

End Runs.

(** ** Definitions used in the statements and proofs *)

(** The binding an entry contributes to [occupied_entries]. *)
Definition own (e : WasmBindingHashEntry) : list WasmBinding :=
  if wasm_hash_entry_is_free e then [] else [binding e].

Definition new_binding (nm : WasmStringSlice) : WasmBinding := {| name := nm; index := 0 |}.

Definition new_entry_val (nm : WasmStringSlice) : WasmBindingHashEntry :=
  {| binding := new_binding nm; next := None; prev := None |}.

(** Entries that sit in their main slot keep their slot and binding. *)
Definition keeps_main (h h' : WasmBindingHash) (p : nat) : Prop :=
  ∀ s e, load h s = Some e → wasm_hash_entry_is_free e = false →
    wasm_hash_main_entry h (name (binding e)) = Some s →
    s ≠ p ∧ ∃ e', load h' s = Some e' ∧ binding e' = binding e.

(** The state of the first loop of [wasm_hash_resize] before slot [i]: the
    slots below [i] are linked downwards from [i - 1], every slot is free. *)
Definition free_list_upto (i : nat) (h : WasmBindingHash) : Prop :=
  capacity (entries h) = length (data (entries h)) ∧
  free_head h = match i with 0 => None | S j => Some j end ∧
  (∀ s e, load h s = Some e → wasm_hash_entry_is_free e = true) ∧
  (∀ s, s < i → ∃ e, load h s = Some e ∧
     next e = match s with 0 => None | S j => Some j end ∧
     prev e = if decide (S s = i) then None else Some (S s)) ∧
  (∀ s e, i ≤ s → load h s = Some e → prev e = None).

(** The capacity an insertion into [h] asks for when it has to grow. *)
Definition grown_capacity (h : WasmBindingHash) : nat :=
  if decide (size (entries h) = 0) then INITIAL_HASH_CAPACITY
  else capacity (entries h) * 2.

(** Names that are pairwise different for [wasm_string_slices_are_equal]. *)
Definition distinct_names (l : list WasmStringSlice) : Prop :=
  ∀ i j a b, l !! i = Some a → l !! j = Some b → i ≠ j →
    wasm_string_slices_are_equal a b = false.

Definition binding_of (x : WasmStringSlice * Z) : WasmBinding :=
  {| name := x.1; index := x.2 |}.

(** The slice of a string literal. *)
Definition slice_of_string (s : string) : WasmStringSlice :=
  {| start := Some (list_byte_of_string s); len := String.length s |}.

(** Twenty names, bound to their positions. *)
Definition twenty_names : list (WasmStringSlice * Z) :=
  imap (λ i s, (slice_of_string s, Z.of_nat i))
    ["a"; "b"; "c"; "d"; "e"; "f"; "g"; "h"; "i"; "j";
     "k"; "l"; "m"; "n"; "o"; "p"; "q"; "r"; "s"; "t"]%string.

Definition always (n : nat) : bool := true.

#[global] Instance valid_name_dec nm : Decision (valid_name nm).
Proof. unfold valid_name. apply _. Defined.

(** Three insertions, the third of which moves the second out of the main
    slot of the third. *)
Definition relocating_names : list (WasmStringSlice * Z) :=
  [(slice_of_string "a", 0); (slice_of_string "i", 1); (slice_of_string "h", 2)]%Z.

(** The table after the first insertion, and the states that lead to it. *)
Definition one_name_inserted : nat * WasmBindingHash :=
  Eval vm_compute in
    match wasm_insert_binding always empty_hash (slice_of_string "a") with
    | Some (Some p, h) => (p, h)
    | _ => (0, empty_hash)
    end.

Definition one_name_table : WasmBindingHash :=
  Eval vm_compute in
    default empty_hash (record_index one_name_inserted.2 one_name_inserted.1 0).

(** A table as the callers see it: the empty table or a well-formed one. *)
Definition table_ok (h : WasmBindingHash) : Prop :=
  h = empty_hash ∨ ∃ fl chain, wf h fl chain.

(** What a bounds-checked getter returns for a resolved index and the flat
    vector [v]: [NULL] outside the vector, the element inside. *)
Definition element_or_null (resolved : option Z) (v : list address)
    (result : option (option address)) : Prop :=
  ∀ index, resolved = Some index →
    ((index < 0 ∨ index >= Z.of_nat (length v))%Z → result = Some None) ∧
    ((0 ≤ index < Z.of_nat (length v))%Z →
     ∃ e, v !! Z.to_nat index = Some e ∧ result = Some (Some e)).

(** A module with two functions, "a" bound to position 0, and two exports. *)
Definition small_module : WasmModule :=
  {| funcs := [100; 101]; func_types := []; imports := [];
     exports := [200; 201];
     func_bindings := one_name_table;
     func_type_bindings := empty_hash;
     import_bindings := empty_hash;
     export_bindings := one_name_table |}.

(** The same module with a binding whose index is outside the exports. *)
Definition dangling_export_module : WasmModule :=
  {| funcs := []; func_types := []; imports := []; exports := [];
     func_bindings := empty_hash;
     func_type_bindings := empty_hash;
     import_bindings := empty_hash;
     export_bindings := one_name_table |}.

(** The numbers an [int] holds. *)
Definition int_range (z : Z) : Prop := (INT_MIN ≤ z ≤ INT_MAX)%Z.

(** The binding [wasm_extend_type_bindings] stores for a binding of [src]. *)
Definition shift_binding (last_type : Z) (b : WasmBinding) : WasmBinding :=
  {| name := name b; index := to_int (index b + last_type) |}.

(** A destination with one type and the name "a", a source with two types
    and the names "b" and "c". *)
Definition two_name_table : WasmBindingHash :=
  Eval vm_compute in
    default empty_hash
      (mjoin (insert_all always empty_hash
                [(slice_of_string "b", 0%Z); (slice_of_string "c", 1%Z)])).

Definition extend_dst : WasmTypeBindings :=
  {| types := [WASM_TYPE_I32]; bindings := one_name_table |}.

Definition extend_src : WasmTypeBindings :=
  {| types := [WASM_TYPE_I64; WASM_TYPE_F32]; bindings := two_name_table |}.

(** A source with one type and the name "b" bound to [INT_MAX]. *)
Definition int_max_table : WasmBindingHash :=
  Eval vm_compute in
    default empty_hash
      (mjoin (insert_all always empty_hash [(slice_of_string "b", INT_MAX)])).

Definition overflow_src : WasmTypeBindings :=
  {| types := [WASM_TYPE_I64]; bindings := int_max_table |}.

(** ** Definitions used in the further properties *)

(** A table with storage whose free list and chains are well formed. *)
Definition well_formed (h : WasmBindingHash) : Prop := ∃ fl chain, wf h fl chain.

(** The capacity is at most the initial one, or below twice the number of
    bindings. *)
Definition capacity_bounded (h : WasmBindingHash) : Prop :=
  capacity (entries h) ≤ INITIAL_HASH_CAPACITY
  ∨ capacity (entries h) + 2 ≤ 2 * length (occupied_bindings h).

(** The table after "a" and "i": both names have main slot 4, where "a" is;
    "i" was put in slot 7, the main slot of "h". *)
Definition two_colliding_names : WasmBindingHash :=
  Eval vm_compute in
    default empty_hash
      (mjoin (insert_all always empty_hash
                [(slice_of_string "a", 0%Z); (slice_of_string "i", 1%Z)])).

Definition displaced_entry : WasmBindingHashEntry :=
  Eval vm_compute in default zero_entry (load two_colliding_names 7).

(** An export that names the function at [func]: by a name equal to the
    function's, or by the position of [func] in [funcs]. *)
Definition export_names_func (objects : WasmObjects) (module : WasmModule)
    (func : address) (export : WasmExport) : Prop :=
  match export_var export with
  | WASM_VAR_TYPE_NAME nm =>
      ∃ f, func_at objects func = Some f ∧
           wasm_string_slices_are_equal nm (func_name f) = true
  | WASM_VAR_TYPE_INDEX index =>
      (0 ≤ index)%Z ∧ funcs module !! Z.to_nat index = Some func
  end.

(** The objects of [small_module]: the function "a" at 100 and a function
    without a name at 101, an export of the name "a" at 200 and an export of
    position 1 at 201. *)
Definition small_objects : WasmObjects :=
  {| export_at := λ p,
       if decide (p = 200) then
         Some {| export_name := slice_of_string "first";
                 export_var := WASM_VAR_TYPE_NAME (slice_of_string "a") |}
       else if decide (p = 201) then
         Some {| export_name := slice_of_string "second";
                 export_var := WASM_VAR_TYPE_INDEX 1 |}
       else None;
     func_at := λ p,
       if decide (p = 100) then
         Some {| func_name := slice_of_string "a";
                 params_and_locals := {| types := []; bindings := empty_hash |} |}
       else if decide (p = 101) then
         Some {| func_name := zero_slice;
                 params_and_locals := {| types := []; bindings := empty_hash |} |}
       else None |}.


(** [isprint] on a character of the output. *)
Definition printable (c : ascii) : bool :=
  (32 <=? N_of_ascii c)%N && (N_of_ascii c <=? 126)%N.

(** A text of printable characters and newlines. *)
Definition plain_text (s : string) : Prop :=
  Forall (λ c, printable c = true ∨ c = "010"%char) (list_ascii_of_string s).

(** The number of newline characters of a text. *)
Fixpoint count_newlines (s : string) : nat :=
  match s with
  | "" => 0
  | String c s => (if decide (c = "010"%char) then 1 else 0) + count_newlines s
  end.

(** * Properties *)

(** ** Loads and stores *)

Lemma store_Some h p f e :
  load h p = Some e →
  store h p f = Some (with_data h (alter f p (data (entries h)))).
Proof. unfold store. intros ->. done. Qed.

Lemma store_inv h p f h' :
  store h p f = Some h' →
  is_Some (load h p) ∧ h' = with_data h (alter f p (data (entries h))).
Proof.
  unfold store. destruct (load h p) eqn:E; simpl; [|done].
  intros [= <-]. eauto.
Qed.

Lemma load_alter h f p s :
  load (with_data h (alter f p (data (entries h)))) s
  = if decide (p = s) then f <$> load h s else load h s.
Proof.
  unfold load; simpl. rewrite list_lookup_alter.
  case_decide; subst; done.
Qed.

Lemma load_store h p f h' s :
  store h p f = Some h' →
  load h' s = if decide (p = s) then f <$> load h s else load h s.
Proof. intros [_ ->]%store_inv. apply load_alter. Qed.

Lemma load_lt h s e :
  capacity (entries h) = length (data (entries h)) →
  load h s = Some e → s < capacity (entries h).
Proof. intros -> H. by apply lookup_lt_Some in H. Qed.

Lemma load_is_Some h s :
  capacity (entries h) = length (data (entries h)) →
  s < capacity (entries h) → is_Some (load h s).
Proof. intros -> H. by apply lookup_lt_is_Some_2. Qed.

(** ** Names and main slots *)

Lemma equal_same_hash a b :
  wasm_string_slices_are_equal a b = true → wasm_hash_name a = wasm_hash_name b.
Proof.
  unfold wasm_string_slices_are_equal, wasm_hash_name.
  destruct (start a), (start b); try done.
  intros [Hl Hb]%andb_true_iff.
  apply bool_decide_eq_true in Hl, Hb. by rewrite <- Hl, Hb.
Qed.

Lemma equal_same_main h h' a b :
  capacity (entries h) = capacity (entries h') →
  wasm_string_slices_are_equal a b = true →
  wasm_hash_main_entry h a = wasm_hash_main_entry h' b.
Proof.
  intros Hc He. unfold wasm_hash_main_entry.
  by rewrite (equal_same_hash _ _ He), Hc.
Qed.

Lemma equal_iff_key a b :
  wasm_string_slices_are_equal a b = true
  ↔ valid_name a ∧ valid_name b ∧ slice_key a = slice_key b.
Proof.
  unfold wasm_string_slices_are_equal, valid_name, slice_key.
  destruct (start a), (start b); simpl;
    try (split; [done | intros (H1 & H2 & _); by destruct H1 || destruct H2]).
  rewrite andb_true_iff, !bool_decide_eq_true. split.
  - intros [Hl Hb]. repeat split; eauto. by rewrite <- Hl, Hb.
  - intros (_ & _ & [= Hl Hb]). split; [done|]. by rewrite Hb, Hl.
Qed.

Lemma equal_free_false e nm :
  wasm_hash_entry_is_free e = true →
  wasm_string_slices_are_equal (name (binding e)) nm = false.
Proof.
  unfold wasm_hash_entry_is_free, wasm_string_slices_are_equal.
  intros ->%bool_decide_eq_true. done.
Qed.

Lemma is_free_false_valid e :
  wasm_hash_entry_is_free e = false ↔ valid_name (name (binding e)).
Proof.
  unfold wasm_hash_entry_is_free, valid_name.
  rewrite bool_decide_eq_false, <- not_eq_None_Some. done.
Qed.

Lemma main_entry_valid h nm :
  0 < capacity (entries h) → valid_name nm →
  ∃ m, wasm_hash_main_entry h nm = Some m ∧ m < capacity (entries h).
Proof.
  intros Hc [bs Hs]. unfold wasm_hash_main_entry, wasm_hash_name. rewrite Hs. simpl.
  case_decide; [lia|]. eexists; split; [done|].
  apply Nat2Z.inj_lt. rewrite Z2Nat.id.
  - apply Z.mod_pos_bound. lia.
  - apply Z.mod_pos_bound. lia.
Qed.

Lemma main_entry_lt h nm m :
  wasm_hash_main_entry h nm = Some m → m < capacity (entries h).
Proof.
  unfold wasm_hash_main_entry. destruct (wasm_hash_name nm); simpl; [|done].
  case_decide; [done|]. intros [= <-].
  apply Nat2Z.inj_lt. rewrite Z2Nat.id; apply Z.mod_pos_bound; lia.
Qed.

Lemma main_entry_cap h h' nm :
  capacity (entries h) = capacity (entries h') →
  wasm_hash_main_entry h nm = wasm_hash_main_entry h' nm.
Proof. unfold wasm_hash_main_entry. by intros ->. Qed.

(** ** Lookup in a well-formed table *)

Section Lookup.
Context {h : WasmBindingHash} {fl : list nat} {chain : nat → list nat}.
Hypothesis Hwf : wf h fl chain.

Lemma chain_lt m s : s ∈ chain m → s < capacity (entries h).
Proof.
  intros [i Hi]%list_elem_of_lookup_1.
  destruct (wf_ch_link _ _ _ Hwf _ _ _ Hi) as (e & He & _).
  eapply load_lt; [apply Hwf | done].
Qed.

Lemma chain_length m : length (chain m) ≤ capacity (entries h).
Proof.
  rewrite <- (length_seq (capacity (entries h)) 0).
  apply submseteq_length, NoDup_submseteq; [apply Hwf|].
  intros s Hs. apply elem_of_seq. pose proof (chain_lt _ _ Hs). lia.
Qed.

Lemma chain_head m s : s ∈ chain m → chain m !! 0 = Some m.
Proof.
  intros Hs. destruct (chain m) as [|x c] eqn:E; [by apply not_elem_of_nil in Hs|].
  pose proof (wf_ch_head _ _ _ Hwf m x) as Hx. rewrite E in Hx.
  simpl in *. by rewrite Hx.
Qed.

Lemma occupied_on_chain s e :
  load h s = Some e → wasm_hash_entry_is_free e = false →
  ∃ m i, wasm_hash_main_entry h (name (binding e)) = Some m ∧ chain m !! i = Some s.
Proof.
  intros He Hf. destruct (wf_ch_all _ _ _ Hwf _ _ He Hf) as (m & Hm & Hin).
  apply list_elem_of_lookup_1 in Hin as [i Hi]. eauto.
Qed.

Lemma chain_entry_main m s e :
  s ∈ chain m → load h s = Some e →
  wasm_hash_entry_is_free e = false ∧ wasm_hash_main_entry h (name (binding e)) = Some m.
Proof.
  intros [i Hi]%list_elem_of_lookup_1 He.
  destruct (wf_ch_link _ _ _ Hwf _ _ _ Hi) as (e' & He' & Hf & Hm & _).
  rewrite He in He'. by injection He' as <-.
Qed.

Lemma free_list_entry s e :
  load h s = Some e → wasm_hash_entry_is_free e = true →
  ∃ k, fl !! k = Some s ∧ next e = fl !! S k
       ∧ prev e = match k with 0 => None | S j => fl !! j end.
Proof.
  intros He Hf. pose proof (wf_fl_all _ _ _ Hwf _ _ He Hf) as Hin.
  apply list_elem_of_lookup_1 in Hin as [k Hk]. exists k. split; [done|].
  destruct (wf_fl_link _ _ _ Hwf _ _ Hk) as (e' & He' & _ & Hn & Hp).
  rewrite He in He'. injection He' as <-. done.
Qed.

Lemma free_list_free k s :
  fl !! k = Some s → ∃ e, load h s = Some e ∧ wasm_hash_entry_is_free e = true.
Proof.
  intros Hk. destruct (wf_fl_link _ _ _ Hwf _ _ Hk) as (e & He & Hf & _). eauto.
Qed.

(** A slot holding a name equal to [nm] lies on the chain of [nm]'s main slot. *)
Lemma equal_on_chain nm m s e :
  wasm_hash_main_entry h nm = Some m → load h s = Some e →
  wasm_string_slices_are_equal (name (binding e)) nm = true →
  s ∈ chain m.
Proof.
  intros Hm He Heq.
  assert (wasm_hash_entry_is_free e = false) as Hf.
  { apply is_free_false_valid. by apply equal_iff_key in Heq as (? & _). }
  destruct (wf_ch_all _ _ _ Hwf _ _ He Hf) as (m' & Hm' & Hin).
  rewrite (equal_same_main h h _ _ eq_refl Heq), Hm in Hm'. by injection Hm' as <-.
Qed.

Lemma find_loop_chain fuel m i s nm :
  chain m !! i = Some s → length (chain m) ≤ fuel + i →
  ∃ r, find_loop fuel h s nm = Some r ∧
    ((∃ s' e', s' ∈ chain m ∧ load h s' = Some e' ∧
        wasm_string_slices_are_equal (name (binding e')) nm = true ∧
        r = index (binding e'))
     ∨ (r = (-1)%Z ∧ ∀ j s' e', i ≤ j → chain m !! j = Some s' → load h s' = Some e' →
          wasm_string_slices_are_equal (name (binding e')) nm = false)).
Proof.
  revert i s. induction fuel as [|fuel IH]; intros i s Hi Hlen.
  { apply lookup_lt_Some in Hi. lia. }
  destruct (wf_ch_link _ _ _ Hwf _ _ _ Hi) as (e & He & Hf & Hm & Hn).
  simpl. rewrite He. simpl.
  destruct (wasm_string_slices_are_equal (name (binding e)) nm) eqn:Heq.
  { eexists; split; [done|]. left. exists s, e.
    split; [by eapply list_elem_of_lookup_2|]. done. }
  destruct (next e) as [nxt|] eqn:Hnxt.
  - symmetry in Hn.
    destruct (wf_ch_link _ _ _ Hwf _ _ _ Hn) as (ne & Hne & Hnf & _).
    rewrite Hne. simpl. rewrite Hnf.
    destruct (IH (S i) nxt Hn) as (r & Hr & Hcase); [lia|].
    exists r. split; [done|]. destruct Hcase as [Hfound|[-> Hnone]]; [by left|].
    right. split; [done|]. intros j s' e' Hj Hs' He'.
    destruct (decide (j = i)) as [->|Hne'].
    + rewrite Hi in Hs'. injection Hs' as <-. rewrite He in He'.
      by injection He' as <-.
    + apply (Hnone j s' e'); [lia|done..].
  - eexists; split; [done|]. right. split; [done|].
    intros j s' e' Hj Hs' He'.
    destruct (decide (j = i)) as [->|Hne'].
    + rewrite Hi in Hs'. injection Hs' as <-. rewrite He in He'.
      by injection He' as <-.
    + apply lookup_lt_Some in Hs'. symmetry in Hn.
      apply lookup_ge_None in Hn. lia.
Qed.

Lemma find_binding_spec nm :
  is_Some (wasm_hash_name nm) →
  ∃ r, find_binding_index_by_name h nm = Some r ∧
    ((∃ s e, load h s = Some e ∧
        wasm_string_slices_are_equal (name (binding e)) nm = true ∧
        r = index (binding e))
     ∨ (r = (-1)%Z ∧ unbound h nm)).
Proof.
  intros [hv Hhv]. pose proof (wf_pos _ _ _ Hwf) as Hpos.
  assert (∃ m, wasm_hash_main_entry h nm = Some m) as [m Hm].
  { unfold wasm_hash_main_entry. rewrite Hhv. simpl. case_decide; [lia|eauto]. }
  pose proof (main_entry_lt _ _ _ Hm) as Hlt.
  destruct (load_is_Some h m (wf_cap _ _ _ Hwf) Hlt) as [e He].
  unfold find_binding_index_by_name. case_decide; [lia|]. rewrite Hm. simpl.
  assert (∀ s e', load h s = Some e' →
            wasm_string_slices_are_equal (name (binding e')) nm = true →
            chain m !! 0 = Some m) as Hbound.
  { intros s e' He' Heq. eapply chain_head, equal_on_chain; eauto. }
  destruct (wasm_hash_entry_is_free e) eqn:Hf.
  - (* the main slot is free: one comparison, then a free slot or the end *)
    destruct (free_list_entry _ _ He Hf) as (k & Hk & Hn & _).
    destruct (capacity (entries h)) as [|c] eqn:Hc; [lia|]. simpl.
    rewrite He. simpl. rewrite (equal_free_false _ _ Hf).
    assert (unbound h nm) as Hun.
    { intros s e' He'.
      destruct (wasm_string_slices_are_equal (name (binding e')) nm) eqn:Heq; [|done].
      pose proof (Hbound _ _ He' Heq) as H0.
      destruct (wf_ch_link _ _ _ Hwf _ _ _ H0) as (e0 & He0 & Hf0 & _).
      congruence. }
    destruct (next e) as [nxt|] eqn:Hnxt.
    + symmetry in Hn. destruct (free_list_free _ _ Hn) as (ne & Hne & Hnf).
      rewrite Hne. simpl. rewrite Hnf. eauto.
    + eauto.
  - destruct (occupied_on_chain _ _ He Hf) as (o & k & Ho & Hk).
    destruct (find_loop_chain (capacity (entries h)) o k m nm Hk) as (r & Hr & Hcase).
    { pose proof (chain_length o). lia. }
    exists r. split; [done|]. destruct Hcase as [(s' & e' & _ & ?)|[-> Hnone]].
    { left. eauto. }
    right. split; [done|]. intros s e' He'.
    destruct (wasm_string_slices_are_equal (name (binding e')) nm) eqn:Heq; [|done].
    pose proof (Hbound _ _ He' Heq) as H0.
    destruct (wf_ch_link _ _ _ Hwf _ _ _ H0) as (e0 & He0 & _ & Hm0 & _).
    assert (e0 = e) as -> by congruence.
    assert (o = m) as -> by congruence.
    pose proof (equal_on_chain nm m s e' Hm He' Heq) as Hin.
    apply list_elem_of_lookup_1 in Hin as [j Hj].
    assert (k = 0) as ->
      by (apply (NoDup_lookup (chain m) k 0 m); [apply Hwf|done..]).
    rewrite <- Heq. apply (Hnone j s e'); [lia|done..].
Qed.

End Lookup.

(** ** The effect of stores *)

Lemma store_total h p f :
  p < length (data (entries h)) →
  ∃ h', store h p f = Some h' ∧
    (∀ s, load h' s = if decide (p = s) then f <$> load h s else load h s) ∧
    capacity (entries h') = capacity (entries h) ∧
    length (data (entries h')) = length (data (entries h)) ∧
    size (entries h') = size (entries h) ∧
    free_head h' = free_head h.
Proof.
  intros Hlt. destruct (lookup_lt_is_Some_2 _ _ Hlt) as [e He].
  eexists. split; [by eapply store_Some|].
  split; [intros s; apply load_alter|]. simpl. by rewrite length_alter.
Qed.

Lemma store_frame h p f h' :
  store h p f = Some h' →
  capacity (entries h') = capacity (entries h) ∧
  length (data (entries h')) = length (data (entries h)) ∧
  size (entries h') = size (entries h) ∧
  free_head h' = free_head h.
Proof. intros [_ ->]%store_inv. simpl. by rewrite length_alter. Qed.

Lemma store_if_total h q f :
  (∀ p, q = Some p → p < length (data (entries h))) →
  ∃ h', store_if h q f = Some h' ∧
    (∀ s, load h' s = if decide (q = Some s) then f <$> load h s else load h s) ∧
    capacity (entries h') = capacity (entries h) ∧
    length (data (entries h')) = length (data (entries h)) ∧
    size (entries h') = size (entries h) ∧
    free_head h' = free_head h.
Proof.
  intros Hlt. destruct q as [p|]; simpl.
  - destruct (store_total h p f) as (h' & Hst & Hl & ?); [eauto|].
    exists h'. split; [done|]. split; [|done].
    intros s. rewrite Hl. repeat case_decide; congruence.
  - exists h. split; [done|]. split; [|done]. intros s. done.
Qed.

Lemma occupied_entries_cons e d :
  occupied_entries (e :: d) = own e ++ occupied_entries d.
Proof.
  unfold occupied_entries, own. rewrite filter_cons.
  destruct (decide (wasm_hash_entry_is_free e = false)) as [->| ->%not_false_is_true];
    done.
Qed.

Lemma occupied_entries_app d1 d2 :
  occupied_entries (d1 ++ d2) = occupied_entries d1 ++ occupied_entries d2.
Proof. unfold occupied_entries. by rewrite filter_app, fmap_app. Qed.

Lemma occupied_entries_alter d p e f :
  d !! p = Some e →
  own (f e) ++ occupied_entries d ≡ₚ own e ++ occupied_entries (alter f p d).
Proof.
  revert p. induction d as [|x d IH]; intros [|p] Hp; simpl in *; try done.
  - injection Hp as ->. rewrite !occupied_entries_cons, !app_assoc.
    by rewrite (comm (++) (own (f e))).
  - rewrite !occupied_entries_cons, !app_assoc.
    rewrite (comm (++) (own (f e))), (comm (++) (own e)), <- !app_assoc.
    by rewrite (IH p Hp).
Qed.

Lemma occupied_entries_alter_same d p f :
  (∀ e, binding (f e) = binding e) →
  occupied_entries (alter f p d) = occupied_entries d.
Proof.
  intros Hf. revert p. induction d as [|x d IH]; intros [|p]; simpl; [done..| |].
  - rewrite !occupied_entries_cons. f_equal.
    unfold own, wasm_hash_entry_is_free. by rewrite Hf.
  - rewrite !occupied_entries_cons. f_equal. apply IH.
Qed.

Lemma store_bindings_same h p f h' :
  store h p f = Some h' → (∀ e, binding (f e) = binding e) →
  occupied_bindings h' = occupied_bindings h.
Proof.
  intros [_ ->]%store_inv Hf. unfold occupied_bindings; simpl.
  by apply occupied_entries_alter_same.
Qed.

Lemma store_if_bindings_same h q f h' :
  store_if h q f = Some h' → (∀ e, binding (f e) = binding e) →
  occupied_bindings h' = occupied_bindings h.
Proof.
  destruct q; simpl; [apply store_bindings_same|]. by intros [= ->].
Qed.

Lemma store_bindings h p f h' e :
  store h p f = Some h' → load h p = Some e →
  own (f e) ++ occupied_bindings h ≡ₚ own e ++ occupied_bindings h'.
Proof.
  intros [_ ->]%store_inv He. unfold occupied_bindings; simpl.
  by apply occupied_entries_alter.
Qed.

Lemma elem_of_occupied_bindings h b :
  b ∈ occupied_bindings h ↔
  ∃ s e, load h s = Some e ∧ wasm_hash_entry_is_free e = false ∧ binding e = b.
Proof.
  unfold occupied_bindings, occupied_entries, load.
  rewrite list_elem_of_fmap. split.
  - intros (e & -> & [Hf [s Hs]%list_elem_of_lookup_1]%list_elem_of_filter). eauto.
  - intros (s & e & Hs & Hf & <-). exists e. split; [done|].
    apply list_elem_of_filter. split; [done|]. by eapply list_elem_of_lookup_2.
Qed.

(** ** A new entry whose main slot is free *)

Lemma new_entry_free_exec h fl chain nm m e :
  wf h fl chain → valid_name nm →
  wasm_hash_main_entry h nm = Some m → load h m = Some e →
  wasm_hash_entry_is_free e = true →
  ∃ h', wasm_hash_new_entry h nm = Some (m, h') ∧
    capacity (entries h') = capacity (entries h) ∧
    length (data (entries h')) = length (data (entries h)) ∧
    size (entries h') = size (entries h) ∧
    free_head h' = (match prev e with Some _ => free_head h | None => next e end) ∧
    load h' m = Some (new_entry_val nm) ∧
    (∀ n, next e = Some n → load h' n = set_prev (prev e) <$> load h n) ∧
    (∀ p, prev e = Some p → load h' p = set_next (next e) <$> load h p) ∧
    (∀ s, s ≠ m → next e ≠ Some s → prev e ≠ Some s → load h' s = load h s) ∧
    occupied_bindings h' ≡ₚ new_binding nm :: occupied_bindings h.
Proof.
  intros Hwf Hv Hm He Hf.
  destruct (free_list_entry Hwf _ _ He Hf) as (k & Hk & Hn & Hp).
  pose proof (wf_fl_nodup _ _ _ Hwf) as Hnd.
  assert (next e ≠ Some m) as Hnm.
  { rewrite Hn. intros Hx. pose proof (NoDup_lookup _ _ _ _ Hnd Hk Hx). lia. }
  assert (prev e ≠ Some m) as Hpm.
  { rewrite Hp. destruct k as [|j]; [done|]. intros Hx.
    pose proof (NoDup_lookup _ _ _ _ Hnd Hk Hx). lia. }
  assert (∀ s, next e = Some s → prev e ≠ Some s) as Hnp.
  { intros s. rewrite Hn, Hp. destruct k as [|j]; [done|]. intros Hx Hy.
    pose proof (NoDup_lookup _ _ _ _ Hnd Hx Hy). lia. }
  assert (∀ s, s ∈ fl → s < length (data (entries h))) as Hlt.
  { intros s [i Hi]%list_elem_of_lookup_1.
    destruct (free_list_free Hwf _ _ Hi) as (es & Hes & _).
    by apply lookup_lt_Some in Hes. }
  unfold wasm_hash_new_entry. rewrite Hm. simpl. rewrite He. simpl. rewrite Hf. simpl.
  destruct (store_if_total h (next e) (set_prev (prev e)))
    as (h1 & Hst1 & Hl1 & Hc1 & Hlen1 & Hs1 & Hfh1).
  { intros q. rewrite Hn. intros Hq. eapply Hlt, list_elem_of_lookup_2, Hq. }
  rewrite Hst1. simpl.
  assert (load h1 m = Some e) as He1.
  { rewrite Hl1. by case_decide. }
  rewrite He1. simpl.
  assert (∃ h2,
    match prev e with
    | Some p => store h1 p (set_next (next e))
    | None => Some (with_free_head h1 (next e))
    end = Some h2 ∧
    (∀ s, load h2 s = if decide (prev e = Some s)
                      then set_next (next e) <$> load h1 s else load h1 s) ∧
    capacity (entries h2) = capacity (entries h1) ∧
    length (data (entries h2)) = length (data (entries h1)) ∧
    size (entries h2) = size (entries h1) ∧
    free_head h2 = (match prev e with Some _ => free_head h | None => next e end) ∧
    occupied_bindings h2 = occupied_bindings h1)
    as (h2 & Hst2 & Hl2 & Hc2 & Hlen2 & Hs2 & Hfh2 & Hb2).
  { destruct (prev e) as [p|] eqn:Hpe.
    - destruct (store_total h1 p (set_next (next e)))
        as (h2 & Hst2 & Hl2 & ? & ? & ? & ?).
      { rewrite Hlen1. destruct k as [|j]; [done|].
        symmetry in Hp. eapply Hlt, list_elem_of_lookup_2, Hp. }
      exists h2. split; [done|]. split.
      { intros s. rewrite Hl2. repeat case_decide; congruence. }
      repeat split; try congruence.
      by apply (store_bindings_same _ _ _ _ Hst2).
    - eexists. split; [done|]. repeat split; done. }
  rewrite Hst2. simpl.
  assert (m < length (data (entries h))) as Hmlt by (by apply lookup_lt_Some in He).
  destruct (store_total h2 m (set_next None)) as (h3 & Hst3 & Hl3 & Hc3 & Hlen3 & Hs3 & Hfh3);
    [lia|].
  rewrite Hst3. simpl.
  destruct (store_total h3 m (set_binding {| name := nm; index := 0 |}))
    as (h4 & Hst4 & Hl4 & Hc4 & Hlen4 & Hs4 & Hfh4); [lia|].
  rewrite Hst4. simpl.
  destruct (store_total h4 m (set_prev None)) as (h5 & Hst5 & Hl5 & Hc5 & Hlen5 & Hs5 & Hfh5);
    [lia|].
  rewrite Hst5. simpl.
  assert (load h2 m = Some e) as He2.
  { rewrite Hl2. by case_decide. }
  exists h5. split; [done|]. repeat split; try congruence.
  - rewrite Hl5, Hl4, Hl3, He2. by rewrite !decide_True by done.
  - intros n Hne. rewrite Hl5, Hl4, Hl3, Hl2, Hl1.
    rewrite !(decide_False (P := m = n)) by congruence.
    rewrite decide_False by (by apply Hnp).
    by rewrite decide_True by done.
  - intros p Hpe. rewrite Hl5, Hl4, Hl3, Hl2, Hl1.
    rewrite !(decide_False (P := m = p)) by congruence.
    rewrite decide_True by done.
    rewrite decide_False; [done|]. intros Hx. by apply (Hnp p).
  - intros s H1 H2 H3. rewrite Hl5, Hl4, Hl3, Hl2, Hl1.
    rewrite !(decide_False (P := m = s)) by congruence.
    by rewrite !decide_False by done.
  - assert (load h3 m = Some (set_next None e)) as He3.
    { rewrite Hl3, He2. by rewrite decide_True by done. }
    pose proof (store_bindings _ _ _ _ _ Hst4 He3) as Hb.
    unfold own, wasm_hash_entry_is_free in Hb, Hf. simpl in Hb.
    rewrite Hf in Hb. destruct Hv as [bs Hbs]. rewrite Hbs in Hb. simpl in Hb.
    rewrite (store_bindings_same _ _ _ _ Hst5) by done. rewrite <- Hb.
    rewrite (store_bindings_same _ _ _ _ Hst3) by done. rewrite Hb2.
    by rewrite (store_if_bindings_same _ _ _ _ Hst1).
Qed.

Lemma delete_lookup_other {A} (l : list A) k i x :
  l !! i = Some x → i ≠ k → ∃ j, delete k l !! j = Some x.
Proof.
  intros Hi Hne. destruct (decide (i < k)).
  - exists i. by rewrite list_lookup_delete_lt.
  - exists (pred i). rewrite list_lookup_delete_ge by lia.
    by replace (S (pred i)) with i by lia.
Qed.

Lemma new_entry_free h fl chain nm m e :
  wf h fl chain → valid_name nm →
  wasm_hash_main_entry h nm = Some m → load h m = Some e →
  wasm_hash_entry_is_free e = true →
  ∃ h' fl' chain', wasm_hash_new_entry h nm = Some (m, h') ∧
    wf h' fl' chain' ∧ length fl = S (length fl') ∧
    capacity (entries h') = capacity (entries h) ∧
    size (entries h') = size (entries h) ∧
    load h' m = Some (new_entry_val nm) ∧
    occupied_bindings h' ≡ₚ new_binding nm :: occupied_bindings h ∧
    keeps_main h h' m.
Proof.
  intros Hwf Hv Hm He Hf.
  destruct (new_entry_free_exec h fl chain nm m e Hwf Hv Hm He Hf)
    as (h' & Hex & Hc & Hlen & Hsz & Hfh & Hlm & Hln & Hlp & Hlo & Hb).
  destruct (free_list_entry Hwf _ _ He Hf) as (k & Hk & Hn & Hp).
  pose proof (wf_fl_nodup _ _ _ Hwf) as Hnd.
  assert (∀ i, fl !! i = Some m → i = k) as Hmk.
  { intros i Hi. eapply NoDup_lookup; eauto. }
  assert (∀ x, m ∉ chain x) as Hnotin.
  { intros x Hx. destruct (chain_entry_main Hwf _ _ _ Hx He). congruence. }
  assert (wasm_hash_entry_is_free (new_entry_val nm) = false) as Hnewocc.
  { by apply is_free_false_valid. }
  (* what the other slots hold afterwards *)
  assert (∀ s es, s ≠ m → load h s = Some es →
    ∃ es', load h' s = Some es' ∧ binding es' = binding es ∧
      next es' = (if decide (prev e = Some s) then next e else next es) ∧
      prev es' = (if decide (next e = Some s) then prev e else prev es)) as Hother.
  { intros s es Hsm Hes.
    destruct (decide (next e = Some s)) as [Hns|Hns].
    { rewrite (Hln _ Hns), Hes. eexists. split; [done|]. simpl.
      rewrite decide_False; [done|]. intros Hx.
      rewrite Hn in Hns. rewrite Hp in Hx. destruct k as [|j]; [done|].
      pose proof (NoDup_lookup _ _ _ _ Hnd Hns Hx). lia. }
    destruct (decide (prev e = Some s)) as [Hps|Hps].
    { rewrite (Hlp _ Hps), Hes. eexists. split; [done|]. done. }
    rewrite (Hlo _ Hsm Hns Hps), Hes. eauto. }
  assert (∀ s e', s ≠ m → load h' s = Some e' →
    ∃ es, load h s = Some es ∧ binding e' = binding es) as Hback.
  { intros s e' Hsm He'.
    assert (is_Some (load h s)) as [es Hes].
    { apply lookup_lt_is_Some. rewrite <- Hlen. by apply lookup_lt_Some in He'. }
    destruct (Hother s es Hsm Hes) as (es' & Hes' & Hbe & _).
    exists es. split; [done|]. congruence. }
  exists h', (delete k fl), (λ x, if decide (x = m) then [m] else chain x).
  split; [done|]. split; [|split; [|split; [done|split; [done|split; [done|split; [done|]]]]]].
  - split.
    + rewrite Hc, Hlen. apply Hwf.
    + rewrite Hc. apply Hwf.
    + eapply sublist_NoDup; [done|apply sublist_delete].
    + rewrite Hfh, head_lookup, Hp. destruct k as [|j].
      * rewrite Hn. by rewrite list_lookup_delete_ge by lia.
      * assert (is_Some (fl !! j)) as [pj Hpj].
        { apply lookup_lt_is_Some. apply lookup_lt_Some in Hk. lia. }
        rewrite Hpj, (wf_fl_head _ _ _ Hwf), head_lookup.
        by rewrite list_lookup_delete_lt by lia.
    + intros i s Hi.
      assert (∃ i0, fl !! i0 = Some s ∧ (i0 < k ∧ i = i0 ∨ k < i0 ∧ i0 = S i))
        as (i0 & Hi0 & Hcase).
      { destruct (decide (i < k)).
        - rewrite list_lookup_delete_lt in Hi by done. exists i. split; [done|]. lia.
        - rewrite list_lookup_delete_ge in Hi by lia. exists (S i). split; [done|]. lia. }
      assert (s ≠ m) as Hsm.
      { intros ->. pose proof (Hmk _ Hi0). lia. }
      destruct (wf_fl_link _ _ _ Hwf _ _ Hi0) as (es & Hes & Hfs & Hns & Hps).
      destruct (Hother s es Hsm Hes) as (es' & Hes' & Hbe & Hne' & Hpe').
      exists es'. split; [done|]. split.
      { unfold wasm_hash_entry_is_free in *. by rewrite Hbe. }
      split.
      * rewrite Hne'. destruct (decide (prev e = Some s)) as [Hd|Hd].
        -- rewrite Hp in Hd. destruct k as [|j]; [done|].
           pose proof (NoDup_lookup _ _ _ _ Hnd Hi0 Hd). subst i0.
           assert (i = j) as -> by lia. rewrite Hn.
           by rewrite list_lookup_delete_ge by lia.
        -- rewrite Hns. destruct Hcase as [[Hlt ->]|[Hlt ->]].
           ++ destruct (decide (S i0 = k)) as [<-|].
              { exfalso. apply Hd. by rewrite Hp. }
              by rewrite list_lookup_delete_lt by lia.
           ++ by rewrite list_lookup_delete_ge by lia.
      * rewrite Hpe'. destruct (decide (next e = Some s)) as [Hd|Hd].
        -- rewrite Hn in Hd.
           pose proof (NoDup_lookup _ _ _ _ Hnd Hi0 Hd). subst i0.
           assert (i = k) as -> by lia. rewrite Hp.
           destruct k as [|j]; [done|]. by rewrite list_lookup_delete_lt by lia.
        -- rewrite Hps. destruct Hcase as [[Hlt ->]|[Hlt ->]].
           ++ destruct i0 as [|j]; [done|]. by rewrite list_lookup_delete_lt by lia.
           ++ destruct (decide (i = k)) as [->|].
              { exfalso. apply Hd. by rewrite Hn. }
              destruct i as [|j]; [lia|].
              by rewrite list_lookup_delete_ge by lia.
    + intros s e' He' Hfe'.
      assert (s ≠ m) as Hsm by (intros ->; congruence).
      destruct (Hback s e' Hsm He') as (es & Hes & Hbe).
      assert (s ∈ fl) as [i Hi]%list_elem_of_lookup_1.
      { eapply (wf_fl_all _ _ _ Hwf); [done|].
        unfold wasm_hash_entry_is_free in *. by rewrite <- Hbe. }
      destruct (delete_lookup_other fl k i s Hi) as [j Hj].
      { intros ->. apply Hsm. congruence. }
      by eapply list_elem_of_lookup_2.
    + intros x. case_decide; [apply NoDup_singleton|apply Hwf].
    + intros x s. case_decide; [|apply Hwf]. subst x. by intros [= <-].
    + intros x i s. case_decide as Hx.
      * subst x. destruct i as [|i]; [|done]. intros [= <-].
        exists (new_entry_val nm). split; [done|]. split; [done|]. split; [|done].
        simpl. rewrite <- Hm. by apply main_entry_cap.
      * intros Hi. destruct (wf_ch_link _ _ _ Hwf _ _ _ Hi) as (es & Hes & Hfs & Hms & Hns).
        assert (s ≠ m) as Hsm.
        { intros ->. eapply Hnotin, list_elem_of_lookup_2, Hi. }
        assert (s ∉ fl) as Hsfl.
        { intros [j Hj]%list_elem_of_lookup_1.
          destruct (free_list_free Hwf _ _ Hj) as (? & ? & ?). congruence. }
        destruct (Hother s es Hsm Hes) as (es' & Hes' & Hbe & Hne' & Hpe').
        exists es'. split; [done|]. split.
        { unfold wasm_hash_entry_is_free in *. by rewrite Hbe. }
        split.
        { rewrite Hbe, <- Hms. by apply main_entry_cap. }
        rewrite Hne'. rewrite decide_False; [done|].
        rewrite Hp. destruct k as [|j]; [done|]. intros Hx'.
        eapply Hsfl, list_elem_of_lookup_2, Hx'.
    + intros s e' He' Hfe'. destruct (decide (s = m)) as [->|Hsm].
      * exists m. rewrite decide_True by done. split; [|apply list_elem_of_here].
        rewrite Hlm in He'. injection He' as <-. simpl.
        rewrite <- Hm. by apply main_entry_cap.
      * destruct (Hback s e' Hsm He') as (es & Hes & Hbe).
        assert (wasm_hash_entry_is_free es = false) as Hfs.
        { unfold wasm_hash_entry_is_free in *. by rewrite <- Hbe. }
        destruct (wf_ch_all _ _ _ Hwf _ _ Hes Hfs) as (x & Hx & Hin).
        exists x. split.
        { rewrite Hbe, <- Hx. by apply main_entry_cap. }
        rewrite decide_False; [done|]. intros ->.
        apply (Hnotin m). eapply list_elem_of_lookup_2, (chain_head Hwf), Hin.
  - rewrite length_delete by eauto. apply lookup_lt_Some in Hk. lia.
  - intros s es Hes Hfs Hms.
    assert (s ≠ m) as Hsm by (intros ->; congruence).
    destruct (Hother s es Hsm Hes) as (es' & Hes' & Hbe & _). split; [done|]. eauto.
Qed.

(** ** A new entry chained behind the occupant of its main slot *)

Lemma new_entry_chain_exec h fl chain nm m e f :
  wf h fl chain → valid_name nm →
  wasm_hash_main_entry h nm = Some m → load h m = Some e →
  wasm_hash_entry_is_free e = false →
  wasm_hash_main_entry h (name (binding e)) = Some m →
  free_head h = Some f →
  ∃ h' fe, load h f = Some fe ∧ wasm_hash_new_entry h nm = Some (f, h') ∧
    capacity (entries h') = capacity (entries h) ∧
    length (data (entries h')) = length (data (entries h)) ∧
    size (entries h') = size (entries h) ∧
    free_head h' = next fe ∧
    load h' f = Some {| binding := new_binding nm; next := next e; prev := None |} ∧
    load h' m = Some (set_next (Some f) e) ∧
    (∀ r, next fe = Some r → load h' r = set_prev None <$> load h r) ∧
    (∀ s, s ≠ f → s ≠ m → next fe ≠ Some s → load h' s = load h s) ∧
    occupied_bindings h' ≡ₚ new_binding nm :: occupied_bindings h.
Proof.
  intros Hwf Hv Hm He Hf Hmain Hfh.
  pose proof (wf_fl_nodup _ _ _ Hwf) as Hnd.
  assert (fl !! 0 = Some f) as Hf0.
  { rewrite <- head_lookup, <- (wf_fl_head _ _ _ Hwf). done. }
  destruct (wf_fl_link _ _ _ Hwf _ _ Hf0) as (fe & Hfe & Hffree & Hfn & Hfp).
  assert (f ≠ m) as Hfm by (intros ->; congruence).
  assert (∀ r, next fe = Some r →
            r ≠ f ∧ r ≠ m ∧ r < length (data (entries h))) as Hr.
  { intros r Hx. rewrite Hfn in Hx.
    destruct (wf_fl_link _ _ _ Hwf _ _ Hx) as (re & Hre & Hrfree & _).
    split; [|split].
    - intros ->. pose proof (NoDup_lookup _ _ _ _ Hnd Hf0 Hx). lia.
    - intros ->. congruence.
    - by apply lookup_lt_Some in Hre. }
  assert (f < length (data (entries h))) as Hflt by (by apply lookup_lt_Some in Hfe).
  assert (m < length (data (entries h))) as Hmlt by (by apply lookup_lt_Some in He).
  unfold wasm_hash_new_entry. rewrite Hm. simpl. rewrite He. simpl. rewrite Hf. simpl.
  rewrite Hfh. simpl. rewrite Hfe. simpl.
  destruct (store_if_total (with_free_head h (next fe)) (next fe) (set_prev None))
    as (h1 & Hst1 & Hl1 & Hc1 & Hlen1 & Hs1 & Hfh1).
  { intros r Hx. by apply Hr. }
  rewrite Hst1. simpl.
  change (load (with_free_head h (next fe))) with (load h) in Hl1.
  simpl in Hc1, Hlen1, Hs1, Hfh1.
  assert (load h1 m = Some e) as He1.
  { rewrite Hl1. rewrite decide_False; [done|]. intros Hx. destruct (Hr _ Hx) as (? & ? & _). done. }
  rewrite He1. simpl.
  rewrite (main_entry_cap h1 h) by done. rewrite Hmain. simpl.
  rewrite decide_True by done.
  destruct (store_total h1 f (set_next (next e))) as (h2 & Hst2 & Hl2 & Hc2 & Hlen2 & Hs2 & Hfh2);
    [lia|].
  rewrite Hst2. simpl.
  destruct (store_total h2 m (set_next (Some f))) as (h3 & Hst3 & Hl3 & Hc3 & Hlen3 & Hs3 & Hfh3);
    [lia|].
  rewrite Hst3. simpl.
  destruct (store_total h3 f (set_binding {| name := nm; index := 0 |}))
    as (h4 & Hst4 & Hl4 & Hc4 & Hlen4 & Hs4 & Hfh4); [lia|].
  rewrite Hst4. simpl.
  destruct (store_total h4 f (set_prev None)) as (h5 & Hst5 & Hl5 & Hc5 & Hlen5 & Hs5 & Hfh5);
    [lia|].
  rewrite Hst5. simpl.
  assert (load h1 f = Some fe) as Hfe1.
  { rewrite Hl1. rewrite decide_False; [done|]. intros Hx. destruct (Hr _ Hx) as (? & ? & _). done. }
  assert (load h3 f = Some (set_next (next e) fe)) as Hfe3.
  { rewrite Hl3, Hl2, Hfe1. rewrite decide_False by done. by rewrite decide_True by done. }
  exists h5, fe. split; [done|]. split; [done|]. repeat split; try congruence.
  - rewrite Hl5, Hl4, Hfe3. by rewrite !decide_True by done.
  - rewrite Hl5, Hl4, Hl3, Hl2, He1. rewrite !(decide_False (P := f = m)) by done.
    by rewrite decide_True by done.
  - intros r Hx. destruct (Hr r Hx) as (? & ? & _).
    rewrite Hl5, Hl4, Hl3, Hl2, Hl1.
    rewrite !(decide_False (P := f = r)) by done.
    rewrite (decide_False (P := m = r)) by done.
    by rewrite decide_True by done.
  - intros s H1 H2 H3. rewrite Hl5, Hl4, Hl3, Hl2, Hl1.
    rewrite !(decide_False (P := f = s)) by done.
    rewrite (decide_False (P := m = s)) by done.
    by rewrite decide_False by done.
  - pose proof (store_bindings _ _ _ _ _ Hst4 Hfe3) as Hb.
    unfold own, wasm_hash_entry_is_free in Hb, Hffree. simpl in Hb.
    rewrite Hffree in Hb. destruct Hv as [bs Hbs]. rewrite Hbs in Hb. simpl in Hb.
    rewrite (store_bindings_same _ _ _ _ Hst5) by done. rewrite <- Hb.
    rewrite (store_bindings_same _ _ _ _ Hst3) by done.
    rewrite (store_bindings_same _ _ _ _ Hst2) by done.
    by rewrite (store_if_bindings_same _ _ _ _ Hst1).
Qed.

Lemma new_entry_chain h fl chain nm m e :
  wf h fl chain → valid_name nm →
  wasm_hash_main_entry h nm = Some m → load h m = Some e →
  wasm_hash_entry_is_free e = false →
  wasm_hash_main_entry h (name (binding e)) = Some m →
  fl ≠ [] →
  ∃ p h' fl' chain', wasm_hash_new_entry h nm = Some (p, h') ∧
    wf h' fl' chain' ∧ length fl = S (length fl') ∧
    capacity (entries h') = capacity (entries h) ∧
    size (entries h') = size (entries h) ∧
    (∃ e', load h' p = Some e' ∧ binding e' = new_binding nm) ∧
    occupied_bindings h' ≡ₚ new_binding nm :: occupied_bindings h ∧
    keeps_main h h' p.
Proof.
  intros Hwf Hv Hm He Hf Hmain Hne.
  destruct fl as [|f rest] eqn:Hfl; [done|]. clear Hne.
  pose proof (wf_fl_head _ _ _ Hwf) as Hfh. simpl in Hfh.
  destruct (new_entry_chain_exec h _ chain nm m e f Hwf Hv Hm He Hf Hmain Hfh)
    as (h' & fe & Hfe & Hex & Hc & Hlen & Hsz & Hfh' & Hlf & Hlm & Hlr & Hlo & Hb).
  pose proof (wf_fl_nodup _ _ _ Hwf) as Hnd.
  apply NoDup_cons in Hnd as [Hfrest Hndrest].
  destruct (wf_fl_link _ _ _ Hwf 0 f eq_refl) as (fe' & Hfe' & Hffree & Hfn & _).
  rewrite Hfe in Hfe'. injection Hfe' as <-. simpl in Hfn.
  assert (f ≠ m) as Hfm by (intros ->; congruence).
  assert (∀ x s, s ∈ chain x → ∃ es, load h s = Some es ∧
            wasm_hash_entry_is_free es = false ∧
            wasm_hash_main_entry h (name (binding es)) = Some x) as Hch.
  { intros x s [i Hi]%list_elem_of_lookup_1.
    destruct (wf_ch_link _ _ _ Hwf _ _ _ Hi) as (es & ? & ? & ? & _). eauto. }
  assert (∀ x, f ∉ chain x) as Hfnotin.
  { intros x Hx. destruct (Hch _ _ Hx) as (es & ? & ? & _). congruence. }
  assert (∀ s, s ∈ rest → ∃ es, load h s = Some es ∧ wasm_hash_entry_is_free es = true)
    as Hrestfree.
  { intros s [i Hi]%list_elem_of_lookup_1.
    apply (free_list_free Hwf (S i)). done. }
  (* the chain of the main slot *)
  destruct (wf_ch_all _ _ _ Hwf _ _ He Hf) as (m' & Hm' & Hin).
  assert (m' = m) as -> by congruence.
  pose proof (chain_head Hwf _ _ Hin) as Hhead.
  destruct (chain m) as [|m0 rc] eqn:Hcm; [done|]. injection Hhead as ->.
  pose proof (wf_ch_nodup _ _ _ Hwf m) as Hndc. rewrite Hcm in Hndc.
  apply NoDup_cons in Hndc as [Hmrc Hndrc].
  assert (next e = rc !! 0) as Hnext.
  { pose proof (wf_ch_link _ _ _ Hwf m 0 m) as Hl. rewrite Hcm in Hl.
    destruct (Hl eq_refl) as (e0 & He0 & _ & _ & Hn0).
    rewrite He in He0. injection He0 as <-. exact Hn0. }
  assert (wasm_hash_entry_is_free
            {| binding := new_binding nm; next := next e; prev := None |} = false) as Hnewocc.
  { by apply is_free_false_valid. }
  assert (∀ s es, s ≠ f → s ≠ m → load h s = Some es →
    ∃ es', load h' s = Some es' ∧ binding es' = binding es ∧ next es' = next es ∧
      prev es' = (if decide (next fe = Some s) then None else prev es)) as Hother.
  { intros s es Hsf Hsm Hes. destruct (decide (next fe = Some s)) as [Hns|Hns].
    - rewrite (Hlr _ Hns), Hes. eexists. split; [done|]. done.
    - rewrite (Hlo _ Hsf Hsm Hns), Hes. eauto. }
  assert (∀ s e', s ≠ f → s ≠ m → load h' s = Some e' →
    ∃ es, load h s = Some es ∧ binding e' = binding es) as Hback.
  { intros s e' Hsf Hsm He'.
    assert (is_Some (load h s)) as [es Hes].
    { apply lookup_lt_is_Some. rewrite <- Hlen. by apply lookup_lt_Some in He'. }
    destruct (Hother s es Hsf Hsm Hes) as (es' & Hes' & Hbe & _).
    exists es. split; [done|]. congruence. }
  exists f, h', rest, (λ x, if decide (x = m) then m :: f :: rc else chain x).
  split; [done|]. split; [|split; [done|split; [done|split; [done|split; [|split; [done|]]]]]].
  - split.
    + rewrite Hc, Hlen. apply Hwf.
    + rewrite Hc. apply Hwf.
    + done.
    + rewrite Hfh', Hfn. by rewrite head_lookup.
    + intros i s Hi.
      assert (s ≠ f) as Hsf.
      { intros ->. eapply Hfrest, list_elem_of_lookup_2, Hi. }
      destruct (wf_fl_link _ _ _ Hwf (S i) s Hi) as (es & Hes & Hfs & Hns & Hps).
      assert (s ≠ m) as Hsm by (intros ->; congruence).
      destruct (Hother s es Hsf Hsm Hes) as (es' & Hes' & Hbe & Hne' & Hpe').
      exists es'. split; [done|]. split.
      { unfold wasm_hash_entry_is_free in *. by rewrite Hbe. }
      split; [by rewrite Hne', Hns|].
      rewrite Hpe', Hfn. simpl. destruct i as [|j].
      * by rewrite decide_True by done.
      * rewrite decide_False; [by rewrite Hps|]. intros Hx.
        pose proof (NoDup_lookup _ _ _ _ Hndrest Hi Hx). lia.
    + intros s e' He' Hfe'.
      assert (s ≠ f) as Hsf by (intros ->; congruence).
      assert (s ≠ m) as Hsm.
      { intros ->. rewrite Hlm in He'. injection He' as <-.
        unfold wasm_hash_entry_is_free in *. simpl in *. congruence. }
      destruct (Hback s e' Hsf Hsm He') as (es & Hes & Hbe).
      assert (s ∈ f :: rest) as Hin'.
      { eapply (wf_fl_all _ _ _ Hwf); [done|].
        unfold wasm_hash_entry_is_free in *. by rewrite <- Hbe. }
      apply elem_of_cons in Hin' as [?|?]; done.
    + intros x. case_decide; [|apply Hwf]. subst x.
      apply NoDup_cons. split.
      * intros [?|?]%elem_of_cons; [done|]. done.
      * apply NoDup_cons. split; [|done]. intros Hx. apply (Hfnotin m).
        rewrite Hcm. by apply list_elem_of_further.
    + intros x s. case_decide; [|apply Hwf]. subst x. by intros [= <-].
    + intros x i s. case_decide as Hx.
      * subst x. destruct i as [|[|j]]; simpl.
        -- intros [= <-]. eexists. split; [done|]. split; [done|]. split; [|done].
           simpl. rewrite <- Hmain. by apply main_entry_cap.
        -- intros [= <-]. eexists. split; [done|]. split; [done|]. split; [|done].
           simpl. rewrite <- Hm. by apply main_entry_cap.
        -- intros Hj.
           pose proof (wf_ch_link _ _ _ Hwf m (S j) s) as Hl. rewrite Hcm in Hl.
           destruct (Hl Hj) as (es & Hes & Hfs & Hms & Hns).
           assert (s ≠ m) as Hsm.
           { intros ->. eapply Hmrc, list_elem_of_lookup_2, Hj. }
           assert (s ≠ f) as Hsf by (intros ->; congruence).
           destruct (Hother s es Hsf Hsm Hes) as (es' & Hes' & Hbe & Hne' & _).
           exists es'. split; [done|]. split.
           { unfold wasm_hash_entry_is_free in *. by rewrite Hbe. }
           split; [|by rewrite Hne', Hns].
           rewrite Hbe, <- Hms. by apply main_entry_cap.
      * intros Hi. destruct (wf_ch_link _ _ _ Hwf _ _ _ Hi) as (es & Hes & Hfs & Hms & Hns).
        assert (s ≠ m) as Hsm by (intros ->; congruence).
        assert (s ≠ f) as Hsf by (intros ->; congruence).
        destruct (Hother s es Hsf Hsm Hes) as (es' & Hes' & Hbe & Hne' & _).
        exists es'. split; [done|]. split.
        { unfold wasm_hash_entry_is_free in *. by rewrite Hbe. }
        split; [|by rewrite Hne', Hns].
        rewrite Hbe, <- Hms. by apply main_entry_cap.
    + intros s e' He' Hfe'.
      destruct (decide (s = f)) as [->|Hsf].
      { exists m. rewrite decide_True by done. split.
        - rewrite Hlf in He'. injection He' as <-. simpl.
          rewrite <- Hm. by apply main_entry_cap.
        - apply list_elem_of_further, list_elem_of_here. }
      destruct (decide (s = m)) as [->|Hsm].
      { exists m. rewrite decide_True by done. split; [|apply list_elem_of_here].
        rewrite Hlm in He'. injection He' as <-. simpl.
        rewrite <- Hmain. by apply main_entry_cap. }
      destruct (Hback s e' Hsf Hsm He') as (es & Hes & Hbe).
      assert (wasm_hash_entry_is_free es = false) as Hfs.
      { unfold wasm_hash_entry_is_free in *. by rewrite <- Hbe. }
      destruct (wf_ch_all _ _ _ Hwf _ _ Hes Hfs) as (x & Hx & Hin').
      exists x. split.
      { rewrite Hbe, <- Hx. by apply main_entry_cap. }
      case_decide; [|done]. subst x. rewrite Hcm in Hin'.
      apply elem_of_cons in Hin' as [?|?]; [done|].
      by do 2 apply list_elem_of_further.
  - eexists. split; [done|]. done.
  - intros s es Hes Hfs Hms.
    assert (s ≠ f) as Hsf by (intros ->; congruence).
    split; [done|].
    destruct (decide (s = m)) as [->|Hsm].
    + rewrite Hlm. eexists. split; [done|]. simpl. congruence.
    + destruct (Hother s es Hsf Hsm Hes) as (es' & Hes' & Hbe & _). eauto.
Qed.

(** ** A new entry that displaces the occupant of its main slot *)

Lemma walk_chain h c m p k fuel i s :
  NoDup c → c !! k = Some m → c !! (k - 1) = Some p →
  (∀ j sj, j < k → c !! j = Some sj → ∃ es, load h sj = Some es ∧ next es = c !! S j) →
  c !! i = Some s → i < k → k ≤ fuel + i →
  walk_to_predecessor fuel h s m = Some p.
Proof.
  intros Hnd Hk Hp Hlink. revert i s.
  induction fuel as [|fuel IH]; intros i s Hi Hik Hfuel; [lia|].
  destruct (Hlink i s Hik Hi) as (es & Hes & Hn).
  simpl. rewrite Hes. simpl.
  destruct (decide (S i = k)) as [<-|Hne].
  - rewrite Hn, Hk. rewrite decide_True by done.
    replace (S i - 1) with i in Hp by lia. congruence.
  - assert (is_Some (c !! S i)) as [s2 Hs2].
    { apply lookup_lt_is_Some. apply lookup_lt_Some in Hk. lia. }
    rewrite Hn, Hs2. rewrite decide_False.
    + simpl. apply (IH (S i)); [done|lia|lia].
    + intros [= ->]. pose proof (NoDup_lookup _ _ _ _ Hnd Hk Hs2). lia.
Qed.

Lemma new_entry_move_exec h fl chain nm m e o f :
  wf h fl chain → valid_name nm →
  wasm_hash_main_entry h nm = Some m → load h m = Some e →
  wasm_hash_entry_is_free e = false →
  wasm_hash_main_entry h (name (binding e)) = Some o → o ≠ m →
  free_head h = Some f →
  ∃ h' fe k p, load h f = Some fe ∧ chain o !! S k = Some m ∧ chain o !! k = Some p ∧
    wasm_hash_new_entry h nm = Some (m, h') ∧
    capacity (entries h') = capacity (entries h) ∧
    length (data (entries h')) = length (data (entries h)) ∧
    size (entries h') = size (entries h) ∧
    free_head h' = next fe ∧
    load h' m = Some (new_entry_val nm) ∧
    load h' f = Some e ∧
    load h' p = set_next (Some f) <$> load h p ∧
    (∀ r, next fe = Some r → load h' r = set_prev None <$> load h r) ∧
    (∀ s, s ≠ f → s ≠ m → s ≠ p → next fe ≠ Some s → load h' s = load h s) ∧
    occupied_bindings h' ≡ₚ new_binding nm :: occupied_bindings h.
Proof.
  intros Hwf Hv Hm He Hf Hmain Hom Hfh.
  pose proof (wf_fl_nodup _ _ _ Hwf) as Hnd.
  assert (fl !! 0 = Some f) as Hf0.
  { rewrite <- head_lookup, <- (wf_fl_head _ _ _ Hwf). done. }
  destruct (wf_fl_link _ _ _ Hwf _ _ Hf0) as (fe & Hfe & Hffree & Hfn & Hfp).
  assert (f ≠ m) as Hfm by (intros ->; congruence).
  assert (∀ r, next fe = Some r →
            r ≠ f ∧ r ≠ m ∧ r < length (data (entries h)) ∧
            ∃ re, load h r = Some re ∧ wasm_hash_entry_is_free re = true) as Hr.
  { intros r Hx. rewrite Hfn in Hx.
    destruct (wf_fl_link _ _ _ Hwf _ _ Hx) as (re & Hre & Hrfree & _).
    split; [|split; [|split]].
    - intros ->. pose proof (NoDup_lookup _ _ _ _ Hnd Hf0 Hx). lia.
    - intros ->. congruence.
    - by apply lookup_lt_Some in Hre.
    - eauto. }
  assert (f < length (data (entries h))) as Hflt by (by apply lookup_lt_Some in Hfe).
  assert (m < length (data (entries h))) as Hmlt by (by apply lookup_lt_Some in He).
  (* the position of the occupant on the chain of its own main slot *)
  destruct (wf_ch_all _ _ _ Hwf _ _ He Hf) as (o' & Ho' & Hin).
  assert (o' = o) as -> by congruence.
  pose proof (chain_head Hwf _ _ Hin) as Hhead.
  apply list_elem_of_lookup_1 in Hin as [k0 Hk0].
  destruct k0 as [|k]; [congruence|].
  assert (is_Some (chain o !! k)) as [p Hp].
  { apply lookup_lt_is_Some. apply lookup_lt_Some in Hk0. lia. }
  pose proof (wf_ch_nodup _ _ _ Hwf o) as Hndc.
  assert (p ≠ m) as Hpm.
  { intros ->. pose proof (NoDup_lookup _ _ _ _ Hndc Hk0 Hp). lia. }
  assert (∀ j sj, chain o !! j = Some sj →
            ∃ es, load h sj = Some es ∧ wasm_hash_entry_is_free es = false ∧
                  next es = chain o !! S j ∧ sj ≠ f ∧ next fe ≠ Some sj) as Hlink.
  { intros j sj Hj. destruct (wf_ch_link _ _ _ Hwf _ _ _ Hj) as (es & Hes & Hfs & _ & Hns).
    exists es. repeat split; try done.
    - intros ->. congruence.
    - intros Hx. destruct (Hr _ Hx) as (_ & _ & _ & re & Hre & Hrf). congruence. }
  destruct (Hlink _ _ Hp) as (pe & Hpe & Hpf & Hpn & Hpf' & Hpr).
  destruct (Hlink _ _ Hhead) as (oe & Hoe & Hof & _ & Hof' & Hor).
  assert (p < length (data (entries h))) as Hplt by (by apply lookup_lt_Some in Hpe).
  unfold wasm_hash_new_entry. rewrite Hm. simpl. rewrite He. simpl. rewrite Hf. simpl.
  rewrite Hfh. simpl. rewrite Hfe. simpl.
  destruct (store_if_total (with_free_head h (next fe)) (next fe) (set_prev None))
    as (h1 & Hst1 & Hl1 & Hc1 & Hlen1 & Hs1 & Hfh1).
  { intros r Hx. by apply Hr. }
  rewrite Hst1. simpl.
  change (load (with_free_head h (next fe))) with (load h) in Hl1.
  simpl in Hc1, Hlen1, Hs1, Hfh1.
  assert (∀ s, next fe ≠ Some s → load h1 s = load h s) as Hl1'.
  { intros s Hs. rewrite Hl1. by rewrite decide_False by done. }
  assert (next fe ≠ Some m) as Hrm.
  { intros Hx. destruct (Hr _ Hx) as (? & ? & _). done. }
  assert (next fe ≠ Some f) as Hrf.
  { intros Hx. destruct (Hr _ Hx) as (? & ? & _). done. }
  rewrite (Hl1' m Hrm), He. simpl.
  rewrite (main_entry_cap h1 h) by done. rewrite Hmain. simpl.
  rewrite decide_False by done.
  rewrite (Hl1' o Hor), Hoe. simpl. rewrite Hof.
  rewrite (walk_chain h1 (chain o) m p (S k) (capacity (entries h1)) 0 o); cycle 1.
  { done. } { done. } { by replace (S k - 1) with k by lia. }
  { intros j sj _ Hj. destruct (Hlink _ _ Hj) as (es & Hes & _ & Hns & _ & Hsr).
    exists es. by rewrite (Hl1' _ Hsr). }
  { done. } { lia. }
  { rewrite Hc1. pose proof (chain_length Hwf o). apply lookup_lt_Some in Hk0. lia. }
  simpl.
  destruct (store_total h1 p (set_next (Some f))) as (h2 & Hst2 & Hl2 & Hc2 & Hlen2 & Hs2 & Hfh2);
    [lia|].
  rewrite Hst2. simpl.
  assert (load h2 m = Some e) as He2.
  { rewrite Hl2, (Hl1' m Hrm). by rewrite decide_False by done. }
  rewrite He2. simpl.
  destruct (store_total h2 f (λ _, e)) as (h3 & Hst3 & Hl3 & Hc3 & Hlen3 & Hs3 & Hfh3);
    [lia|].
  rewrite Hst3. simpl.
  destruct (store_total h3 m (set_next None)) as (h4 & Hst4 & Hl4 & Hc4 & Hlen4 & Hs4 & Hfh4);
    [lia|].
  rewrite Hst4. simpl.
  destruct (store_total h4 m (set_binding {| name := nm; index := 0 |}))
    as (h5 & Hst5 & Hl5 & Hc5 & Hlen5 & Hs5 & Hfh5); [lia|].
  rewrite Hst5. simpl.
  destruct (store_total h5 m (set_prev None)) as (h6 & Hst6 & Hl6 & Hc6 & Hlen6 & Hs6 & Hfh6);
    [lia|].
  rewrite Hst6. simpl.
  assert (load h2 f = Some fe) as Hfe2.
  { rewrite Hl2, (Hl1' f Hrf). by rewrite decide_False by done. }
  assert (load h4 m = Some (set_next None e)) as He4.
  { rewrite Hl4, decide_True by done. rewrite Hl3, decide_False by done. by rewrite He2. }
  exists h6, fe, k, p. repeat split; try congruence.
  - rewrite Hl6, Hl5, He4. by rewrite !decide_True by done.
  - rewrite Hl6, Hl5, Hl4, Hl3, Hfe2. rewrite !(decide_False (P := m = f)) by done.
    by rewrite decide_True by done.
  - rewrite Hl6, Hl5, Hl4, Hl3, Hl2, (Hl1' p Hpr).
    rewrite !(decide_False (P := m = p)) by done.
    rewrite (decide_False (P := f = p)) by done.
    by rewrite decide_True by done.
  - intros r Hx. destruct (Hr r Hx) as (? & ? & _ & re & Hre & Hrfree).
    assert (p ≠ r) by (intros ->; congruence).
    rewrite Hl6, Hl5, Hl4, Hl3, Hl2, Hl1.
    rewrite !(decide_False (P := m = r)) by done.
    rewrite (decide_False (P := f = r)) by done.
    rewrite (decide_False (P := p = r)) by done.
    by rewrite decide_True by done.
  - intros s H1 H2 H3 H4. rewrite Hl6, Hl5, Hl4, Hl3, Hl2, (Hl1' s H4).
    rewrite !(decide_False (P := m = s)) by done.
    rewrite (decide_False (P := f = s)) by done.
    by rewrite (decide_False (P := p = s)) by done.
  - pose proof (store_bindings _ _ _ _ _ Hst3 Hfe2) as Hb3.
    pose proof (store_bindings _ _ _ _ _ Hst5 He4) as Hb5.
    unfold own, wasm_hash_entry_is_free in Hb3, Hb5, Hffree, Hf. simpl in Hb3, Hb5.
    rewrite Hffree, Hf in Hb3. rewrite Hf in Hb5.
    destruct Hv as [bs Hbs]. rewrite Hbs in Hb5. simpl in Hb3, Hb5.
    rewrite (store_bindings_same _ _ _ _ Hst6) by done.
    rewrite (store_bindings_same _ _ _ _ Hst4) in Hb5 by done.
    rewrite (store_bindings_same _ _ _ _ Hst2) in Hb3 by done.
    rewrite (store_if_bindings_same _ _ _ _ Hst1) in Hb3 by done.
    change (occupied_bindings (with_free_head h (next fe))) with (occupied_bindings h) in Hb3.
    apply (Permutation_cons_inv (a := binding e)).
    rewrite <- Hb5, <- Hb3. apply perm_swap.
Qed.

Lemma NoDup_insert_fresh {A} (l : list A) i x :
  NoDup l → x ∉ l → NoDup (<[i:=x]> l).
Proof.
  intros Hnd Hx. apply NoDup_alt. intros j1 j2 y H1 H2.
  apply list_lookup_insert_Some in H1 as [(-> & -> & ?)|[? H1]];
    apply list_lookup_insert_Some in H2 as [(? & ? & ?)|[? H2]]; subst; try done.
  - exfalso. eapply Hx, list_elem_of_lookup_2, H2.
  - exfalso. eapply Hx, list_elem_of_lookup_2, H1.
  - eapply NoDup_lookup; eauto.
Qed.

Lemma new_entry_move h fl chain nm m e o :
  wf h fl chain → valid_name nm →
  wasm_hash_main_entry h nm = Some m → load h m = Some e →
  wasm_hash_entry_is_free e = false →
  wasm_hash_main_entry h (name (binding e)) = Some o → o ≠ m →
  fl ≠ [] →
  ∃ p h' fl' chain', wasm_hash_new_entry h nm = Some (p, h') ∧
    wf h' fl' chain' ∧ length fl = S (length fl') ∧
    capacity (entries h') = capacity (entries h) ∧
    size (entries h') = size (entries h) ∧
    (∃ e', load h' p = Some e' ∧ binding e' = new_binding nm) ∧
    occupied_bindings h' ≡ₚ new_binding nm :: occupied_bindings h ∧
    keeps_main h h' p.
Proof.
  intros Hwf Hv Hm He Hf Hmain Hom Hne.
  destruct fl as [|f rest] eqn:Hfl; [done|]. clear Hne.
  pose proof (wf_fl_head _ _ _ Hwf) as Hfh. simpl in Hfh.
  destruct (new_entry_move_exec h _ chain nm m e o f Hwf Hv Hm He Hf Hmain Hom Hfh)
    as (h' & fe & k & p & Hfe & Hkm & Hkp & Hex & Hc & Hlen & Hsz & Hfh'
        & Hlm & Hlf & Hlp & Hlr & Hlo & Hb).
  pose proof (wf_fl_nodup _ _ _ Hwf) as Hnd.
  apply NoDup_cons in Hnd as [Hfrest Hndrest].
  destruct (wf_fl_link _ _ _ Hwf 0 f eq_refl) as (fe' & Hfe' & Hffree & Hfn & _).
  rewrite Hfe in Hfe'. injection Hfe' as <-. simpl in Hfn.
  assert (f ≠ m) as Hfm by (intros ->; congruence).
  assert (∀ x s, s ∈ chain x → ∃ es, load h s = Some es ∧
            wasm_hash_entry_is_free es = false ∧
            wasm_hash_main_entry h (name (binding es)) = Some x) as Hch.
  { intros x s [i Hi]%list_elem_of_lookup_1.
    destruct (wf_ch_link _ _ _ Hwf _ _ _ Hi) as (es & ? & ? & ? & _). eauto. }
  assert (∀ x, f ∉ chain x) as Hfnotin.
  { intros x Hx. destruct (Hch _ _ Hx) as (es & ? & ? & _). congruence. }
  assert (∀ x, m ∈ chain x → x = o) as Hmchain.
  { intros x Hx. destruct (Hch _ _ Hx) as (es & ? & _ & ?). congruence. }
  assert (∀ x, p ∈ chain x → x = o) as Hpchain.
  { intros x Hx. destruct (Hch _ _ Hx) as (es & Hes & _ & Hms).
    destruct (wf_ch_link _ _ _ Hwf _ _ _ Hkp) as (es' & Hes' & _ & Hms' & _). congruence. }
  assert (∀ s, s ∉ chain m) as Hmempty.
  { intros s Hs. pose proof (chain_head Hwf _ _ Hs) as H0.
    apply Hom. symmetry. eapply Hmchain, list_elem_of_lookup_2, H0. }
  pose proof (wf_ch_nodup _ _ _ Hwf o) as Hndc.
  assert (p ≠ m) as Hpm.
  { intros ->. pose proof (NoDup_lookup _ _ _ _ Hndc Hkm Hkp). lia. }
  assert (p ≠ f) as Hpf.
  { intros ->. eapply Hfnotin, list_elem_of_lookup_2, Hkp. }
  assert (next fe ≠ Some p) as Hrp.
  { rewrite Hfn. intros Hx. destruct (free_list_free Hwf 1 p Hx) as (re & Hre & Hrf).
    destruct (wf_ch_link _ _ _ Hwf _ _ _ Hkp) as (es' & Hes' & ? & _). congruence. }
  assert (wasm_hash_entry_is_free (new_entry_val nm) = false) as Hnewocc.
  { by apply is_free_false_valid. }
  assert (∀ s es, s ≠ f → s ≠ m → load h s = Some es →
    ∃ es', load h' s = Some es' ∧ binding es' = binding es ∧
      next es' = (if decide (s = p) then Some f else next es) ∧
      prev es' = (if decide (next fe = Some s) then None else prev es)) as Hother.
  { intros s es Hsf Hsm Hes. destruct (decide (s = p)) as [->|Hsp].
    { rewrite Hlp, Hes. eexists. split; [done|]. simpl.
      by rewrite decide_False by done. }
    destruct (decide (next fe = Some s)) as [Hns|Hns].
    - rewrite (Hlr _ Hns), Hes. eexists. split; [done|]. done.
    - rewrite (Hlo _ Hsf Hsm Hsp Hns), Hes. eauto. }
  assert (∀ s e', s ≠ f → s ≠ m → load h' s = Some e' →
    ∃ es, load h s = Some es ∧ binding e' = binding es) as Hback.
  { intros s e' Hsf Hsm He'.
    assert (is_Some (load h s)) as [es Hes].
    { apply lookup_lt_is_Some. rewrite <- Hlen. by apply lookup_lt_Some in He'. }
    destruct (Hother s es Hsf Hsm Hes) as (es' & Hes' & Hbe & _).
    exists es. split; [done|]. congruence. }
  assert (S k < length (chain o)) as Hklen by (by apply lookup_lt_Some in Hkm).
  exists m, h', rest,
    (λ x, if decide (x = m) then [m]
          else if decide (x = o) then <[S k:=f]> (chain o) else chain x).
  split; [done|]. split; [|split; [done|split; [done|split; [done|split; [|split; [done|]]]]]].
  - split.
    + rewrite Hc, Hlen. apply Hwf.
    + rewrite Hc. apply Hwf.
    + done.
    + rewrite Hfh', Hfn. by rewrite head_lookup.
    + intros i s Hi.
      assert (s ≠ f) as Hsf.
      { intros ->. eapply Hfrest, list_elem_of_lookup_2, Hi. }
      destruct (wf_fl_link _ _ _ Hwf (S i) s Hi) as (es & Hes & Hfs & Hns & Hps).
      assert (s ≠ m) as Hsm by (intros ->; congruence).
      assert (s ≠ p) as Hsp.
      { intros ->. destruct (wf_ch_link _ _ _ Hwf _ _ _ Hkp) as (es' & Hes' & ? & _).
        congruence. }
      destruct (Hother s es Hsf Hsm Hes) as (es' & Hes' & Hbe & Hne' & Hpe').
      exists es'. split; [done|]. split.
      { unfold wasm_hash_entry_is_free in *. by rewrite Hbe. }
      rewrite decide_False in Hne' by done.
      split; [by rewrite Hne', Hns|].
      rewrite Hpe', Hfn. simpl. destruct i as [|j].
      * by rewrite decide_True by done.
      * rewrite decide_False; [by rewrite Hps|]. intros Hx.
        pose proof (NoDup_lookup _ _ _ _ Hndrest Hi Hx). lia.
    + intros s e' He' Hfe'.
      assert (s ≠ f) as Hsf by (intros ->; congruence).
      assert (s ≠ m) as Hsm by (intros ->; congruence).
      destruct (Hback s e' Hsf Hsm He') as (es & Hes & Hbe).
      assert (s ∈ f :: rest) as Hin'.
      { eapply (wf_fl_all _ _ _ Hwf); [done|].
        unfold wasm_hash_entry_is_free in *. by rewrite <- Hbe. }
      apply elem_of_cons in Hin' as [?|?]; done.
    + intros x. case_decide; [apply NoDup_singleton|].
      case_decide; [|apply Hwf]. subst x. by apply NoDup_insert_fresh.
    + intros x s. case_decide; [subst x; by intros [= <-]|].
      case_decide; [|apply Hwf]. subst x.
      rewrite list_lookup_insert_ne by done. apply Hwf.
    + intros x i s. case_decide as Hx; [|case_decide as Hxo].
      * subst x. destruct i as [|i]; [|done]. intros [= <-].
        exists (new_entry_val nm). split; [done|]. split; [done|]. split; [|done].
        simpl. rewrite <- Hm. by apply main_entry_cap.
      * subst x. intros [(<- & <- & _)|[Hik Hi]]%list_lookup_insert_Some.
        -- exists e. split; [done|]. split; [done|]. split.
           { rewrite <- Hmain. by apply main_entry_cap. }
           destruct (wf_ch_link _ _ _ Hwf _ _ _ Hkm) as (e0 & He0 & _ & _ & Hn0).
           rewrite He in He0. injection He0 as <-.
           by rewrite list_lookup_insert_ne by lia.
        -- destruct (wf_ch_link _ _ _ Hwf _ _ _ Hi) as (es & Hes & Hfs & Hms & Hns).
           assert (s ≠ m) as Hsm.
           { intros ->. pose proof (NoDup_lookup _ _ _ _ Hndc Hkm Hi). lia. }
           assert (s ≠ f) as Hsf by (intros ->; congruence).
           destruct (Hother s es Hsf Hsm Hes) as (es' & Hes' & Hbe & Hne' & _).
           exists es'. split; [done|]. split.
           { unfold wasm_hash_entry_is_free in *. by rewrite Hbe. }
           split; [rewrite Hbe, <- Hms; by apply main_entry_cap|].
           rewrite Hne'. case_decide as Hsp.
           ++ subst s. pose proof (NoDup_lookup _ _ _ _ Hndc Hkp Hi). subst i.
              by rewrite list_lookup_insert_eq by done.
           ++ rewrite Hns. rewrite list_lookup_insert_ne; [done|].
              intros [= <-]. congruence.
      * intros Hi. destruct (wf_ch_link _ _ _ Hwf _ _ _ Hi) as (es & Hes & Hfs & Hms & Hns).
        assert (s ≠ m) as Hsm.
        { intros ->. apply Hxo. eapply Hmchain, list_elem_of_lookup_2, Hi. }
        assert (s ≠ f) as Hsf by (intros ->; congruence).
        assert (s ≠ p) as Hsp.
        { intros ->. apply Hxo. eapply Hpchain, list_elem_of_lookup_2, Hi. }
        destruct (Hother s es Hsf Hsm Hes) as (es' & Hes' & Hbe & Hne' & _).
        exists es'. split; [done|]. split.
        { unfold wasm_hash_entry_is_free in *. by rewrite Hbe. }
        split; [rewrite Hbe, <- Hms; by apply main_entry_cap|].
        rewrite Hne'. by rewrite decide_False by done.
    + intros s e' He' Hfe'.
      destruct (decide (s = m)) as [->|Hsm].
      { exists m. rewrite decide_True by done. split; [|apply list_elem_of_here].
        rewrite Hlm in He'. injection He' as <-. simpl.
        rewrite <- Hm. by apply main_entry_cap. }
      destruct (decide (s = f)) as [->|Hsf].
      { exists o. rewrite decide_False by done. rewrite decide_True by done. split.
        - rewrite Hlf in He'. injection He' as <-.
          rewrite <- Hmain. by apply main_entry_cap.
        - by apply list_elem_of_insert. }
      destruct (Hback s e' Hsf Hsm He') as (es & Hes & Hbe).
      assert (wasm_hash_entry_is_free es = false) as Hfs.
      { unfold wasm_hash_entry_is_free in *. by rewrite <- Hbe. }
      destruct (wf_ch_all _ _ _ Hwf _ _ Hes Hfs) as (x & Hx & Hin').
      exists x. split.
      { rewrite Hbe, <- Hx. by apply main_entry_cap. }
      case_decide as Hxm; [subst x; by apply Hmempty in Hin'|].
      case_decide as Hxo; [|done]. subst x.
      apply list_elem_of_lookup_1 in Hin' as [j Hj].
      apply (list_elem_of_lookup_2 _ j). rewrite list_lookup_insert_ne; [done|].
      intros <-. congruence.
  - eexists. split; [done|]. done.
  - intros s es Hes Hfs Hms.
    assert (s ≠ f) as Hsf by (intros ->; congruence).
    assert (s ≠ m) as Hsm by (intros ->; congruence).
    destruct (Hother s es Hsf Hsm Hes) as (es' & Hes' & Hbe & _). split; [done|]. eauto.
Qed.

(** ** Every case of [wasm_hash_new_entry] *)

Lemma new_entry_spec h fl chain nm :
  wf h fl chain → valid_name nm → fl ≠ [] →
  ∃ p h' fl' chain', wasm_hash_new_entry h nm = Some (p, h') ∧
    wf h' fl' chain' ∧ length fl = S (length fl') ∧
    capacity (entries h') = capacity (entries h) ∧
    size (entries h') = size (entries h) ∧
    (∃ e', load h' p = Some e' ∧ binding e' = new_binding nm) ∧
    occupied_bindings h' ≡ₚ new_binding nm :: occupied_bindings h ∧
    keeps_main h h' p.
Proof.
  intros Hwf Hv Hne.
  destruct (main_entry_valid h nm (wf_pos _ _ _ Hwf) Hv) as (m & Hm & Hlt).
  destruct (load_is_Some h m (wf_cap _ _ _ Hwf) Hlt) as [e He].
  destruct (wasm_hash_entry_is_free e) eqn:Hf.
  - destruct (new_entry_free h fl chain nm m e Hwf Hv Hm He Hf)
      as (h' & fl' & chain' & ? & ? & ? & ? & ? & ? & ? & ?).
    exists m, h', fl', chain'. split_and!; try done. eauto.
  - destruct (wf_ch_all _ _ _ Hwf _ _ He Hf) as (o & Ho & _).
    destruct (decide (o = m)) as [->|Hom].
    + by eapply new_entry_chain.
    + by eapply new_entry_move.
Qed.

(** A store that keeps the name and the links of an entry keeps the table
    well formed: the caller's assignment of an index, the copy of a binding
    under the name the entry already has. *)
Lemma store_keep_name_wf h fl chain p e f h' :
  wf h fl chain → load h p = Some e →
  name (binding (f e)) = name (binding e) → next (f e) = next e → prev (f e) = prev e →
  store h p f = Some h' →
  wf h' fl chain ∧ load h' p = Some (f e) ∧
  (∀ s, s ≠ p → load h' s = load h s) ∧
  capacity (entries h') = capacity (entries h) ∧
  size (entries h') = size (entries h).
Proof.
  intros Hwf He Hb Hfn Hfp Hst.
  destruct (store_frame _ _ _ _ Hst) as (Hc & Hlen & Hsz & Hfh).
  pose proof (λ s, load_store _ _ _ _ s Hst) as Hl.
  assert (∀ s es, load h s = Some es →
    ∃ es', load h' s = Some es' ∧ name (binding es') = name (binding es) ∧
           next es' = next es ∧ prev es' = prev es) as Hfw.
  { intros s es Hes. rewrite Hl. case_decide.
    - subst s. rewrite Hes. eexists. split; [done|].
      rewrite He in Hes. injection Hes as <-. done.
    - eauto. }
  assert (∀ s es', load h' s = Some es' →
    ∃ es, load h s = Some es ∧ name (binding es') = name (binding es)) as Hbw.
  { intros s es' Hes'.
    assert (is_Some (load h s)) as [es Hes].
    { apply lookup_lt_is_Some. rewrite <- Hlen. by apply lookup_lt_Some in Hes'. }
    destruct (Hfw _ _ Hes) as (es2 & Hes2 & Hn & _). exists es. split; [done|]. congruence. }
  split; [|split; [|split; [|done]]].
  - split.
    + rewrite Hc, Hlen. apply Hwf.
    + rewrite Hc. apply Hwf.
    + apply Hwf.
    + rewrite Hfh. apply Hwf.
    + intros i s Hi. destruct (wf_fl_link _ _ _ Hwf _ _ Hi) as (es & Hes & Hf & Hn & Hp).
      destruct (Hfw _ _ Hes) as (es' & Hes' & Hnm & Hn' & Hp').
      exists es'. split; [done|]. unfold wasm_hash_entry_is_free in *.
      rewrite Hnm, Hn', Hp'. done.
    + intros s es' Hes' Hf. destruct (Hbw _ _ Hes') as (es & Hes & Hnm).
      eapply (wf_fl_all _ _ _ Hwf); [done|].
      unfold wasm_hash_entry_is_free in *. by rewrite <- Hnm.
    + apply Hwf.
    + apply Hwf.
    + intros m i s Hi.
      destruct (wf_ch_link _ _ _ Hwf _ _ _ Hi) as (es & Hes & Hf & Hm & Hn).
      destruct (Hfw _ _ Hes) as (es' & Hes' & Hnm & Hn' & Hp').
      exists es'. split; [done|]. unfold wasm_hash_entry_is_free in *.
      rewrite Hnm, Hn'. split; [done|]. split; [|done].
      rewrite <- Hm. by apply main_entry_cap.
    + intros s es' Hes' Hf. destruct (Hbw _ _ Hes') as (es & Hes & Hnm).
      destruct (wf_ch_all _ _ _ Hwf s es Hes) as (m & Hm & Hin).
      { unfold wasm_hash_entry_is_free in *. by rewrite <- Hnm. }
      exists m. split; [|done]. rewrite Hnm, <- Hm. by apply main_entry_cap.
  - rewrite Hl, decide_True by done. by rewrite He.
  - intros s Hs. rewrite Hl. by rewrite decide_False by done.
Qed.

(** A new entry followed by a store of its binding under the same name. *)
Lemma new_entry_then_store h fl chain nm f :
  wf h fl chain → valid_name nm → fl ≠ [] →
  (∀ e, name (binding e) = nm →
     name (binding (f e)) = nm ∧ next (f e) = next e ∧ prev (f e) = prev e) →
  ∃ p h1 e1 h2 fl' chain',
    wasm_hash_new_entry h nm = Some (p, h1) ∧
    load h1 p = Some e1 ∧ binding e1 = new_binding nm ∧
    store h1 p f = Some h2 ∧
    wf h2 fl' chain' ∧ length fl = S (length fl') ∧
    capacity (entries h1) = capacity (entries h) ∧
    size (entries h1) = size (entries h) ∧
    capacity (entries h2) = capacity (entries h) ∧
    size (entries h2) = size (entries h) ∧
    load h2 p = Some (f e1) ∧
    occupied_bindings h2 ≡ₚ binding (f e1) :: occupied_bindings h ∧
    keeps_main h h2 p.
Proof.
  intros Hwf Hv Hne Hf.
  destruct (new_entry_spec h fl chain nm Hwf Hv Hne)
    as (p & h1 & fl' & chain' & Hex & Hwf1 & Hlen & Hc1 & Hs1 & (e1 & He1 & Hb1) & Hperm & Hkeep).
  assert (name (binding e1) = nm) as Hn1 by (by rewrite Hb1).
  destruct (Hf e1 Hn1) as (Hfn & Hfnx & Hfp).
  destruct (store_total h1 p f) as (h2 & Hst & _).
  { by apply lookup_lt_Some in He1. }
  destruct (store_keep_name_wf h1 fl' chain' p e1 f h2 Hwf1 He1) as (Hwf2 & Hl2 & Hlo & Hc2 & Hs2);
    [congruence|done|done|done|].
  exists p, h1, e1, h2, fl', chain'. split_and!; try done; try congruence.
  - pose proof (store_bindings _ _ _ _ _ Hst He1) as Hb.
    assert (own e1 = [new_binding nm]) as Ho1.
    { unfold own. rewrite <- Hb1.
      by rewrite (proj2 (is_free_false_valid e1)) by (by rewrite Hn1). }
    assert (own (f e1) = [binding (f e1)]) as Ho2.
    { unfold own. by rewrite (proj2 (is_free_false_valid (f e1))) by (by rewrite Hfn). }
    rewrite Ho1, Ho2 in Hb. simpl in Hb.
    apply (Permutation_cons_inv (a := new_binding nm)).
    rewrite <- Hb, Hperm. apply perm_swap.
  - intros s es Hes Hfs Hms. destruct (Hkeep s es Hes Hfs Hms) as (Hsp & es' & Hes' & Hbe).
    split; [done|]. exists es'. split; [|done]. by rewrite Hlo.
Qed.

(** ** Growth *)

Lemma reverse_seq_lookup n i s :
  reverse (seq 0 n) !! i = Some s ↔ i < n ∧ s = n - 1 - i.
Proof.
  split.
  - intros H. pose proof (lookup_lt_Some _ _ _ H) as Hlt.
    rewrite length_reverse, length_seq in Hlt.
    rewrite reverse_lookup in H by (rewrite length_seq; lia).
    rewrite length_seq in H. apply lookup_seq in H. lia.
  - intros [Hlt ->]. rewrite reverse_lookup by (rewrite length_seq; lia).
    rewrite length_seq. apply lookup_seq. lia.
Qed.

Lemma init_free_list_S n i h :
  init_free_list (S n) i h =
    (_ ← load h i;
     h1 ← store_if h (free_head h) (set_prev (Some i));
     h2 ← store h1 i (set_name zero_slice);
     h3 ← store h2 i (set_next (free_head h2));
     init_free_list n (S i) (with_free_head h3 (Some i))).
Proof. done. Qed.

Lemma init_free_list_spec n i h :
  free_list_upto i h → i + n = capacity (entries h) →
  ∃ h', init_free_list n i h = Some h' ∧ free_list_upto (i + n) h' ∧
    capacity (entries h') = capacity (entries h) ∧
    size (entries h') = size (entries h).
Proof.
  revert i h. induction n as [|n IH]; intros i h Hinv Hcap.
  { exists h. rewrite Nat.add_0_r. done. }
  destruct Hinv as (Hc & Hfh & Hfree & Hlow & Hhigh).
  assert (i < length (data (entries h))) as Hilt by lia.
  destruct (lookup_lt_is_Some_2 _ _ Hilt) as [ei Hei].
  change (load h i = Some ei) in Hei.
  rewrite init_free_list_S, Hei. simpl.
  destruct (store_if_total h (free_head h) (set_prev (Some i)))
    as (h1 & Hst1 & Hl1 & Hc1 & Hlen1 & Hs1 & Hfh1).
  { intros p. rewrite Hfh. destruct i; [done|]. intros [= <-]. lia. }
  rewrite Hst1. simpl.
  destruct (store_total h1 i (set_name zero_slice)) as (h2 & Hst2 & Hl2 & Hc2 & Hlen2 & Hs2 & Hfh2);
    [lia|].
  rewrite Hst2. simpl.
  destruct (store_total h2 i (set_next (free_head h2)))
    as (h3 & Hst3 & Hl3 & Hc3 & Hlen3 & Hs3 & Hfh3); [lia|].
  rewrite Hst3. simpl.
  destruct (IH (S i) (with_free_head h3 (Some i))) as (h' & Hrun & Hinv' & Hc' & Hs').
  - assert (∀ s, load h3 s =
        if decide (s = i) then set_next (free_head h) <$> (set_name zero_slice <$> load h s)
        else if decide (free_head h = Some s) then set_prev (Some i) <$> load h s
        else load h s) as Hl.
    { intros s. rewrite Hl3, Hl2, Hl1, Hfh2, Hfh1. destruct (decide (s = i)) as [->|].
      - rewrite !decide_True by done. rewrite decide_False; [done|].
        rewrite Hfh. destruct i; [done|]. intros [= ?]. lia.
      - by rewrite !(decide_False (P := i = s)) by done. }
    split; [|split; [|split; [|split]]].
    + simpl. congruence.
    + done.
    + intros s e. change (load (with_free_head h3 (Some i)) s) with (load h3 s).
      rewrite Hl. repeat case_decide.
      * destruct (load h s); [|done]. by intros [= <-].
      * destruct (load h s) as [es|] eqn:Hes; [|done]. intros [= <-].
        by apply (Hfree s es).
      * apply Hfree.
    + intros s Hs. change (load (with_free_head h3 (Some i)) s) with (load h3 s).
      rewrite Hl. destruct (decide (s = i)) as [->|Hsi].
      * rewrite Hei. eexists. split; [done|]. simpl. split.
        -- rewrite Hfh. done.
        -- rewrite decide_True by done. by apply (Hhigh i ei).
      * destruct (Hlow s) as (es & Hes & Hn & Hp); [lia|]. rewrite Hes.
        destruct (decide (free_head h = Some s)) as [Hd|Hd].
        -- eexists. split; [done|]. simpl. split; [done|].
           rewrite (decide_False (P := S s = S i)) by lia.
           rewrite Hfh in Hd. destruct i; [done|].
           by injection Hd as <-.
        -- eexists. split; [done|]. split; [done|]. rewrite Hp.
           rewrite (decide_False (P := S s = S i)) by lia.
           rewrite decide_False; [done|].
           intros <-. apply Hd. by rewrite Hfh.
    + intros s e Hs. change (load (with_free_head h3 (Some i)) s) with (load h3 s).
      rewrite Hl. rewrite decide_False by lia.
      rewrite decide_False; [apply Hhigh; lia|].
      rewrite Hfh. destruct i; [done|]. intros [= ?]. lia.
  - simpl. lia.
  - exists h'. split; [done|]. split.
    + by replace (i + S n) with (S i + n) by lia.
    + simpl in Hc', Hs'. split; congruence.
Qed.

(** The table a growth starts from: all slots free, no chain. *)
Lemma fresh_table_wf h n fh h' :
  free_list_upto (S n) h → capacity (entries h) = S n →
  free_head h = Some fh → store h fh (set_prev None) = Some h' →
  wf h' (reverse (seq 0 (S n))) (λ _, []).
Proof.
  intros (Hc & Hfh & Hfree & Hlow & Hhigh) Hcap Hfh' Hst.
  rewrite Hfh in Hfh'. injection Hfh' as <-.
  destruct (store_frame _ _ _ _ Hst) as (Hc' & Hlen' & Hsz' & Hfh').
  pose proof (λ s, load_store _ _ _ _ s Hst) as Hl.
  assert (∀ s, s < S n → ∃ e, load h' s = Some e ∧ wasm_hash_entry_is_free e = true ∧
     next e = match s with 0 => None | S j => Some j end ∧
     prev e = if decide (s = n) then None else Some (S s)) as Hall.
  { intros s Hs. destruct (Hlow s Hs) as (e & He & Hn & Hp).
    rewrite Hl, He. destruct (decide (n = s)) as [<-|Hns].
    - eexists. split; [done|]. split; [by apply (Hfree n e)|]. split; [done|].
      simpl. by rewrite decide_True by done.
    - eexists. split; [done|]. split; [by apply (Hfree s e)|]. split; [done|].
      rewrite Hp. rewrite !decide_False by lia. done. }
  split.
  - congruence.
  - lia.
  - rewrite reverse_Permutation. apply NoDup_seq.
  - rewrite Hfh', Hfh, head_lookup. symmetry. apply reverse_seq_lookup. lia.
  - intros i s [Hi ->]%reverse_seq_lookup.
    destruct (Hall (S n - 1 - i)) as (e & He & Hf & Hn & Hp); [lia|].
    exists e. split; [done|]. split; [done|]. split.
    + rewrite Hn. destruct (decide (S i < S n)).
      * replace (S n - 1 - i) with (S (S n - 1 - S i)) by lia.
        symmetry. apply reverse_seq_lookup. lia.
      * replace (S n - 1 - i) with 0 by lia. symmetry.
        apply lookup_ge_None. rewrite length_reverse, length_seq. lia.
    + rewrite Hp. destruct i as [|j].
      * by rewrite decide_True by lia.
      * rewrite decide_False by lia. symmetry. apply reverse_seq_lookup. lia.
  - intros s e He _. apply (list_elem_of_lookup_2 _ (S n - 1 - s)).
    apply reverse_seq_lookup. apply lookup_lt_Some in He. lia.
  - intros m. by apply NoDup_nil.
  - done.
  - done.
  - intros s e He Hf.
    assert (s < S n) as Hs by (apply lookup_lt_Some in He; lia).
    destruct (Hall s Hs) as (e' & He' & Hf' & _). congruence.
Qed.

Lemma copy_entries_S n i hash new_hash :
  copy_entries (S n) i hash new_hash =
    (old_entry ← load hash i;
     if wasm_hash_entry_is_free old_entry then copy_entries n (S i) hash new_hash
     else
       '(new_entry, new_hash) ← wasm_hash_new_entry new_hash (name (binding old_entry));
       new_hash ← store new_hash new_entry (set_binding (binding old_entry));
       copy_entries n (S i) hash new_hash).
Proof. done. Qed.

Lemma copy_entries_spec old n i new fl chain :
  wf new fl chain → i + n ≤ length (data (entries old)) → n < length fl →
  ∃ new' fl' chain', copy_entries n i old new = Some new' ∧
    wf new' fl' chain' ∧ length fl ≤ length fl' + n ∧
    capacity (entries new') = capacity (entries new) ∧
    size (entries new') = size (entries new) ∧
    occupied_bindings new' ≡ₚ
      occupied_entries (take n (drop i (data (entries old)))) ++ occupied_bindings new.
Proof.
  revert i new fl chain. induction n as [|n IH]; intros i new fl chain Hwf Hlen Hfl.
  { exists new, fl, chain. split_and!; try done. lia. }
  assert (i < length (data (entries old))) as Hilt by lia.
  destruct (lookup_lt_is_Some_2 _ _ Hilt) as [oe Hoe].
  rewrite copy_entries_S. unfold load at 1. rewrite Hoe. simpl.
  rewrite (drop_S _ _ _ Hoe). simpl. rewrite occupied_entries_cons.
  destruct (wasm_hash_entry_is_free oe) eqn:Hf.
  - destruct (IH (S i) new fl chain Hwf) as (new' & fl' & chain' & Hrun & Hwf' & ? & ? & ? & Hp);
      [lia|lia|].
    exists new', fl', chain'. split_and!; try done; [lia|].
    unfold own. by rewrite Hf.
  - destruct (new_entry_then_store new fl chain (name (binding oe))
                (set_binding (binding oe)) Hwf)
      as (p & h1 & e1 & h2 & fl1 & chain1 & Hex & He1 & Hb1 & Hst & Hwf2 & Hlen1
          & _ & _ & Hc2 & Hs2 & Hl2 & Hperm & _).
    { by apply is_free_false_valid. }
    { intros ->. simpl in Hfl. lia. }
    { done. }
    rewrite Hex. simpl. rewrite Hst. simpl.
    destruct (IH (S i) h2 fl1 chain1 Hwf2) as (new' & fl' & chain' & Hrun & Hwf' & ? & ? & ? & Hp);
      [lia|lia|].
    exists new', fl', chain'. split_and!; try done; try congruence; [lia|].
    rewrite Hp, Hperm. unfold own. rewrite Hf. simpl.
    by rewrite Permutation_middle.
Qed.

Lemma no_chain_no_binding h fl :
  wf h fl (λ _, []) → occupied_bindings h = [].
Proof.
  intros Hwf. apply elem_of_nil_inv. intros b Hb.
  apply elem_of_occupied_bindings in Hb as (s & e & He & Hf & _).
  destruct (wf_ch_all _ _ _ Hwf _ _ He Hf) as (m & _ & Hin).
  by apply not_elem_of_nil in Hin.
Qed.

Section Resize.
Variable alloc_ok : nat → bool.

Lemma resize_spec h desired :
  capacity (entries h) = length (data (entries h)) →
  capacity (entries h) < desired →
  (alloc_ok desired = false ∧
   wasm_hash_resize alloc_ok h desired = Some (WASM_ERROR, h))
  ∨ (alloc_ok desired = true ∧
     ∃ h' fl chain, wasm_hash_resize alloc_ok h desired = Some (WASM_OK, h') ∧
       wf h' fl chain ∧ fl ≠ [] ∧
       capacity (entries h') = desired ∧ size (entries h') = 0 ∧
       occupied_bindings h' ≡ₚ occupied_bindings h).
Proof.
  intros Hcap Hlt. unfold wasm_hash_resize, wasm_reserve_binding_hash_entrys.
  simpl. rewrite decide_False by lia.
  destruct (alloc_ok desired) eqn:Hok; [right|left; done].
  split; [done|]. rewrite Nat.sub_0_r. simpl.
  set (h0 := {| entries := {| data := replicate desired zero_entry; size := 0;
                              capacity := desired |}; free_head := None |}).
  destruct (init_free_list_spec desired 0 h0) as (h1 & Hrun & Hinv & Hc1 & Hs1).
  { split_and!; simpl; try done.
    - by rewrite length_replicate.
    - intros s e [-> _]%lookup_replicate. done.
    - lia.
    - intros s e _ [-> _]%lookup_replicate. done. }
  { done. }
  simpl in Hinv, Hc1, Hs1.
  rewrite Hrun. simpl.
  destruct desired as [|n]; [lia|].
  pose proof Hinv as (Hc & Hfh & _). rewrite Hfh. simpl.
  destruct (store_total h1 n (set_prev None)) as (h2 & Hst & _ & Hc2 & _ & Hs2 & _); [lia|].
  rewrite Hst. simpl.
  pose proof (fresh_table_wf h1 n n h2 Hinv Hc1 Hfh Hst) as Hwf.
  destruct (copy_entries_spec h (capacity (entries h)) 0 h2 _ _ Hwf)
    as (h' & fl' & chain' & Hcopy & Hwf' & Hlen & Hc' & Hs' & Hperm).
  { lia. } { rewrite length_reverse, length_seq. lia. }
  rewrite Hcopy. simpl. exists h', fl', chain'. split_and!; try done; try congruence.
  - rewrite length_reverse, length_seq in Hlen. intros ->. simpl in Hlen. lia.
  - rewrite Hperm, (no_chain_no_binding _ _ Hwf), app_nil_r. simpl.
    rewrite Hcap, firstn_all. done.
Qed.

End Resize.

(** ** Insertion *)

Lemma wf_with_size h n fl chain : wf h fl chain → wf (with_size h n) fl chain.
Proof. intros [? ? ? ? ? ? ? ? ? ?]. by split. Qed.

Section Insert.
Variable alloc_ok : nat → bool.

Lemma insert_spec h nm :
  hash_inv h → valid_name nm →
  ∃ r h', wasm_insert_binding alloc_ok h nm = Some (r, h') ∧
    match r with
    | None => h' = h ∧ free_head h = None ∧ alloc_ok (grown_capacity h) = false
    | Some p =>
        size (entries h') ≠ 0 ∧
        (∃ fl chain, wf h' fl chain) ∧
        (∃ e, load h' p = Some e ∧ binding e = new_binding nm) ∧
        occupied_bindings h' ≡ₚ new_binding nm :: occupied_bindings h ∧
        match free_head h with
        | None => alloc_ok (grown_capacity h) = true ∧
                  capacity (entries h') = grown_capacity h
        | Some _ => capacity (entries h') = capacity (entries h) ∧ keeps_main h h' p
        end
    end.
Proof.
  intros Hinv Hv. unfold wasm_insert_binding, grown_capacity.
  assert (∀ h1 fl chain, wf h1 fl chain → fl ≠ [] →
    ∃ p h2, (free_head h1 = None → False) ∧
      wasm_hash_new_entry h1 nm = Some (p, h2) ∧
      (∃ fl' chain', wf (with_size h2 (S (size (entries h1)))) fl' chain') ∧
      (∃ e, load h2 p = Some e ∧ binding e = new_binding nm) ∧
      occupied_bindings h2 ≡ₚ new_binding nm :: occupied_bindings h1 ∧
      capacity (entries h2) = capacity (entries h1) ∧
      size (entries h2) = size (entries h1) ∧
      keeps_main h1 h2 p) as Hnew.
  { intros h1 fl chain Hwf Hne.
    destruct (new_entry_spec h1 fl chain nm Hwf Hv Hne)
      as (p & h2 & fl' & chain' & Hex & Hwf' & _ & ? & ? & ? & ? & ?).
    exists p, h2. split_and!; try done.
    - rewrite (wf_fl_head _ _ _ Hwf). by destruct fl.
    - exists fl', chain'. by apply wf_with_size. }
  destruct Hinv as [->|(Hsz & fl & chain & Hwf)].
  - (* the empty table: the first insertion allocates 8 slots *)
    simpl. destruct (resize_spec alloc_ok empty_hash INITIAL_HASH_CAPACITY)
      as [[Hno Hres]|(Hyes & h1 & fl & chain & Hres & Hwf & Hne & Hc & Hs & Hp)].
    { done. } { simpl. unfold INITIAL_HASH_CAPACITY. lia. }
    + rewrite Hres. simpl. exists None, empty_hash. done.
    + rewrite Hres. simpl.
      destruct (Hnew h1 fl chain Hwf Hne) as (p & h2 & Hfh & Hex & Hwf2 & He & Hperm & Hc2 & Hs2 & _).
      destruct (free_head h1) eqn:Hfh1; [|done].
      simpl. rewrite Hex. simpl. exists (Some p), (with_size h2 (S (size (entries h2)))).
      split; [done|]. split; [done|]. split; [by rewrite Hs2|].
      split; [done|]. split; [by rewrite Hperm, Hp|]. split; [done|]. simpl. congruence.
  - rewrite decide_False by done. simpl.
    destruct (free_head h) as [f|] eqn:Hfh.
    + assert (fl ≠ []) as Hne.
      { intros ->. rewrite (wf_fl_head _ _ _ Hwf) in Hfh. done. }
      destruct (Hnew h fl chain Hwf Hne) as (p & h2 & _ & Hex & Hwf2 & He & Hperm & Hc2 & Hs2 & Hk).
      simpl. rewrite Hex. simpl. exists (Some p), (with_size h2 (S (size (entries h2)))).
      split; [done|]. split; [done|]. split; [by rewrite Hs2|].
      split; [done|]. split; [done|]. split; [done|]. done.
    + destruct (resize_spec alloc_ok h (capacity (entries h) * 2))
        as [[Hno Hres]|(Hyes & h1 & fl1 & chain1 & Hres & Hwf1 & Hne & Hc & Hs & Hp)].
      { apply Hwf. } { pose proof (wf_pos _ _ _ Hwf). lia. }
      * rewrite Hres. simpl. exists None, h. by rewrite (decide_False (P := _ = 0)) by done.
      * rewrite Hres. simpl.
        destruct (Hnew h1 fl1 chain1 Hwf1 Hne)
          as (p & h2 & Hfh1 & Hex & Hwf2 & He & Hperm & Hc2 & Hs2 & _).
        destruct (free_head h1) eqn:Hfh1'; [|done].
        simpl. rewrite Hex. simpl. exists (Some p), (with_size h2 (S (size (entries h2)))).
        split; [done|]. split; [done|]. split; [by rewrite Hs2|].
        split; [done|]. split; [by rewrite Hperm, Hp|].
        rewrite (decide_False (P := _ = 0)) by done. split; [done|]. simpl. congruence.
Qed.

(** An insertion and the caller's assignment of the index. *)
Lemma insert_record_spec h nm i :
  hash_inv h → valid_name nm →
  ∃ r h1, wasm_insert_binding alloc_ok h nm = Some (r, h1) ∧
    match r with
    | None => h1 = h ∧ free_head h = None ∧ alloc_ok (grown_capacity h) = false
    | Some p =>
        ∃ h2, record_index h1 p i = Some h2 ∧ hash_inv h2 ∧
          load h2 p = Some (set_index i
            match load h1 p with Some e => e | None => zero_entry end) ∧
          (∃ e, load h1 p = Some e ∧ binding e = new_binding nm) ∧
          occupied_bindings h2 ≡ₚ {| name := nm; index := i |} :: occupied_bindings h ∧
          capacity (entries h2) = capacity (entries h1) ∧
          (∀ s, s ≠ p → load h2 s = load h1 s)
    end.
Proof.
  intros Hinv Hv. destruct (insert_spec h nm Hinv Hv) as (r & h1 & Hins & Hr).
  exists r, h1. split; [done|]. destruct r as [p|]; [|done].
  destruct Hr as (Hsz & (fl & chain & Hwf) & (e & He & Hb) & Hperm & _).
  unfold record_index.
  destruct (store_total h1 p (set_index i)) as (h2 & Hst & _).
  { by apply lookup_lt_Some in He. }
  destruct (store_keep_name_wf h1 fl chain p e (set_index i) h2 Hwf He)
    as (Hwf2 & Hl2 & Hlo & Hc2 & Hs2); [done..|].
  exists h2. split; [done|]. split_and!; try done.
  - right. split; [congruence|eauto].
  - by rewrite He.
  - eauto.
  - pose proof (store_bindings _ _ _ _ _ Hst He) as Hb2.
    assert (own e = [new_binding nm]) as Ho1.
    { unfold own. rewrite <- Hb.
      by rewrite (proj2 (is_free_false_valid e)) by (by rewrite Hb). }
    assert (own (set_index i e) = [{| name := nm; index := i |}]) as Ho2.
    { unfold own. rewrite (proj2 (is_free_false_valid (set_index i e))).
      - simpl. by rewrite Hb.
      - simpl. by rewrite Hb. }
    rewrite Ho1, Ho2 in Hb2. simpl in Hb2.
    apply (Permutation_cons_inv (a := new_binding nm)).
    rewrite <- Hb2, Hperm. apply perm_swap.
Qed.

End Insert.

(** ** Tables with distinct names *)

Lemma equal_refl nm : valid_name nm → wasm_string_slices_are_equal nm nm = true.
Proof. intros Hv. by apply equal_iff_key. Qed.

Lemma distinct_names_NoDup l :
  Forall valid_name l → distinct_names l → NoDup (slice_key <$> l).
Proof.
  intros Hv Hd. apply NoDup_alt. intros i j k Hi Hj.
  apply list_lookup_fmap_Some in Hi as (a & -> & Ha).
  apply list_lookup_fmap_Some in Hj as (b & Hk & Hb).
  destruct (decide (i = j)) as [|Hne]; [done|].
  pose proof (Hd i j a b Ha Hb Hne) as Hf.
  assert (wasm_string_slices_are_equal a b = true) as Ht; [|congruence].
  apply equal_iff_key. split_and!; [| |done].
  - eapply Forall_lookup_1; eauto.
  - eapply Forall_lookup_1; eauto.
Qed.

Lemma NoDup_distinct_names l :
  NoDup (slice_key <$> l) → distinct_names l.
Proof.
  intros Hnd i j a b Ha Hb Hne.
  destruct (wasm_string_slices_are_equal a b) eqn:Heq; [|done].
  apply equal_iff_key in Heq as (_ & _ & Hk). exfalso. apply Hne.
  apply (NoDup_lookup _ i j (slice_key a) Hnd).
  - by rewrite list_lookup_fmap, Ha.
  - by rewrite list_lookup_fmap, Hb, Hk.
Qed.

Lemma NoDup_fmap_eq {A B} (f : A → B) (l : list A) x y :
  NoDup (f <$> l) → x ∈ l → y ∈ l → f x = f y → x = y.
Proof.
  intros Hnd [i Hi]%list_elem_of_lookup_1 [j Hj]%list_elem_of_lookup_1 Hf.
  assert (i = j) as ->; [|congruence].
  apply (NoDup_lookup _ i j (f x) Hnd).
  - by rewrite list_lookup_fmap, Hi.
  - by rewrite list_lookup_fmap, Hj, Hf.
Qed.

(** In a well-formed table whose names are pairwise different, looking up
    the name of a stored binding gives the index stored with it. *)
Lemma lookup_unique h fl chain b :
  wf h fl chain →
  NoDup (slice_key ∘ name <$> occupied_bindings h) →
  b ∈ occupied_bindings h →
  find_binding_index_by_name h (name b) = Some (index b).
Proof.
  intros Hwf Hnd Hb.
  pose proof Hb as (s & e & He & Hf & <-)%elem_of_occupied_bindings.
  pose proof (proj1 (is_free_false_valid e) Hf) as Hv.
  destruct (find_binding_spec Hwf (name (binding e))) as (r & Hr & Hcase).
  { destruct Hv as [bs Hbs]. unfold wasm_hash_name. rewrite Hbs. eauto. }
  rewrite Hr. f_equal. destruct Hcase as [(s' & e' & He' & Heq & ->)|[-> Hun]].
  - f_equal. apply (NoDup_fmap_eq (slice_key ∘ name) (occupied_bindings h)); try done.
    + apply elem_of_occupied_bindings. exists s', e'. split_and!; try done.
      apply is_free_false_valid. by apply equal_iff_key in Heq as (? & _).
    + simpl. by apply equal_iff_key in Heq as (_ & _ & ?).
  - specialize (Hun s e He). rewrite equal_refl in Hun by done. done.
Qed.

(** ** Runs of insertions *)

Section RunLemmas.
Variable alloc_ok : nat → bool.

Lemma insert_all_spec l h :
  hash_inv h → Forall (λ x, valid_name x.1) l →
  ∃ r, insert_all alloc_ok h l = Some r ∧
    ((∀ n, alloc_ok n = true) → is_Some r) ∧
    ∀ h', r = Some h' →
      hash_inv h' ∧ capacity (entries h) ≤ capacity (entries h') ∧
      occupied_bindings h' ≡ₚ (binding_of <$> l) ++ occupied_bindings h.
Proof.
  revert h. induction l as [|[nm i] l IH]; intros h Hinv Hv.
  { exists (Some h). split; [done|]. split; [eauto|]. intros h' [= <-]. done. }
  apply Forall_cons in Hv as [Hv1 Hv].
  destruct (insert_record_spec alloc_ok h nm i Hinv Hv1) as (r & h1 & Hins & Hr).
  simpl. rewrite Hins. simpl. destruct r as [p|].
  - destruct Hr as (h2 & Hrec & Hinv2 & _ & _ & Hperm & Hc21 & _).
    rewrite Hrec. simpl.
    destruct (IH h2 Hinv2 Hv) as (r & Hrun & Hok & Hr).
    exists r. split; [done|]. split; [done|].
    intros h' ->. destruct (Hr h' eq_refl) as (Hinv' & Hcap & Hperm').
    split; [done|]. split.
    + destruct (insert_spec alloc_ok h nm Hinv Hv1) as (r' & h1' & Hins' & Hr').
      rewrite Hins in Hins'. injection Hins' as <- <-.
      destruct Hr' as (_ & _ & _ & _ & Hgrow).
      destruct (free_head h); [lia|].
      destruct Hgrow as [_ Hg]. unfold grown_capacity in Hg.
      case_decide; [|lia].
      destruct Hinv as [->|[? _]]; [simpl; lia|done].
    + rewrite Hperm', Hperm. simpl. by rewrite Permutation_middle.
  - destruct Hr as (-> & _ & Hno). exists None. split; [done|]. split; [|done].
    intros Hall. rewrite Hall in Hno. done.
Qed.

End RunLemmas.

(** ** Reachability along a chain *)

Lemma chain_reachable h fl chain m i j s t :
  wf h fl chain → chain m !! j = Some t → chain m !! (j + i) = Some s →
  reachable h t s.
Proof.
  intros Hwf. revert j t. induction i as [|i IH]; intros j t Hj Hi.
  - rewrite Nat.add_0_r in Hi. rewrite Hj in Hi. injection Hi as <-. constructor.
  - destruct (wf_ch_link _ _ _ Hwf _ _ _ Hj) as (e & He & _ & _ & Hn).
    assert (is_Some (chain m !! S j)) as [c Hc].
    { apply lookup_lt_is_Some. apply lookup_lt_Some in Hi. lia. }
    eapply reachable_next; [done|by rewrite Hn|].
    apply (IH (S j)); [done|]. by replace (S j + i) with (j + S i) by lia.
Qed.

Lemma occupied_reachable h fl chain s e :
  wf h fl chain → load h s = Some e → wasm_hash_entry_is_free e = false →
  ∃ m, wasm_hash_main_entry h (name (binding e)) = Some m ∧ reachable h m s.
Proof.
  intros Hwf He Hf. destruct (occupied_on_chain Hwf _ _ He Hf) as (m & i & Hm & Hi).
  exists m. split; [done|].
  apply (chain_reachable h fl chain m i 0 s m Hwf); [|done].
  eapply chain_head; [done|]. by eapply list_elem_of_lookup_2.
Qed.

(** * The claims *)

(** Inserting the twenty names grows the table from 8 to 16 to 32 slots, and
    every name is found with its index. *)
Example twenty_names_run :
  (h ← mjoin (insert_all always empty_hash twenty_names);
   Some (capacity (entries h),
         (λ x, find_binding_index_by_name h x.1) <$> twenty_names))
  = Some (32, (λ x, Some x.2) <$> twenty_names).
Proof. vm_compute. reflexivity. Qed.

(** C1: for every sequence of valid, pairwise different names inserted in
    order into the empty table, each insertion followed by the assignment of
    its index, the run returns (it succeeds whenever the allocator does), and
    in the resulting table the lookup of every inserted name returns the
    index recorded at its insertion.  This holds for every length of the
    sequence, so across any number of growths; and a growth of the resulting
    table by itself leaves every name found with the same index. *)
Theorem insert_distinct_then_lookup alloc_ok (l : list (WasmStringSlice * Z)) :
  Forall valid_name l.*1 → distinct_names l.*1 →
  ∃ r, insert_all alloc_ok empty_hash l = Some r ∧
    ((∀ n, alloc_ok n = true) → is_Some r) ∧
    ∀ h, r = Some h →
      (∀ nm i, (nm, i) ∈ l → find_binding_index_by_name h nm = Some i) ∧
      (∀ desired h', capacity (entries h) < desired →
         wasm_hash_resize alloc_ok h desired = Some (WASM_OK, h') →
         ∀ nm i, (nm, i) ∈ l → find_binding_index_by_name h' nm = Some i).
Proof.
  intros Hv Hd.
  destruct (insert_all_spec alloc_ok l empty_hash) as (r & Hrun & Hok & Hr).
  { by left. } { rewrite Forall_fmap in Hv. exact Hv. }
  exists r. split; [done|]. split; [done|]. intros h ->.
  destruct (Hr h eq_refl) as (Hinv & _ & Hperm).
  change (occupied_bindings empty_hash) with (@nil WasmBinding) in Hperm.
  rewrite app_nil_r in Hperm.
  assert (∀ h', occupied_bindings h' ≡ₚ binding_of <$> l →
            NoDup (slice_key ∘ name <$> occupied_bindings h')) as Hnd.
  { intros h' Hp. rewrite Hp, <- list_fmap_compose.
    apply distinct_names_NoDup in Hd; [|done].
    rewrite <- list_fmap_compose in Hd. exact Hd. }
  assert (∀ h' fl chain nm i, wf h' fl chain →
            occupied_bindings h' ≡ₚ binding_of <$> l → (nm, i) ∈ l →
            find_binding_index_by_name h' nm = Some i) as Hfind.
  { intros h' fl chain nm i Hwf Hp Hin.
    apply (lookup_unique h' fl chain (binding_of (nm, i)) Hwf (Hnd h' Hp)).
    rewrite Hp. by apply list_elem_of_fmap_2. }
  split.
  - intros nm i Hin. destruct Hinv as [->|(_ & fl & chain & Hwf)].
    + assert (binding_of (nm, i) ∈ occupied_bindings empty_hash) as Hx.
      { rewrite Hperm. by apply list_elem_of_fmap_2. }
      by apply not_elem_of_nil in Hx.
    + by eapply Hfind.
  - intros desired h' Hlt Hres nm i Hin.
    destruct (resize_spec alloc_ok h desired)
      as [[_ Hno]|(_ & h2 & fl2 & chain2 & Hres2 & Hwf2 & _ & _ & _ & Hp2)]; [|done| |].
    + destruct Hinv as [->|(_ & fl & chain & Hwf)]; [done|apply Hwf].
    + congruence.
    + rewrite Hres in Hres2. injection Hres2 as ->.
      eapply Hfind; [done| |done]. by rewrite Hp2.
Qed.

Lemma insert_distinct_then_lookup_witness :
  ∃ r, insert_all always empty_hash twenty_names = Some r ∧
    ((∀ n, always n = true) → is_Some r) ∧
    ∀ h, r = Some h →
      (∀ nm i, (nm, i) ∈ twenty_names → find_binding_index_by_name h nm = Some i) ∧
      (∀ desired h', capacity (entries h) < desired →
         wasm_hash_resize always h desired = Some (WASM_OK, h') →
         ∀ nm i, (nm, i) ∈ twenty_names → find_binding_index_by_name h' nm = Some i).
Proof.
  apply (insert_distinct_then_lookup always twenty_names).
  - refine (bool_decide_unpack _ _). vm_compute. exact I.
  - apply NoDup_distinct_names. refine (bool_decide_unpack _ _). vm_compute. exact I.
Defined.

(** In a table without storage beyond the empty one nothing can be loaded. *)
Lemma hash_inv_load h s e :
  hash_inv h → load h s = Some e → size (entries h) ≠ 0 ∧ ∃ fl chain, wf h fl chain.
Proof. intros [->|?] He; [done|done]. Qed.

Lemma main_slot_stays alloc_ok nm i1 p l :
  ∀ h2 e2 h3,
  hash_inv h2 → valid_name nm →
  load h2 p = Some e2 → binding e2 = {| name := nm; index := i1 |} →
  wasm_hash_main_entry h2 nm = Some p →
  Forall (λ x, valid_name x.1) l →
  insert_all alloc_ok h2 l = Some (Some h3) →
  capacity (entries h3) = capacity (entries h2) →
  ∃ e3, load h3 p = Some e3 ∧ binding e3 = {| name := nm; index := i1 |}.
Proof.
  induction l as [|[nm' i'] l IH]; intros h2 e2 h3 Hinv Hv He2 Hb2 Hm Hvl Hrun Hcap.
  { injection Hrun as <-. eauto. }
  apply Forall_cons in Hvl as [Hv' Hvl]. simpl in Hv'.
  destruct (hash_inv_load _ _ _ Hinv He2) as (Hsz & fl & chain & Hwf).
  destruct (insert_spec alloc_ok h2 nm' Hinv Hv') as (r & h1 & Hins & Hr).
  destruct (insert_record_spec alloc_ok h2 nm' i' Hinv Hv') as (r' & h1' & Hins' & Hr').
  rewrite Hins in Hins'. injection Hins' as <- <-.
  simpl in Hrun. rewrite Hins in Hrun. simpl in Hrun.
  destruct r as [p'|]; [|done].
  destruct Hr' as (h2' & Hrec & Hinv' & _ & _ & _ & Hc' & Hlo).
  rewrite Hrec in Hrun. simpl in Hrun.
  destruct (insert_all_spec alloc_ok l h2' Hinv' Hvl) as (r & Hrun' & _ & Hmono).
  rewrite Hrun in Hrun'. injection Hrun' as <-.
  destruct (Hmono h3 eq_refl) as (_ & Hle & _).
  destruct Hr as (_ & _ & _ & _ & Hgrow).
  destruct (free_head h2) as [f|].
  - destruct Hgrow as [Hc1 Hkeep].
    destruct (Hkeep p e2 He2) as (Hpp & e1 & He1 & Hb1).
    { apply is_free_false_valid. by rewrite Hb2. }
    { by rewrite Hb2. }
    apply (IH h2' e1 h3); try done.
    + by rewrite Hlo.
    + congruence.
    + rewrite <- Hm. apply main_entry_cap. congruence.
    + congruence.
  - destruct Hgrow as [_ Hg]. unfold grown_capacity in Hg.
    rewrite decide_False in Hg by done.
    pose proof (wf_pos _ _ _ Hwf). lia.
Qed.

(** A name inserted a second time behind another name of the same main slot
    is found with the index of the second insertion. *)
Lemma second_insertion_found_first :
  ∃ h, insert_all always empty_hash
         [(slice_of_string "a", 10); (slice_of_string "i", 11);
          (slice_of_string "i", 12)]%Z = Some (Some h) ∧
       find_binding_index_by_name h (slice_of_string "i") = Some 12%Z ∧
       find_binding_index_by_name h (slice_of_string "i") ≠ Some 11%Z.
Proof.
  eexists. split; [vm_compute; reflexivity|]. split; [vm_compute; reflexivity|].
  vm_compute. discriminate.
Qed.

(** The same after a growth, although the first insertion took the main slot:
    the rebuild enters the entries in slot order. *)
Example growth_can_reorder :
  (h ← mjoin (insert_all always empty_hash
         [(slice_of_string "h", 1); (slice_of_string "h", 2);
          (slice_of_string "a", 3); (slice_of_string "b", 4);
          (slice_of_string "c", 5); (slice_of_string "d", 6);
          (slice_of_string "e", 7); (slice_of_string "f", 8)]%Z);
   r1 ← find_binding_index_by_name h (slice_of_string "h");
   h' ← mjoin (insert_all always h [(slice_of_string "g", 9%Z)]);
   r2 ← find_binding_index_by_name h' (slice_of_string "h");
   Some (capacity (entries h), r1, capacity (entries h'), r2))
  = Some (8, 1%Z, 16, 2%Z).
Proof. vm_compute. reflexivity. Qed.

(** C2 (amended): a name whose insertion placed it in its main slot is found
    with the index recorded at that insertion after any later insertions,
    of other names or of the same name again, as long as the capacity has
    not grown since. *)
Theorem first_insertion_in_main_slot_wins alloc_ok h nm i1 p h1 h2 l h3 :
  hash_inv h → valid_name nm →
  wasm_insert_binding alloc_ok h nm = Some (Some p, h1) →
  wasm_hash_main_entry h1 nm = Some p →
  record_index h1 p i1 = Some h2 →
  Forall valid_name l.*1 →
  insert_all alloc_ok h2 l = Some (Some h3) →
  capacity (entries h3) = capacity (entries h2) →
  find_binding_index_by_name h3 nm = Some i1.
Proof.
  intros Hinv Hv Hins Hm Hrec Hvl Hrun Hcap.
  destruct (insert_record_spec alloc_ok h nm i1 Hinv Hv) as (r & h1' & Hins' & Hr).
  rewrite Hins in Hins'. injection Hins' as <- <-.
  destruct Hr as (h2' & Hrec' & Hinv2 & Hl2 & (e & He & Hb) & _ & Hc2 & _).
  rewrite Hrec in Hrec'. injection Hrec' as <-.
  rewrite He in Hl2.
  destruct (main_slot_stays alloc_ok nm i1 p l h2 (set_index i1 e) h3)
    as (e3 & He3 & Hb3); try done.
  { simpl. by rewrite Hb. }
  { rewrite <- Hm. by apply main_entry_cap. }
  { rewrite Forall_fmap in Hvl. exact Hvl. }
  pose proof (main_entry_lt _ _ _ Hm) as Hlt.
  unfold find_binding_index_by_name. rewrite decide_False by lia.
  rewrite (main_entry_cap h3 h1) by congruence. rewrite Hm. simpl.
  destruct (capacity (entries h3)) as [|c] eqn:Hc; [lia|].
  simpl. rewrite He3. simpl. rewrite Hb3. simpl. by rewrite equal_refl.
Qed.

Lemma first_insertion_in_main_slot_wins_witness :
  ∃ h3, insert_all always empty_hash
          [(slice_of_string "i", 11); (slice_of_string "a", 10);
           (slice_of_string "i", 12)]%Z = Some (Some h3) ∧
        find_binding_index_by_name h3 (slice_of_string "i") = Some 11%Z.
Proof.
  eexists. split; [vm_compute; reflexivity|].
  eapply (first_insertion_in_main_slot_wins always empty_hash (slice_of_string "i")
            11 _ _ _ [(slice_of_string "a", 10); (slice_of_string "i", 12)]%Z).
  - by left.
  - by eexists.
  - vm_compute. reflexivity.
  - vm_compute. reflexivity.
  - vm_compute. reflexivity.
  - refine (bool_decide_unpack _ _). vm_compute. exact I.
  - vm_compute. reflexivity.
  - vm_compute. reflexivity.
Defined.

(** C3: after every run of insertions into the empty table, whatever
    relocations and growths it went through, every occupied slot is reached
    from the main slot of its name by following [next] links; this holds
    after the caller has assigned the index, and already when
    [wasm_insert_binding] returns. *)
Theorem occupied_entries_reachable alloc_ok (l : list (WasmStringSlice * Z)) h :
  Forall valid_name l.*1 →
  insert_all alloc_ok empty_hash l = Some (Some h) →
  (∀ s e, load h s = Some e → wasm_hash_entry_is_free e = false →
     ∃ m, wasm_hash_main_entry h (name (binding e)) = Some m ∧ reachable h m s) ∧
  (∀ nm p h1, valid_name nm →
     wasm_insert_binding alloc_ok h nm = Some (Some p, h1) →
     ∀ s e, load h1 s = Some e → wasm_hash_entry_is_free e = false →
       ∃ m, wasm_hash_main_entry h1 (name (binding e)) = Some m ∧ reachable h1 m s).
Proof.
  intros Hv Hrun.
  destruct (insert_all_spec alloc_ok l empty_hash) as (r & Hrun' & _ & Hr).
  { by left. } { rewrite Forall_fmap in Hv. exact Hv. }
  rewrite Hrun in Hrun'. injection Hrun' as <-.
  destruct (Hr h eq_refl) as (Hinv & _). split.
  - intros s e He Hf.
    destruct (hash_inv_load _ _ _ Hinv He) as (_ & fl & chain & Hwf).
    by eapply occupied_reachable.
  - intros nm p h1 Hnm Hins s e He Hf.
    destruct (insert_spec alloc_ok h nm Hinv Hnm) as (r & h1' & Hins' & Hspec).
    rewrite Hins in Hins'. injection Hins' as <- <-.
    destruct Hspec as (_ & (fl & chain & Hwf) & _).
    by eapply occupied_reachable.
Qed.

Lemma occupied_entries_reachable_witness :
  ∃ h, insert_all always empty_hash relocating_names = Some (Some h) ∧
    (∀ s e, load h s = Some e → wasm_hash_entry_is_free e = false →
       ∃ m, wasm_hash_main_entry h (name (binding e)) = Some m ∧ reachable h m s) ∧
    (∀ nm p h1, valid_name nm →
       wasm_insert_binding always h nm = Some (Some p, h1) →
       ∀ s e, load h1 s = Some e → wasm_hash_entry_is_free e = false →
         ∃ m, wasm_hash_main_entry h1 (name (binding e)) = Some m ∧ reachable h1 m s).
Proof.
  eexists. split; [vm_compute; reflexivity|].
  apply (occupied_entries_reachable always relocating_names).
  - refine (bool_decide_unpack _ _). vm_compute. exact I.
  - vm_compute. reflexivity.
Defined.

Lemma grown_inv alloc_ok k h :
  grown alloc_ok k h →
  hash_inv h ∧ capacity (entries h) = match k with 0 => 0 | S j => 8 * 2 ^ j end.
Proof.
  induction 1 as [|k h nm p h1 i h2 Hg [Hinv Hcap] Hv Hins Hrec].
  { split; [by left|done]. }
  destruct (insert_record_spec alloc_ok h nm i Hinv Hv) as (r & h1' & Hins' & Hr).
  rewrite Hins in Hins'. injection Hins' as <- <-.
  destruct Hr as (h2' & Hrec' & Hinv2 & _ & _ & _ & Hc2 & _).
  rewrite Hrec in Hrec'. injection Hrec' as <-.
  split; [done|]. rewrite Hc2.
  destruct (insert_spec alloc_ok h nm Hinv Hv) as (r & h1' & Hins' & Hr).
  rewrite Hins in Hins'. injection Hins' as <- <-.
  destruct Hr as (_ & _ & _ & _ & Hgrow).
  destruct (free_head h).
  - destruct Hgrow as [-> _]. by rewrite decide_True by done.
  - destruct Hgrow as [_ ->]. unfold grown_capacity.
    destruct Hinv as [->|(Hsz & fl & chain & Hwf)].
    + simpl. destruct k as [|j]; [done|]. exfalso.
      pose proof (Nat.pow_nonzero 2 j). simpl in Hcap. lia.
    + pose proof (wf_pos _ _ _ Hwf) as Hpos.
      rewrite decide_False by done. rewrite decide_False by lia.
      destruct k as [|j]; [lia|]. rewrite Hcap, Nat.pow_succ_r'. lia.
Qed.

(** C4: in a table built from the empty one by insertions of which [k]
    changed the capacity, the capacity is 0 when [k] is 0 and [8 * 2^(k-1)]
    otherwise; an insertion that returns a binding changes the capacity
    exactly when it finds the free list empty, to 8 from the empty table and
    to twice the capacity later. *)
Theorem capacity_after_growths alloc_ok k h :
  grown alloc_ok k h →
  capacity (entries h) = match k with 0 => 0 | S j => 8 * 2 ^ j end ∧
  ∀ nm p h1, valid_name nm →
    wasm_insert_binding alloc_ok h nm = Some (Some p, h1) →
    (capacity (entries h1) ≠ capacity (entries h) ↔ free_head h = None) ∧
    (free_head h = None →
     capacity (entries h1) =
       if decide (capacity (entries h) = 0) then INITIAL_HASH_CAPACITY
       else capacity (entries h) * 2).
Proof.
  intros Hg. destruct (grown_inv alloc_ok k h Hg) as [Hinv Hcap].
  split; [done|]. intros nm p h1 Hv Hins.
  destruct (insert_spec alloc_ok h nm Hinv Hv) as (r & h1' & Hins' & Hr).
  rewrite Hins in Hins'. injection Hins' as <- <-.
  destruct Hr as (_ & _ & _ & _ & Hgrow).
  destruct (free_head h) as [f|].
  - destruct Hgrow as [-> _]. split; [|done]. split; done.
  - destruct Hgrow as [_ ->]. unfold grown_capacity, INITIAL_HASH_CAPACITY.
    destruct Hinv as [->|(Hsz & fl & chain & Hwf)].
    + simpl. split; [|done]. split; [done|]. lia.
    + pose proof (wf_pos _ _ _ Hwf) as Hpos.
      rewrite decide_False by done. rewrite decide_False by lia.
      split; [|done]. split; [done|]. lia.
Qed.

Lemma capacity_after_growths_witness :
  capacity (entries one_name_table) = 8 * 2 ^ 0 ∧
  ∀ nm p h1, valid_name nm →
    wasm_insert_binding always one_name_table nm = Some (Some p, h1) →
    (capacity (entries h1) ≠ capacity (entries one_name_table)
     ↔ free_head one_name_table = None) ∧
    (free_head one_name_table = None →
     capacity (entries h1) =
       if decide (capacity (entries one_name_table) = 0) then INITIAL_HASH_CAPACITY
       else capacity (entries one_name_table) * 2).
Proof.
  apply (capacity_after_growths always 1 one_name_table).
  exact (grown_insert always 0 empty_hash (slice_of_string "a")
           one_name_inserted.1 one_name_inserted.2 0 one_name_table
           (grown_empty always) (ex_intro _ _ eq_refl) eq_refl eq_refl).
Defined.

(** The free list of a table with storage is empty exactly when no slot is
    free. *)
Lemma free_head_None_full h fl chain :
  wf h fl chain →
  free_head h = None ↔ ∀ s e, load h s = Some e → wasm_hash_entry_is_free e = false.
Proof.
  intros Hwf. rewrite (wf_fl_head _ _ _ Hwf). split.
  - intros Hh s e He. destruct (wasm_hash_entry_is_free e) eqn:Hf; [|done].
    pose proof (wf_fl_all _ _ _ Hwf _ _ He Hf) as Hin.
    destruct fl; [by apply not_elem_of_nil in Hin|done].
  - intros Hall. destruct fl as [|f fl']; [done|].
    destruct (wf_fl_link _ _ _ Hwf 0 f eq_refl) as (e & He & Hf & _).
    rewrite (Hall _ _ He) in Hf. done.
Qed.

Lemma hash_inv_table_ok h : hash_inv h → table_ok h.
Proof. intros [->|[_ ?]]; [by left|by right]. Qed.

Lemma find_binding_table_ok h nm :
  table_ok h → is_Some (wasm_hash_name nm) →
  ∃ r, find_binding_index_by_name h nm = Some r ∧
    ((∃ s e, load h s = Some e ∧
        wasm_string_slices_are_equal (name (binding e)) nm = true ∧
        r = index (binding e))
     ∨ (r = (-1)%Z ∧ unbound h nm)).
Proof.
  intros [->|(fl & chain & Hwf)] Hnm; [|by eapply find_binding_spec].
  exists (-1)%Z. split; [done|]. right. split; [done|]. intros s e He. done.
Qed.



Lemma one_name_table_inv : hash_inv one_name_table.
Proof.
  destruct (insert_record_spec always empty_hash (slice_of_string "a") 0)
    as (r & h1 & Hins & Hr); [by left|by eexists|].
  change (wasm_insert_binding always empty_hash (slice_of_string "a"))
    with (Some (Some one_name_inserted.1, one_name_inserted.2)) in Hins.
  injection Hins as <- <-. destruct Hr as (h2 & Hrec & Hinv & _).
  change (record_index one_name_inserted.2 one_name_inserted.1 0)
    with (Some one_name_table) in Hrec.
  by injection Hrec as <-.
Qed.


(** C10 fails for a null slice of non-zero length: hashing it reads through
    the null pointer before anything is compared. *)
Lemma null_name_with_length_stuck :
  insert_all always empty_hash [(slice_of_string "a", 0%Z)] = Some (Some one_name_table) ∧
  find_binding_index_by_name one_name_table {| start := None; len := 1 |} = None ∧
  find_binding_index_by_name one_name_table {| start := None; len := 1 |} ≠ Some (-1)%Z.
Proof. split; [vm_compute; reflexivity|]. split; [vm_compute; reflexivity|]. vm_compute. discriminate. Qed.

Lemma equal_null nm b :
  start nm = None →
  wasm_string_slices_are_equal nm b = false ∧ wasm_string_slices_are_equal b nm = false.
Proof.
  intros Hn. unfold wasm_string_slices_are_equal. rewrite Hn. by destruct (start b).
Qed.

Lemma find_loop_null fuel h s nm r :
  start nm = None → find_loop fuel h s nm = Some r → r = (-1)%Z.
Proof.
  intros Hn. revert s. induction fuel as [|fuel IH]; intros s; [done|]. simpl.
  destruct (load h s) as [e|]; [|done]. simpl.
  rewrite (proj2 (equal_null nm (name (binding e)) Hn)).
  destruct (next e) as [nxt|]; [|by intros [= <-]].
  destruct (load h nxt) as [ne|]; [|done]. simpl.
  destruct (wasm_hash_entry_is_free ne); [by intros [= <-]|]. apply IH.
Qed.

(** C10 (amended): a slice with a null start is equal to no slice, itself
    included; its lookup never returns anything but -1, in any table; and
    it does return -1 when the capacity is 0, and when the slice has length
    0 and the table is one built by insertions. *)
Theorem null_name_lookup h nm :
  start nm = None →
  (∀ b, wasm_string_slices_are_equal nm b = false ∧
        wasm_string_slices_are_equal b nm = false) ∧
  (∀ r, find_binding_index_by_name h nm = Some r → r = (-1)%Z) ∧
  (capacity (entries h) = 0 → find_binding_index_by_name h nm = Some (-1)%Z) ∧
  (len nm = 0 → table_ok h → find_binding_index_by_name h nm = Some (-1)%Z).
Proof.
  intros Hn. split; [intros b; by apply equal_null|].
  assert (∀ r, find_binding_index_by_name h nm = Some r → r = (-1)%Z) as Honly.
  { intros r. unfold find_binding_index_by_name. case_decide; [by intros [= <-]|].
    destruct (wasm_hash_main_entry h nm) as [m|]; [|done]. simpl.
    by apply find_loop_null. }
  split; [done|]. split.
  - intros Hc. unfold find_binding_index_by_name. by rewrite decide_True.
  - intros Hl Hok.
    destruct (find_binding_table_ok h nm Hok) as (r & Hr & _).
    { unfold wasm_hash_name. rewrite Hn, decide_True by done. eauto. }
    rewrite Hr. f_equal. by apply Honly.
Qed.

Lemma null_name_lookup_witness :
  (∀ b, wasm_string_slices_are_equal zero_slice b = false ∧
        wasm_string_slices_are_equal b zero_slice = false) ∧
  (∀ r, find_binding_index_by_name one_name_table zero_slice = Some r → r = (-1)%Z) ∧
  (capacity (entries one_name_table) = 0 →
   find_binding_index_by_name one_name_table zero_slice = Some (-1)%Z) ∧
  (len zero_slice = 0 → table_ok one_name_table →
   find_binding_index_by_name one_name_table zero_slice = Some (-1)%Z).
Proof. apply (null_name_lookup one_name_table zero_slice). reflexivity. Defined.

Lemma checked_access (v : list address) (index : Z) :
  ((index < 0 ∨ index >= Z.of_nat (length v))%Z →
   (if decide (index < 0 ∨ index >= Z.of_nat (length v))%Z then Some None
    else e ← vector_at v index; Some (Some e)) = Some None) ∧
  ((0 ≤ index < Z.of_nat (length v))%Z →
   ∃ e, v !! Z.to_nat index = Some e ∧
     (if decide (index < 0 ∨ index >= Z.of_nat (length v))%Z then Some None
      else e ← vector_at v index; Some (Some e)) = Some (Some e)).
Proof.
  split.
  - intros H. by rewrite decide_True.
  - intros H. rewrite decide_False by lia.
    destruct (lookup_lt_is_Some_2 v (Z.to_nat index)) as [e He]; [lia|].
    exists e. split; [done|]. unfold vector_at. rewrite decide_True by lia.
    by rewrite He.
Qed.

(** C8: the three getters return [NULL] when the resolved index is negative
    (an unbound name resolves to -1) or not below the size of their flat
    vector, and the element at the index otherwise; the vector is only read
    inside its bounds, so the getters return whenever the resolution does. *)
Theorem getters_check_bounds module var :
  element_or_null (wasm_get_index_from_var (func_bindings module) var)
    (funcs module) (wasm_get_func_by_var module var) ∧
  element_or_null (wasm_get_index_from_var (func_type_bindings module) var)
    (func_types module) (wasm_get_func_type_by_var module var) ∧
  element_or_null (wasm_get_index_from_var (import_bindings module) var)
    (imports module) (wasm_get_import_by_var module var).
Proof.
  split_and!; intros index Hres.
  - unfold wasm_get_func_by_var. rewrite Hres. apply checked_access.
  - unfold wasm_get_func_type_by_var. rewrite Hres. apply checked_access.
  - unfold wasm_get_import_by_var. rewrite Hres. apply checked_access.
Qed.

Lemma getters_check_bounds_witness :
  wasm_get_func_by_var small_module (WASM_VAR_TYPE_NAME (slice_of_string "missing"))
    = Some None ∧
  wasm_get_func_by_var small_module (WASM_VAR_TYPE_INDEX 2) = Some None ∧
  ∃ e, funcs small_module !! Z.to_nat 1 = Some e ∧
       wasm_get_func_by_var small_module (WASM_VAR_TYPE_INDEX 1) = Some (Some e).
Proof.
  split_and!.
  - apply (proj1 (getters_check_bounds small_module
                    (WASM_VAR_TYPE_NAME (slice_of_string "missing"))) (-1)%Z).
    + vm_compute. reflexivity.
    + left. lia.
  - apply (proj1 (getters_check_bounds small_module (WASM_VAR_TYPE_INDEX 2)) 2%Z).
    + reflexivity.
    + right. simpl. lia.
  - apply (proj1 (getters_check_bounds small_module (WASM_VAR_TYPE_INDEX 1)) 1%Z).
    + reflexivity.
    + simpl. lia.
Defined.



(** ** Extending a named-type list *)

Lemma store_replace_binding h p f e h' X :
  store h p f = Some h' → load h p = Some e →
  wasm_hash_entry_is_free e = false → wasm_hash_entry_is_free (f e) = false →
  occupied_bindings h ≡ₚ binding e :: X →
  occupied_bindings h' ≡ₚ binding (f e) :: X.
Proof.
  intros Hst He Hf Hf' Hp. pose proof (store_bindings _ _ _ _ _ Hst He) as Hb.
  unfold own in Hb. rewrite Hf, Hf' in Hb. simpl in Hb.
  apply (Permutation_cons_inv (a := binding e)).
  rewrite <- Hb, Hp. apply perm_swap.
Qed.

Lemma to_int_id z : int_range z → to_int z = z.
Proof.
  unfold int_range, to_int, INT_MIN, INT_MAX. intros Hz.
  rewrite Z.mod_small by lia. lia.
Qed.

Lemma to_int_range z : int_range (to_int z).
Proof.
  unfold int_range, to_int, INT_MIN, INT_MAX.
  pose proof (Z.mod_pos_bound (z - - 2 ^ 31) (2 ^ 32)). lia.
Qed.

Lemma to_int_add_r x y : to_int (x + to_int y) = to_int (x + y).
Proof.
  unfold to_int. f_equal.
  replace (x + ((y - INT_MIN) mod 2 ^ 32 + INT_MIN) - INT_MIN)%Z
    with (x + (y - INT_MIN) mod 2 ^ 32)%Z by lia.
  rewrite Zplus_mod_idemp_r. f_equal. lia.
Qed.

Section Extend.
Variable alloc_ok : nat → bool.

Lemma extend_bindings_S n i src dst last_type :
  extend_bindings alloc_ok (S n) i src dst last_type =
    (src_entry ← load src i;
     if wasm_hash_entry_is_free src_entry
     then extend_bindings alloc_ok n (S i) src dst last_type
     else
       '(dst_binding, dst) ← wasm_insert_binding alloc_ok dst (name (binding src_entry));
       match dst_binding with
       | None => Some (WASM_ERROR, dst)
       | Some p =>
           dst ← store dst p (set_binding (binding src_entry));
           e ← load dst p;
           dst ← store dst p (set_index (to_int (index (binding e) + last_type)));
           extend_bindings alloc_ok n (S i) src dst last_type
       end).
Proof. done. Qed.

Lemma extend_bindings_spec src n : ∀ i dst last_type,
  hash_inv dst → i + n ≤ length (data (entries src)) →
  ∃ r dst', extend_bindings alloc_ok n i src dst last_type = Some (r, dst') ∧
    hash_inv dst' ∧
    (r = WASM_OK →
     occupied_bindings dst' ≡ₚ
       (shift_binding last_type <$> occupied_entries (take n (drop i (data (entries src)))))
       ++ occupied_bindings dst) ∧
    ((∀ k, alloc_ok k = true) → r = WASM_OK).
Proof.
  induction n as [|n IH]; intros i dst last_type Hinv Hlen.
  { exists WASM_OK, dst. done. }
  assert (i < length (data (entries src))) as Hilt by lia.
  destruct (lookup_lt_is_Some_2 _ _ Hilt) as [se Hse].
  rewrite extend_bindings_S. rewrite (drop_S _ _ _ Hse).
  change (load src i = Some se) in Hse. rewrite Hse. simpl.
  rewrite occupied_entries_cons.
  destruct (wasm_hash_entry_is_free se) eqn:Hf.
  { destruct (IH (S i) dst last_type Hinv) as (r & dst' & Hrun & ? & ? & ?); [lia|].
    exists r, dst'. unfold own. rewrite Hf. done. }
  pose proof (proj1 (is_free_false_valid se) Hf) as Hv.
  destruct (insert_spec alloc_ok dst (name (binding se)) Hinv Hv) as (r & h1 & Hins & Hr).
  rewrite Hins. simpl. destruct r as [p|].
  - destruct Hr as (Hsz & (fl & chain & Hwf) & (e & He & Hb) & Hperm & _).
    destruct (store_total h1 p (set_binding (binding se))) as (h2 & Hst2 & _).
    { by apply lookup_lt_Some in He. }
    destruct (store_keep_name_wf h1 fl chain p e (set_binding (binding se)) h2 Hwf He)
      as (Hwf2 & Hl2 & _ & _ & Hs2); [by rewrite Hb|done|done|done|].
    rewrite Hst2. simpl. rewrite Hl2. simpl.
    destruct (store_total h2 p (set_index (to_int (index (binding se) + last_type))))
      as (h3 & Hst3 & _).
    { by apply lookup_lt_Some in Hl2. }
    destruct (store_keep_name_wf h2 fl chain p _
                (set_index (to_int (index (binding se) + last_type))) h3 Hwf2 Hl2)
      as (Hwf3 & Hl3 & _ & _ & Hs3); [done..|].
    rewrite Hst3. simpl.
    destruct (IH (S i) h3 last_type) as (r & dst' & Hrun & Hinv' & Hok & Hall); [|lia|].
    { right. split; [congruence|eauto]. }
    exists r, dst'. split; [done|]. split; [done|]. split; [|done].
    intros Hr. rewrite (Hok Hr). unfold own. rewrite Hf. simpl.
    assert (wasm_hash_entry_is_free e = false) as Hfe.
    { apply is_free_false_valid. by rewrite Hb. }
    rewrite <- Hb in Hperm.
    pose proof (store_replace_binding _ _ _ _ _ _ Hst2 He Hfe Hf Hperm) as Hp2.
    pose proof (store_replace_binding _ _ _ _ _ _ Hst3 Hl2 Hf Hf Hp2) as Hp3.
    rewrite Hp3. by rewrite <- Permutation_middle.
  - destruct Hr as (-> & _ & Hno). exists WASM_ERROR, dst.
    split; [done|]. split; [done|]. split; [done|].
    intros Hall. rewrite Hall in Hno. done.
Qed.

Lemma extend_bindings_split src last_type j n : ∀ i dst,
  extend_bindings alloc_ok (j + n) i src dst last_type =
    match extend_bindings alloc_ok j i src dst last_type with
    | Some (WASM_OK, d) => extend_bindings alloc_ok n (i + j) src d last_type
    | other => other
    end.
Proof.
  induction j as [|j IH]; intros i dst.
  { simpl. by rewrite Nat.add_0_r. }
  change (S j + n) with (S (j + n)). rewrite !extend_bindings_S.
  destruct (load src i) as [se|]; [|done]. simpl.
  replace (i + S j) with (S i + j) by lia.
  destruct (wasm_hash_entry_is_free se); [apply IH|].
  destruct (wasm_insert_binding alloc_ok dst (name (binding se))) as [[[p|] d]|]; try done.
  simpl. destruct (store d p (set_binding (binding se))) as [d2|]; [|done]. simpl.
  destruct (load d2 p) as [e|]; [|done]. simpl.
  destruct (store d2 p (set_index (to_int (index (binding e) + last_type)))) as [d3|]; [|done].
  simpl. apply IH.
Qed.

End Extend.

(** C6 (amended): for a destination whose table was built by insertions and
    a source table that is empty or well formed, [wasm_extend_type_bindings]
    returns; when it returns success the types of the result are those of
    [dst] followed by those of [src], and the occupied bindings of its table
    are those of [dst] and, for every occupied binding of [src], one with
    the same name and, as index, the [int] sum of its index and the number
    of types [dst] had: the sum itself when that is an [int], and the number
    of the range of [int] that differs from it by a multiple of [2^32]
    otherwise.  It returns [WASM_ERROR] when the types cannot be extended
    and when an insertion returns [NULL], and success when every allocation
    is granted. *)
Theorem extend_type_bindings_spec alloc_ok alloc_types_ok dst src :
  hash_inv (bindings dst) → table_ok (bindings src) →
  ∃ r dst',
    wasm_extend_type_bindings alloc_ok alloc_types_ok dst src = Some (r, dst') ∧
    (r = WASM_OK →
     types dst' = types dst ++ types src ∧
     occupied_bindings (bindings dst') ≡ₚ
       (shift_binding (to_int (Z.of_nat (length (types dst))))
          <$> occupied_bindings (bindings src))
       ++ occupied_bindings (bindings dst)) ∧
    (∀ b,
       name (shift_binding (to_int (Z.of_nat (length (types dst)))) b) = name b ∧
       index (shift_binding (to_int (Z.of_nat (length (types dst)))) b)
       = to_int (index b + Z.of_nat (length (types dst))) ∧
       int_range (index (shift_binding (to_int (Z.of_nat (length (types dst)))) b)) ∧
       (int_range (index b + Z.of_nat (length (types dst))) →
        index (shift_binding (to_int (Z.of_nat (length (types dst)))) b)
        = (index b + Z.of_nat (length (types dst)))%Z)) ∧
    (alloc_types_ok (length (types dst) + length (types src)) = false →
     r = WASM_ERROR) ∧
    (∀ j d e d1,
       alloc_types_ok (length (types dst) + length (types src)) = true →
       j < capacity (entries (bindings src)) →
       extend_bindings alloc_ok j 0 (bindings src) (bindings dst)
         (to_int (Z.of_nat (length (types dst)))) = Some (WASM_OK, d) →
       load (bindings src) j = Some e → wasm_hash_entry_is_free e = false →
       wasm_insert_binding alloc_ok d (name (binding e)) = Some (None, d1) →
       r = WASM_ERROR) ∧
    ((∀ k, alloc_ok k = true) →
     alloc_types_ok (length (types dst) + length (types src)) = true →
     r = WASM_OK).
Proof.
  intros Hinv Hsrc.
  assert (∀ b,
    name (shift_binding (to_int (Z.of_nat (length (types dst)))) b) = name b ∧
    index (shift_binding (to_int (Z.of_nat (length (types dst)))) b)
    = to_int (index b + Z.of_nat (length (types dst))) ∧
    int_range (index (shift_binding (to_int (Z.of_nat (length (types dst)))) b)) ∧
    (int_range (index b + Z.of_nat (length (types dst))) →
     index (shift_binding (to_int (Z.of_nat (length (types dst)))) b)
     = (index b + Z.of_nat (length (types dst)))%Z)) as Hshift.
  { intros b. unfold shift_binding. cbn [name index]. split_and!.
    - done.
    - apply to_int_add_r.
    - apply to_int_range.
    - intros Hr. rewrite to_int_add_r. by apply to_int_id. }
  unfold wasm_extend_type_bindings, wasm_extend_types.
  destruct (alloc_types_ok (length (types dst) + length (types src))) eqn:Hty.
  - assert (capacity (entries (bindings src)) = length (data (entries (bindings src))))
      as Hcap.
    { destruct Hsrc as [->|(fl & chain & Hwf)]; [done|apply Hwf]. }
    destruct (extend_bindings_spec alloc_ok (bindings src) (capacity (entries (bindings src)))
                0 (bindings dst) (to_int (Z.of_nat (length (types dst)))) Hinv)
      as (r & h & Hrun & _ & Hok & Hall); [lia|].
    rewrite Hrun. simpl. eexists _, _. split; [done|]. simpl. split_and!.
    + intros Hr. split; [done|]. rewrite (Hok Hr). simpl.
      by rewrite Hcap, firstn_all.
    + exact Hshift.
    + done.
    + intros j d e d1 _ Hj Hpre He Hf Hins.
      replace (capacity (entries (bindings src)))
        with (j + S (capacity (entries (bindings src)) - S j)) in Hrun by lia.
      rewrite extend_bindings_split, Hpre, extend_bindings_S in Hrun.
      simpl in Hrun. rewrite He in Hrun. simpl in Hrun. rewrite Hf, Hins in Hrun.
      simpl in Hrun. by injection Hrun as <- _.
    + intros Hallok _. by apply Hall.
  - eexists _, _. split; [done|]. split_and!; try done.
Qed.

Lemma two_name_table_inv : hash_inv two_name_table.
Proof.
  destruct (insert_all_spec always
              [(slice_of_string "b", 0%Z); (slice_of_string "c", 1%Z)] empty_hash)
    as (r & Hrun & _ & Hr); [by left| |].
  { refine (bool_decide_unpack _ _). vm_compute. exact I. }
  change (insert_all always empty_hash
            [(slice_of_string "b", 0%Z); (slice_of_string "c", 1%Z)])
    with (Some (Some two_name_table)) in Hrun.
  injection Hrun as <-. by destruct (Hr _ eq_refl).
Qed.

(** After the extension "b" and "c" are found at positions 1 and 2. *)
Example extend_run :
  ('(r, d) ← wasm_extend_type_bindings always always extend_dst extend_src;
   Some (r, types d,
         (λ s, find_binding_index_by_name (bindings d) (slice_of_string s))
           <$> ["a"; "b"; "c"]%string))
  = Some (WASM_OK, [WASM_TYPE_I32; WASM_TYPE_I64; WASM_TYPE_F32],
          [Some 0; Some 1; Some 2]%Z).
Proof. vm_compute. reflexivity. Qed.

(** Extending a list of one type by the name "b" bound to [INT_MAX] binds
    "b" to [INT_MIN], which is not [INT_MAX + 1]. *)
Lemma extend_index_overflows :
  ∃ dst',
    wasm_extend_type_bindings always always extend_dst overflow_src
      = Some (WASM_OK, dst') ∧
    occupied_bindings (bindings overflow_src)
      = [binding_of (slice_of_string "b", INT_MAX)] ∧
    find_binding_index_by_name (bindings dst') (slice_of_string "b") = Some INT_MIN ∧
    INT_MIN ≠ (INT_MAX + Z.of_nat (length (types extend_dst)))%Z.
Proof.
  eexists. split; [vm_compute; reflexivity|].
  split; [vm_compute; reflexivity|].
  split; [vm_compute; reflexivity|done].
Qed.

Lemma extend_type_bindings_spec_witness :
  ∃ r dst',
    wasm_extend_type_bindings always always extend_dst extend_src = Some (r, dst') ∧
    (r = WASM_OK →
     types dst' = types extend_dst ++ types extend_src ∧
     occupied_bindings (bindings dst') ≡ₚ
       (shift_binding (to_int (Z.of_nat (length (types extend_dst))))
          <$> occupied_bindings (bindings extend_src))
       ++ occupied_bindings (bindings extend_dst)) ∧
    (∀ b,
       name (shift_binding (to_int (Z.of_nat (length (types extend_dst)))) b) = name b ∧
       index (shift_binding (to_int (Z.of_nat (length (types extend_dst)))) b)
       = to_int (index b + Z.of_nat (length (types extend_dst))) ∧
       int_range (index (shift_binding (to_int (Z.of_nat (length (types extend_dst)))) b)) ∧
       (int_range (index b + Z.of_nat (length (types extend_dst))) →
        index (shift_binding (to_int (Z.of_nat (length (types extend_dst)))) b)
        = (index b + Z.of_nat (length (types extend_dst)))%Z)) ∧
    (always (length (types extend_dst) + length (types extend_src)) = false →
     r = WASM_ERROR) ∧
    (∀ j d e d1,
       always (length (types extend_dst) + length (types extend_src)) = true →
       j < capacity (entries (bindings extend_src)) →
       extend_bindings always j 0 (bindings extend_src) (bindings extend_dst)
         (to_int (Z.of_nat (length (types extend_dst)))) = Some (WASM_OK, d) →
       load (bindings extend_src) j = Some e → wasm_hash_entry_is_free e = false →
       wasm_insert_binding always d (name (binding e)) = Some (None, d1) →
       r = WASM_ERROR) ∧
    ((∀ k, always k = true) →
     always (length (types extend_dst) + length (types extend_src)) = true →
     r = WASM_OK).
Proof.
  apply (extend_type_bindings_spec always always extend_dst extend_src).
  - apply one_name_table_inv.
  - apply hash_inv_table_ok, two_name_table_inv.
Defined.

(** ** The format of the memory dump *)

Lemma string_app_cons a s1 s2 : String a s1 +:+ s2 = String a (s1 +:+ s2).
Proof. done. Qed.

Lemma string_app_nil_r s : s +:+ "" = s.
Proof. induction s as [|a s IH]; [done|]. by rewrite string_app_cons, IH. Qed.

Lemma string_app_assoc s1 s2 s3 : (s1 +:+ s2) +:+ s3 = s1 +:+ s2 +:+ s3.
Proof. induction s1 as [|a s1 IH]; [done|]. by rewrite !string_app_cons, IH. Qed.

Lemma string_length_app s1 s2 :
  String.length (s1 +:+ s2) = String.length s1 + String.length s2.
Proof. induction s1 as [|a s1 IH]; [done|]. rewrite string_app_cons. simpl. by rewrite IH. Qed.

Lemma hex_digits_length n v : String.length (hex_digits n v) = n.
Proof.
  revert v. induction n as [|n IH]; intros v; [done|].
  simpl. rewrite string_length_app, IH. simpl. lia.
Qed.

Lemma dump_groups_eq bytes n : ∀ fuel q,
  n < fuel →
  dump_groups fuel bytes q (q + 2 * n) =
    foldr String.app ""
      ((λ g, octet_text bytes (q + 2 * g) +:+ octet_text bytes (q + 2 * g + 1) +:+ " ")
         <$> seq 0 n).
Proof.
  induction n as [|n IH]; intros fuel q Hlt.
  { destruct fuel; [done|]. simpl. by rewrite decide_False by lia. }
  destruct fuel as [|fuel]; [lia|].
  cbn [dump_groups]. rewrite decide_True by lia.
  replace (q + 2 * S n) with (q + DUMP_OCTETS_PER_GROUP + 2 * n)
    by (unfold DUMP_OCTETS_PER_GROUP; lia).
  rewrite IH by lia. cbn [seq fmap list_fmap foldr].
  rewrite <- fmap_S_seq, <- list_fmap_compose.
  unfold DUMP_OCTETS_PER_GROUP. cbn [dump_group].
  rewrite string_app_nil_r, !string_app_assoc.
  replace (q + 2 * 0) with q by lia. replace (q + 1) with (S q) by lia.
  unfold octet_text. do 4 f_equal.
  apply list_fmap_ext. intros _ g _. simpl.
  by replace (q + 2 + (g + (g + 0))) with (q + S (g + S (g + 0))) by lia.
Qed.

Lemma dump_row_lookup bytes k i :
  i < 16 → dump_row bytes k !! i = bytes !! (16 * k + i).
Proof.
  intros Hi. unfold dump_row. rewrite lookup_take_lt by done. by rewrite lookup_drop.
Qed.

Lemma dump_groups_row bytes k :
  dump_groups DUMP_OCTETS_PER_LINE bytes (16 * k) (16 * k + DUMP_OCTETS_PER_LINE)
  = groups_text (dump_row bytes k).
Proof.
  change DUMP_OCTETS_PER_LINE with 16 at 2. replace 16 with (2 * 8) at 3 by done.
  rewrite dump_groups_eq by (unfold DUMP_OCTETS_PER_LINE; lia).
  unfold groups_text. f_equal. apply list_fmap_ext. intros i g Hg.
  apply lookup_seq in Hg as [-> Hg]. cbn beta.
  unfold octet_text. rewrite !dump_row_lookup by lia.
  by rewrite !Nat.add_0_l, Nat.add_assoc.
Qed.

Lemma dump_chars_eq bytes print_chars n : ∀ p,
  dump_chars n bytes p print_chars =
    (chars_text print_chars (take n (drop p bytes)),
     p + length (take n (drop p bytes))).
Proof.
  induction n as [|n IH]; intros p.
  { simpl. by rewrite Nat.add_0_r. }
  simpl. destruct (bytes !! p) as [b|] eqn:Hb.
  - rewrite IH, (drop_S _ _ _ Hb). simpl. f_equal. lia.
  - rewrite drop_ge by (by apply lookup_ge_None). simpl. by rewrite Nat.add_0_r.
Qed.

Lemma dump_line_eq bytes offset print_chars desc k :
  16 * k < length bytes →
  dump_line bytes offset print_chars desc (16 * k) =
    (line_text bytes offset print_chars desc k, min (16 * k + 16) (length bytes)).
Proof.
  intros Hk. unfold dump_line. rewrite dump_chars_eq, dump_groups_row.
  assert (16 * k + length (take DUMP_OCTETS_PER_LINE (drop (16 * k) bytes))
          = min (16 * k + 16) (length bytes)) as ->.
  { rewrite length_take, length_drop. unfold DUMP_OCTETS_PER_LINE. lia. }
  unfold line_text. rewrite string_app_assoc. f_equal. do 5 f_equal.
  destruct desc as [d|]; [|done].
  unfold dump_line_count.
  pose proof (Nat.div_mod_eq (length bytes + 15) 16) as Hd.
  pose proof (Nat.mod_upper_bound (length bytes + 15) 16).
  destruct (decide (length bytes ≤ 16 * k + 16)).
  - rewrite decide_True by lia. rewrite decide_True; [done|]. lia.
  - rewrite decide_False by lia. rewrite decide_False; [done|]. lia.
Qed.

Lemma dump_lines_done bytes offset print_chars desc fuel p :
  length bytes ≤ p → dump_lines fuel bytes offset print_chars desc p = [].
Proof. intros Hp. destruct fuel; [done|]. simpl. by rewrite decide_False by lia. Qed.

Lemma dump_lines_eq bytes offset print_chars desc fuel : ∀ k,
  length bytes ≤ fuel + 16 * k →
  dump_lines fuel bytes offset print_chars desc (16 * k) =
    line_text bytes offset print_chars desc
      <$> seq k (dump_line_count (length bytes) - k).
Proof.
  assert (∀ n, 16 * ((n + 15) / 16) < n + 16 ∧ n ≤ 16 * ((n + 15) / 16)) as Hdiv.
  { intros n. pose proof (Nat.div_mod_eq (n + 15) 16).
    pose proof (Nat.mod_upper_bound (n + 15) 16). lia. }
  induction fuel as [|fuel IH]; intros k Hfuel.
  { simpl. replace (dump_line_count (length bytes) - k) with 0; [done|].
    unfold dump_line_count. pose proof (Hdiv (length bytes)). lia. }
  cbn [dump_lines]. unfold dump_line_count. pose proof (Hdiv (length bytes)) as Hd.
  destruct (decide (16 * k < length bytes)) as [Hk|Hk].
  - rewrite dump_line_eq by done.
    replace ((length bytes + 15) / 16 - k) with (S ((length bytes + 15) / 16 - S k)) by lia.
    cbn [seq fmap list_fmap]. f_equal.
    destruct (decide (length bytes ≤ 16 * k + 16)).
    + rewrite dump_lines_done by lia.
      replace ((length bytes + 15) / 16 - S k) with 0 by lia. done.
    + replace (min (16 * k + 16) (length bytes)) with (16 * S k) by lia.
      apply IH. lia.
  - replace ((length bytes + 15) / 16 - k) with 0 by lia. done.
Qed.

Lemma hex_digit_printable n : printable (hex_digit n) = true.
Proof.
  unfold hex_digit. generalize (Z.to_nat n). intros k.
  do 16 (destruct k as [|k]; [reflexivity|]). reflexivity.
Qed.

Lemma printable_byte b : printable (ascii_of_byte b) = isprint b.
Proof. by destruct b. Qed.

Lemma count_newlines_app s1 s2 :
  count_newlines (s1 +:+ s2) = count_newlines s1 + count_newlines s2.
Proof.
  induction s1 as [|c s1 IH]; [done|].
  rewrite string_app_cons. simpl. rewrite IH. lia.
Qed.

Lemma count_newlines_concat l :
  count_newlines (foldr String.app "" l) = sum_list (count_newlines <$> l).
Proof.
  induction l as [|s l IH]; [done|].
  rewrite fmap_cons. change (sum_list (?a :: ?b)) with (a + sum_list b).
  cbn [foldr]. by rewrite count_newlines_app, IH.
Qed.

Lemma hex_digit_no_newline n : hex_digit n ≠ "010"%char.
Proof.
  pose proof (hex_digit_printable n) as Hp. intros Heq. by rewrite Heq in Hp.
Qed.

Lemma hex_digits_no_newline n : ∀ v, count_newlines (hex_digits n v) = 0.
Proof.
  induction n as [|n IH]; intros v; [done|].
  simpl. rewrite count_newlines_app, IH. simpl.
  by rewrite decide_False by apply hex_digit_no_newline.
Qed.

Lemma octet_text_no_newline row i : count_newlines (octet_text row i) = 0.
Proof.
  unfold octet_text. destruct (row !! i); [|done]. apply hex_digits_no_newline.
Qed.

Lemma groups_text_no_newline row : count_newlines (groups_text row) = 0.
Proof.
  unfold groups_text. cbn [seq fmap list_fmap foldr].
  rewrite !count_newlines_app, !octet_text_no_newline. done.
Qed.

Lemma chars_text_no_newline print_chars row :
  count_newlines (chars_text print_chars row) = 0.
Proof.
  unfold chars_text. induction row as [|b row IH]; [done|].
  cbn [fmap list_fmap foldr]. rewrite count_newlines_app.
  change (list_fmap _ _ ?f row) with (f <$> row). rewrite IH.
  destruct print_chars; [|done]. simpl.
  destruct (isprint b) eqn:Hb; [|done].
  rewrite decide_False; [done|]. intros Heq.
  pose proof (printable_byte b) as Hp. rewrite Heq, Hb in Hp. done.
Qed.

Lemma printf_07x_no_newline v : count_newlines (printf_07x v) = 0.
Proof. unfold printf_07x. case_decide; apply hex_digits_no_newline. Qed.

Lemma line_text_newlines bytes offset print_chars desc k :
  count_newlines (line_text bytes offset print_chars desc k)
  = 1 + match desc with
        | Some d => if decide (S k = dump_line_count (length bytes))
                    then count_newlines d else 0
        | None => 0
        end.
Proof.
  unfold line_text.
  rewrite !count_newlines_app, printf_07x_no_newline, groups_text_no_newline,
    chars_text_no_newline.
  destruct desc as [d|]; [|done]. case_decide; [|done].
  rewrite count_newlines_app. simpl. lia.
Qed.

Lemma sum_list_replicate_1 {A} (f : A → nat) (l : list A) :
  (∀ x, x ∈ l → f x = 1) → sum_list (f <$> l) = length l.
Proof.
  induction l as [|x l IH]; intros Hall; [done|].
  rewrite fmap_cons. change (f x + sum_list (f <$> l) = S (length l)).
  rewrite (Hall x) by (apply elem_of_cons; by left).
  rewrite IH; [done|]. intros y Hy. apply Hall. apply elem_of_cons. by right.
Qed.

Lemma sum_list_last_line (c n : nat) :
  sum_list ((λ k, 1 + if decide (S k = n) then c else 0) <$> seq 0 n)
  = n + if decide (n = 0) then 0 else c.
Proof.
  destruct n as [|n]; [done|].
  rewrite seq_S, fmap_app, sum_list_with_app.
  rewrite sum_list_replicate_1.
  - rewrite length_seq. cbn [fmap list_fmap sum_list_with].
    rewrite decide_True by done. rewrite decide_False by done. unfold id. lia.
  - intros k Hk%elem_of_seq. rewrite decide_False by lia. done.
Qed.

Lemma dump_line_count_0 n : dump_line_count n = 0 ↔ n = 0.
Proof.
  unfold dump_line_count.
  pose proof (Nat.div_mod_eq (n + 15) 16).
  pose proof (Nat.mod_upper_bound (n + 15) 16). lia.
Qed.

Lemma dump_newlines bytes offset print_chars desc :
  count_newlines
    (foldr String.app ""
       (line_text bytes offset print_chars desc <$> seq 0 (dump_line_count (length bytes))))
  = dump_line_count (length bytes)
    + match desc with
      | Some d => if decide (length bytes = 0) then 0 else count_newlines d
      | None => 0
      end.
Proof.
  rewrite count_newlines_concat, <- list_fmap_compose.
  destruct desc as [d|].
  - transitivity
      (sum_list
         ((λ k, 1 + if decide (S k = dump_line_count (length bytes))
                    then count_newlines d else 0)
            <$> seq 0 (dump_line_count (length bytes)))).
    + f_equal. apply list_fmap_ext. intros i k _. simpl. apply line_text_newlines.
    + rewrite sum_list_last_line. f_equal.
      destruct (decide (length bytes = 0)) as [H0|H0].
      * rewrite decide_True by (by apply dump_line_count_0). done.
      * rewrite decide_False by (by rewrite dump_line_count_0). done.
  - rewrite sum_list_replicate_1; [by rewrite length_seq|].
    intros k _. simpl. apply line_text_newlines.
Qed.

(** A description with a newline adds a line break to the last line. *)
Example dump_description_newline :
  wasm_print_memory [x41%byte] 0 false (Some ("a" +:+ newline +:+ "b"))
  = "0000000: 41                                         ; a" +:+ newline
    +:+ "b" +:+ newline ∧
  dump_line_count 1 = 1.
Proof. split; vm_compute; reflexivity. Qed.

(** The dump of one byte at display offset [0x10000000] begins with an
    address of eight digits, and at display offset [2^32] with the address 0. *)
Lemma dump_address_not_seven_digits :
  (∃ rest, wasm_print_memory [x00%byte] 0x10000000 false None
           = "10000000: 00" +:+ rest) ∧
  (∃ rest, wasm_print_memory [x00%byte] (2 ^ 32) false None
           = "0000000: 00" +:+ rest) ∧
  (0 + 2 ^ 32 ≠ 0)%Z.
Proof.
  split; [|split].
  - eexists. cbv. reflexivity.
  - eexists. cbv. reflexivity.
  - done.
Qed.

(** Seventeen bytes give two lines, the description on the second. *)
Example dump_17_bytes :
  length (dump_lines 17 (list_byte_of_string "ABCDEFGHIJKLMNOPQ") 0 true
            (Some "desc"%string) 0) = 2 ∧
  wasm_print_memory (list_byte_of_string "ABCDEFGHIJKLMNOPQ") 0 true (Some "desc"%string)
  = "0000000: 4142 4344 4546 4748 494a 4b4c 4d4e 4f50  ABCDEFGHIJKLMNOP" +:+ newline
    +:+ "0000010: 51                                       Q  ; desc" +:+ newline.
Proof. split; vm_compute; reflexivity. Qed.

(** C7 (amended): the dump of a buffer of [S] bytes is the text of
    [ceil(S/16)] lines, one after the other.  Line [k] is the address
    [16 k + offset], cut to 32 bits and written in hexadecimal with zeros to
    at least 7 digits (exactly 7, and the address itself, below [2^28];
    8 when the address cut to 32 bits is [2^28] or more), then ": ", 8 groups
    of 2 octets of the [k]-th row of 16 bytes, each group followed by a
    space and an octet past the end of the buffer written as two spaces,
    then a space, the characters when asked for, the description on the last
    line only (the line that holds the last byte), and a newline.  The
    output holds [ceil(S/16)] newline characters and those of the
    description, so [ceil(S/16)] of them when the description holds none.
    Seventeen bytes give two lines. *)
Theorem memory_dump_format bytes offset print_chars desc :
  dump_lines (length bytes) bytes offset print_chars desc 0
    = line_text bytes offset print_chars desc <$> seq 0 (dump_line_count (length bytes)) ∧
  wasm_print_memory bytes offset print_chars desc
    = foldr String.app ""
        (line_text bytes offset print_chars desc <$> seq 0 (dump_line_count (length bytes))) ∧
  length (dump_lines (length bytes) bytes offset print_chars desc 0)
    = dump_line_count (length bytes) ∧
  count_newlines (wasm_print_memory bytes offset print_chars desc)
    = dump_line_count (length bytes)
      + match desc with
        | Some d => if decide (length bytes = 0) then 0 else count_newlines d
        | None => 0
        end ∧
  ((∀ d, desc = Some d → count_newlines d = 0) →
   count_newlines (wasm_print_memory bytes offset print_chars desc)
   = dump_line_count (length bytes)) ∧
  (∀ v, (7 ≤ String.length (printf_07x v) ≤ 8) ∧
        printf_07x v = printf_07x (v mod 2 ^ 32) ∧
        ((0 ≤ v < 2 ^ 28)%Z →
         printf_07x v = hex_digits 7 v ∧ String.length (printf_07x v) = 7) ∧
        ((2 ^ 28 ≤ v mod 2 ^ 32)%Z →
         printf_07x v = hex_digits 8 (v mod 2 ^ 32) ∧
         String.length (printf_07x v) = 8)) ∧
  (∀ k, 0 < length bytes →
        S k = dump_line_count (length bytes) ↔ 16 * k ≤ length bytes - 1 < 16 * (k + 1)) ∧
  (length bytes = 17 → dump_line_count (length bytes) = 2).
Proof.
  assert (dump_lines (length bytes) bytes offset print_chars desc 0
    = line_text bytes offset print_chars desc <$> seq 0 (dump_line_count (length bytes)))
    as Heq.
  { change 0 with (16 * 0) at 1.
    rewrite (dump_lines_eq bytes offset print_chars desc (length bytes) 0) by lia.
    by rewrite Nat.sub_0_r. }
  assert (count_newlines (wasm_print_memory bytes offset print_chars desc)
    = dump_line_count (length bytes)
      + match desc with
        | Some d => if decide (length bytes = 0) then 0 else count_newlines d
        | None => 0
        end) as Hnl.
  { unfold wasm_print_memory. rewrite Heq. apply dump_newlines. }
  split_and!.
  - done.
  - unfold wasm_print_memory. by rewrite Heq.
  - by rewrite Heq, length_fmap, length_seq.
  - done.
  - intros Hd. rewrite Hnl. destruct desc as [d|]; [|lia].
    rewrite (Hd d eq_refl). case_decide; lia.
  - clear Hnl. intros v. unfold printf_07x. cbv zeta. split; [|split; [|split]].
    + case_decide; rewrite hex_digits_length; lia.
    + by rewrite Z.mod_mod.
    + intros Hv. rewrite Z.mod_small by lia. rewrite decide_True by lia.
      by rewrite hex_digits_length.
    + intros Hv. rewrite decide_False by lia. by rewrite hex_digits_length.
  - intros k Hpos. unfold dump_line_count.
    pose proof (Nat.div_mod_eq (length bytes + 15) 16).
    pose proof (Nat.mod_upper_bound (length bytes + 15) 16). lia.
  - intros ->. done.
Qed.

Lemma memory_dump_format_witness :
  length (dump_lines 17 (list_byte_of_string "ABCDEFGHIJKLMNOPQ") 0 true
            (Some "desc"%string) 0) = 2 ∧
  count_newlines
    (wasm_print_memory (list_byte_of_string "ABCDEFGHIJKLMNOPQ") 0 true
       (Some "desc"%string)) = 2 ∧
  String.length (printf_07x 16) = 7 ∧
  String.length (printf_07x 0x10000000) = 8 ∧
  (S 1 = dump_line_count 17 ↔ 16 * 1 ≤ 17 - 1 < 16 * (1 + 1)).
Proof.
  destruct (memory_dump_format (list_byte_of_string "ABCDEFGHIJKLMNOPQ") 0 true
              (Some "desc"%string)) as (_ & _ & Hlen & _ & Hnl & Hadr & Hlast & Hcount).
  split_and!.
  - exact Hlen.
  - apply Hnl. intros d [= <-]. reflexivity.
  - apply (Hadr 16%Z). lia.
  - apply (Hadr 0x10000000%Z). reflexivity.
  - apply (Hlast 1). simpl. lia.
Defined.

(** * Further properties *)

(** ** Equality and hashing of names *)

Lemma equal_sym a b :
  wasm_string_slices_are_equal a b = wasm_string_slices_are_equal b a.
Proof.
  apply Bool.eq_iff_eq_true. rewrite !equal_iff_key.
  split; intros (Ha & Hb & Hk); split_and!; done.
Qed.

Lemma equal_trans a b c :
  wasm_string_slices_are_equal a b = true →
  wasm_string_slices_are_equal b c = true →
  wasm_string_slices_are_equal a c = true.
Proof.
  rewrite !equal_iff_key. intros (Ha & _ & Hab) (_ & Hc & Hbc).
  split_and!; [done..|congruence].
Qed.

(** Equal names compare alike with every third name. *)
Lemma equal_congr a b x :
  wasm_string_slices_are_equal a b = true →
  wasm_string_slices_are_equal x a = wasm_string_slices_are_equal x b.
Proof.
  intros Hab. apply Bool.eq_iff_eq_true. split; intros H.
  - by apply (equal_trans x a b).
  - apply (equal_trans x b a); [done|]. by rewrite equal_sym.
Qed.

(** X1: [wasm_string_slices_are_equal] is symmetric and transitive; a slice
    is equal to itself exactly when its start pointer is not null; and two
    slices with non-null starts are equal exactly when their lengths agree
    and their first [length] bytes do, whatever follows those bytes. *)
Theorem slice_equality_partial_equivalence :
  (∀ a b, wasm_string_slices_are_equal a b = wasm_string_slices_are_equal b a) ∧
  (∀ a b c, wasm_string_slices_are_equal a b = true →
            wasm_string_slices_are_equal b c = true →
            wasm_string_slices_are_equal a c = true) ∧
  (∀ a, wasm_string_slices_are_equal a a = true ↔ is_Some (start a)) ∧
  (∀ a b pa pb,
     start a = Some pa → start b = Some pb →
     (wasm_string_slices_are_equal a b = true
      ↔ len a = len b ∧ take (len a) pa = take (len a) pb)).
Proof.
  split; [apply equal_sym|]. split; [apply equal_trans|]. split.
  - intros a. rewrite equal_iff_key. unfold valid_name.
    split; [by intros (? & _)|by intros ?].
  - intros a b pa pb Ha Hb. unfold wasm_string_slices_are_equal, slice_bytes.
    rewrite Ha, Hb, andb_true_iff, !bool_decide_eq_true. done.
Qed.

Lemma fnv1a_fold_range l : ∀ acc,
  (0 ≤ acc < 2 ^ 32)%Z → (0 ≤ fold_left fnv1a_step l acc < 2 ^ 32)%Z.
Proof.
  induction l as [|b l IH]; intros acc Hacc; [done|].
  simpl. apply IH. unfold fnv1a_step. apply Z.mod_pos_bound. lia.
Qed.

(** X2: [wasm_hash_name] has no result exactly for a null start with a
    non-zero length (the loop reads through the null pointer); every value
    it returns fits in 32 bits; and a name of length 0 hashes to the FNV
    offset basis. *)
Theorem hash_name_32_bits nm :
  (wasm_hash_name nm = None ↔ start nm = None ∧ len nm ≠ 0) ∧
  (∀ hv, wasm_hash_name nm = Some hv → (0 ≤ hv < 2 ^ 32)%Z) ∧
  (len nm = 0 → wasm_hash_name nm = Some fnv_offset_basis).
Proof.
  unfold wasm_hash_name, slice_bytes. destruct (start nm) as [bs|]; split_and!.
  - split; [done|]. by intros [? _].
  - intros hv [= <-]. apply fnv1a_fold_range. unfold fnv_offset_basis. lia.
  - intros ->. by rewrite take_0.
  - case_decide; [split; [done|]; intros [_ ?]; done|]. done.
  - intros hv. case_decide; [|done]. intros [= <-]. unfold fnv_offset_basis. lia.
  - intros ->. done.
Qed.

(** X3: names that [wasm_string_slices_are_equal] accepts have the same
    hash and, in every table, the same main slot; [wasm_hash_main_entry]
    divides by the capacity, so it has no result when the capacity is 0, and
    otherwise the slot lies inside the array. *)
Theorem equal_names_share_main_slot a b :
  wasm_string_slices_are_equal a b = true →
  wasm_hash_name a = wasm_hash_name b ∧
  ∀ h, wasm_hash_main_entry h a = wasm_hash_main_entry h b ∧
       (capacity (entries h) = 0 → wasm_hash_main_entry h a = None) ∧
       (capacity (entries h) ≠ 0 →
        ∃ m, wasm_hash_main_entry h a = Some m ∧ m < capacity (entries h)).
Proof.
  intros Hab. split; [by apply equal_same_hash|]. intros h. split_and!.
  - by apply equal_same_main.
  - intros Hc. unfold wasm_hash_main_entry. rewrite Hc.
    by destruct (wasm_hash_name a).
  - intros Hc. apply main_entry_valid; [lia|].
    by apply equal_iff_key in Hab as (? & _).
Qed.

Lemma equal_names_share_main_slot_witness :
  wasm_hash_name (slice_of_string "abc")
    = wasm_hash_name {| start := Some (list_byte_of_string "abcdef"); len := 3 |} ∧
  ∀ h, wasm_hash_main_entry h (slice_of_string "abc")
       = wasm_hash_main_entry h {| start := Some (list_byte_of_string "abcdef"); len := 3 |} ∧
       (capacity (entries h) = 0 → wasm_hash_main_entry h (slice_of_string "abc") = None) ∧
       (capacity (entries h) ≠ 0 →
        ∃ m, wasm_hash_main_entry h (slice_of_string "abc") = Some m
             ∧ m < capacity (entries h)).
Proof.
  apply (equal_names_share_main_slot (slice_of_string "abc")
           {| start := Some (list_byte_of_string "abcdef"); len := 3 |}).
  vm_compute. reflexivity.
Defined.

(** ** Lookup *)

Lemma find_loop_congr a b h : ∀ fuel s,
  wasm_string_slices_are_equal a b = true →
  find_loop fuel h s a = find_loop fuel h s b.
Proof.
  induction fuel as [|fuel IH]; intros s Hab; [done|].
  simpl. destruct (load h s) as [e|]; [|done]. simpl.
  rewrite (equal_congr a b _ Hab).
  destruct (wasm_string_slices_are_equal (name (binding e)) b); [done|].
  destruct (next e) as [nxt|]; [|done].
  destruct (load h nxt) as [ne|]; [|done]. simpl.
  destruct (wasm_hash_entry_is_free ne); [done|]. by apply IH.
Qed.

(** X4: the lookup depends on the characters of the name only:
    [find_binding_index_by_name], and so [wasm_get_index_from_var] on a
    name, give the same answer for two equal names in every table, even an
    ill-formed one. *)
Theorem lookup_of_equal_names h a b :
  wasm_string_slices_are_equal a b = true →
  find_binding_index_by_name h a = find_binding_index_by_name h b ∧
  wasm_get_index_from_var h (WASM_VAR_TYPE_NAME a)
    = wasm_get_index_from_var h (WASM_VAR_TYPE_NAME b).
Proof.
  intros Hab.
  assert (find_binding_index_by_name h a = find_binding_index_by_name h b); [|done].
  unfold find_binding_index_by_name. case_decide; [done|].
  rewrite (equal_same_main h h a b eq_refl Hab).
  destruct (wasm_hash_main_entry h b); [|done]. simpl. by apply find_loop_congr.
Qed.

Lemma lookup_of_equal_names_witness :
  find_binding_index_by_name one_name_table (slice_of_string "a")
    = find_binding_index_by_name one_name_table
        {| start := Some (list_byte_of_string "ab"); len := 1 |} ∧
  wasm_get_index_from_var one_name_table (WASM_VAR_TYPE_NAME (slice_of_string "a"))
    = wasm_get_index_from_var one_name_table
        (WASM_VAR_TYPE_NAME {| start := Some (list_byte_of_string "ab"); len := 1 |}).
Proof.
  apply (lookup_of_equal_names one_name_table (slice_of_string "a")
           {| start := Some (list_byte_of_string "ab"); len := 1 |}).
  vm_compute. reflexivity.
Defined.

Lemma equal_entry_occupied h s e nm :
  load h s = Some e → wasm_string_slices_are_equal (name (binding e)) nm = true →
  binding e ∈ occupied_bindings h.
Proof.
  intros He Heq. apply elem_of_occupied_bindings. exists s, e. split_and!; [done| |done].
  apply is_free_false_valid. by apply equal_iff_key in Heq as (? & _).
Qed.

(** The two outcomes of a lookup, in terms of the bindings of the table. *)
Lemma lookup_cases h nm :
  table_ok h → is_Some (wasm_hash_name nm) →
  ∃ r, find_binding_index_by_name h nm = Some r ∧
    ((∃ b, b ∈ occupied_bindings h ∧
           wasm_string_slices_are_equal (name b) nm = true ∧ index b = r)
     ∨ (r = (-1)%Z ∧
        ∀ b, b ∈ occupied_bindings h →
             wasm_string_slices_are_equal (name b) nm = false)).
Proof.
  intros Hok Hnm.
  destruct (find_binding_table_ok h nm Hok Hnm) as (r & Hr & [(s & e & He & Heq & ->)|[-> Hun]]).
  - exists (index (binding e)). split; [done|]. left. exists (binding e).
    split_and!; [by eapply equal_entry_occupied|done..].
  - exists (-1)%Z. split; [done|]. right. split; [done|].
    intros b (s & e & He & _ & <-)%elem_of_occupied_bindings. by apply (Hun s e).
Qed.

(** X5: in the empty table or a well-formed one the lookup of a name that
    can be hashed returns; the result is the index stored with some occupied
    binding of an equal name, or it is -1 and no occupied binding has an
    equal name; when the bindings of the name all carry one index, that
    index is the result. *)
Theorem lookup_sound h nm :
  table_ok h → is_Some (wasm_hash_name nm) →
  ∃ r, find_binding_index_by_name h nm = Some r ∧
    ((∃ b, b ∈ occupied_bindings h ∧
           wasm_string_slices_are_equal (name b) nm = true ∧ index b = r)
     ∨ (r = (-1)%Z ∧
        ∀ b, b ∈ occupied_bindings h →
             wasm_string_slices_are_equal (name b) nm = false)) ∧
    (∀ b, b ∈ occupied_bindings h →
          wasm_string_slices_are_equal (name b) nm = true →
          (∀ b', b' ∈ occupied_bindings h →
                 wasm_string_slices_are_equal (name b') nm = true → index b' = index b) →
          r = index b).
Proof.
  intros Hok Hnm. destruct (lookup_cases h nm Hok Hnm) as (r & Hr & Hcase).
  exists r. split; [done|]. split; [done|]. intros b Hb Heq Hall.
  destruct Hcase as [(b' & Hb' & Heq' & <-)|[_ Hno]].
  - by apply Hall.
  - rewrite (Hno b Hb) in Heq. done.
Qed.

Lemma one_name_table_ok : table_ok one_name_table.
Proof. apply hash_inv_table_ok, one_name_table_inv. Qed.

Lemma one_name_bindings :
  occupied_bindings one_name_table = [binding_of (slice_of_string "a", 0%Z)].
Proof. vm_compute. reflexivity. Qed.

Lemma lookup_sound_witness :
  ∃ r, find_binding_index_by_name one_name_table (slice_of_string "a") = Some r ∧
    ((∃ b, b ∈ occupied_bindings one_name_table ∧
           wasm_string_slices_are_equal (name b) (slice_of_string "a") = true ∧
           index b = r)
     ∨ (r = (-1)%Z ∧
        ∀ b, b ∈ occupied_bindings one_name_table →
             wasm_string_slices_are_equal (name b) (slice_of_string "a") = false)) ∧
    (∀ b, b ∈ occupied_bindings one_name_table →
          wasm_string_slices_are_equal (name b) (slice_of_string "a") = true →
          (∀ b', b' ∈ occupied_bindings one_name_table →
                 wasm_string_slices_are_equal (name b') (slice_of_string "a") = true →
                 index b' = index b) →
          r = index b).
Proof.
  apply (lookup_sound one_name_table (slice_of_string "a")).
  - apply one_name_table_ok.
  - by eexists.
Defined.

(** ** Insertion and the other names *)




(** X7: after an insertion the inserted name is always found.  Before the
    caller assigns the index the lookup gives 0 or the index of an earlier
    binding of an equal name, afterwards the assigned index or that of an
    earlier binding; when the name was not bound before, the results are 0
    and the assigned index. *)
Theorem inserted_name_is_found alloc_ok h nm i p h1 h2 :
  hash_inv h → valid_name nm →
  wasm_insert_binding alloc_ok h nm = Some (Some p, h1) →
  record_index h1 p i = Some h2 →
  ∃ r0 r, find_binding_index_by_name h1 nm = Some r0 ∧
          find_binding_index_by_name h2 nm = Some r ∧
    (r0 = 0%Z ∨ ∃ b, b ∈ occupied_bindings h ∧
                  wasm_string_slices_are_equal (name b) nm = true ∧ index b = r0) ∧
    (r = i ∨ ∃ b, b ∈ occupied_bindings h ∧
                  wasm_string_slices_are_equal (name b) nm = true ∧ index b = r) ∧
    ((∀ b, b ∈ occupied_bindings h →
           wasm_string_slices_are_equal (name b) nm = false) → r0 = 0%Z ∧ r = i).
Proof.
  intros Hinv Hv Hins Hrec.
  assert (is_Some (wasm_hash_name nm)) as Hnm.
  { destruct Hv as [bs Hbs]. unfold wasm_hash_name. rewrite Hbs. eauto. }
  destruct (insert_spec alloc_ok h nm Hinv Hv) as (r & h1' & Hins' & Hr).
  rewrite Hins in Hins'. injection Hins' as <- <-.
  destruct Hr as (_ & Hwf1 & _ & Hperm1 & _).
  destruct (insert_record_spec alloc_ok h nm i Hinv Hv) as (r & h1' & Hins' & Hr).
  rewrite Hins in Hins'. injection Hins' as <- <-.
  destruct Hr as (h2' & Hrec' & Hinv2 & _ & _ & Hperm2 & _).
  rewrite Hrec in Hrec'. injection Hrec' as <-.
  assert (∀ h' b0, table_ok h' → name b0 = nm →
            occupied_bindings h' ≡ₚ b0 :: occupied_bindings h →
            ∃ r, find_binding_index_by_name h' nm = Some r ∧
              (r = index b0 ∨ ∃ b, b ∈ occupied_bindings h ∧
                 wasm_string_slices_are_equal (name b) nm = true ∧ index b = r)) as Hfound.
  { intros h' b0 Hok' Hn0 Hperm.
    destruct (lookup_cases h' nm Hok' Hnm) as (r & Hr & [(b & Hb & Heq & <-)|[-> Hno]]).
    - exists (index b). split; [done|]. rewrite Hperm in Hb.
      apply elem_of_cons in Hb as [->|Hb]; [by left|right; eauto].
    - specialize (Hno b0). rewrite Hn0, equal_refl in Hno by done.
      exfalso. assert (true = false); [|done].
      apply Hno. rewrite Hperm. apply elem_of_cons. by left. }
  destruct (Hfound h1 (new_binding nm)) as (r0 & Hr0 & Hc0); [by right|done|done|].
  destruct (Hfound h2 {| name := nm; index := i |}) as (r & Hr & Hc);
    [by apply hash_inv_table_ok|done|done|].
  exists r0, r. split_and!; try done.
  intros Hno. split.
  - destruct Hc0 as [->|(b & Hb & Heq & _)]; [done|]. rewrite (Hno b Hb) in Heq. done.
  - destruct Hc as [->|(b & Hb & Heq & _)]; [done|]. rewrite (Hno b Hb) in Heq. done.
Qed.

Lemma inserted_name_is_found_witness :
  ∃ p h1 h2,
    wasm_insert_binding always one_name_table (slice_of_string "a") = Some (Some p, h1) ∧
    record_index h1 p 7 = Some h2 ∧
    ∃ r0 r, find_binding_index_by_name h1 (slice_of_string "a") = Some r0 ∧
            find_binding_index_by_name h2 (slice_of_string "a") = Some r ∧
      (r0 = 0%Z ∨ ∃ b, b ∈ occupied_bindings one_name_table ∧
         wasm_string_slices_are_equal (name b) (slice_of_string "a") = true ∧
         index b = r0) ∧
      (r = 7%Z ∨ ∃ b, b ∈ occupied_bindings one_name_table ∧
         wasm_string_slices_are_equal (name b) (slice_of_string "a") = true ∧
         index b = r) ∧
      ((∀ b, b ∈ occupied_bindings one_name_table →
             wasm_string_slices_are_equal (name b) (slice_of_string "a") = false) →
       r0 = 0%Z ∧ r = 7%Z).
Proof.
  eexists _, _, _. split; [vm_compute; reflexivity|]. split; [vm_compute; reflexivity|].
  eapply (inserted_name_is_found always one_name_table (slice_of_string "a") 7).
  - apply one_name_table_inv.
  - by eexists.
  - vm_compute. reflexivity.
  - vm_compute. reflexivity.
Defined.

(** X8: in a table built by insertions [wasm_insert_binding] returns for
    every valid name; it returns [NULL] exactly when the free list is empty
    and the allocation of the larger table is refused, and then the table is
    left as it was; otherwise the returned pointer is a slot of the table,
    which is again a table built by insertions. *)
Theorem insertion_fails_only_without_memory alloc_ok h nm :
  hash_inv h → valid_name nm →
  ∃ r h', wasm_insert_binding alloc_ok h nm = Some (r, h') ∧
    (r = None ↔ free_head h = None ∧ alloc_ok (grown_capacity h) = false) ∧
    (r = None → h' = h) ∧
    (∀ p, r = Some p → p < capacity (entries h') ∧ hash_inv h').
Proof.
  intros Hinv Hv. destruct (insert_spec alloc_ok h nm Hinv Hv) as (r & h' & Hins & Hr).
  exists r, h'. split; [done|]. destruct r as [p|].
  - destruct Hr as (Hsz & (fl & chain & Hwf) & (e & He & _) & _ & Hgrow). split_and!.
    + split; [done|]. intros [Hfh Hno]. rewrite Hfh in Hgrow.
      destruct Hgrow as [Hyes _]. congruence.
    + done.
    + intros p' [= <-]. split.
      * apply lookup_lt_Some in He. rewrite (wf_cap _ _ _ Hwf). done.
      * right. eauto.
  - destruct Hr as (-> & Hfh & Hno). split_and!; done.
Qed.

Lemma insertion_fails_only_without_memory_witness :
  ∃ r h', wasm_insert_binding always one_name_table (slice_of_string "b") = Some (r, h') ∧
    (r = None ↔ free_head one_name_table = None
                ∧ always (grown_capacity one_name_table) = false) ∧
    (r = None → h' = one_name_table) ∧
    (∀ p, r = Some p → p < capacity (entries h') ∧ hash_inv h').
Proof.
  apply (insertion_fails_only_without_memory always one_name_table (slice_of_string "b")).
  - apply one_name_table_inv.
  - by eexists.
Defined.

Lemma insert_size alloc_ok h nm p h' :
  hash_inv h → valid_name nm →
  wasm_insert_binding alloc_ok h nm = Some (Some p, h') →
  size (entries h') = match free_head h with None => 1 | Some _ => S (size (entries h)) end.
Proof.
  intros Hinv Hv. unfold wasm_insert_binding.
  assert (∀ h1 fl chain, wf h1 fl chain → fl ≠ [] →
    ∃ p h2, is_Some (free_head h1) ∧
      wasm_hash_new_entry h1 nm = Some (p, h2) ∧
      size (entries h2) = size (entries h1)) as Hnew.
  { intros h1 fl chain Hwf Hne.
    destruct (new_entry_spec h1 fl chain nm Hwf Hv Hne)
      as (p' & h2 & fl' & chain' & Hex & _ & _ & _ & ? & _).
    exists p', h2. split_and!; try done.
    rewrite (wf_fl_head _ _ _ Hwf). destruct fl; [done|]. by eexists. }
  assert (∀ h0 desired, capacity (entries h0) = length (data (entries h0)) →
    capacity (entries h0) < desired →
    (r0 ← wasm_hash_resize alloc_ok h0 desired;
     let '(r, hash) := r0 in
     if decide (r ≠ WASM_OK) then Some (None, hash)
     else
       r1 ← (match free_head hash with
             | None => wasm_hash_resize alloc_ok hash (capacity (entries hash) * 2)
             | Some _ => Some (WASM_OK, hash)
             end);
       let '(r, hash) := r1 in
       if decide (r ≠ WASM_OK) then Some (None, hash)
       else
         r2 ← wasm_hash_new_entry hash nm;
         let '(entry, hash) := r2 in
         Some (Some entry, with_size hash (S (size (entries hash))))) = Some (Some p, h') →
    size (entries h') = 1) as Hgrown.
  { intros h0 desired Hc Hlt.
    destruct (resize_spec alloc_ok h0 desired Hc Hlt)
      as [[_ Hres]|(_ & h1 & fl & chain & Hres & Hwf & Hne & _ & Hs & _)].
    - rewrite Hres. simpl. done.
    - rewrite Hres. simpl.
      destruct (Hnew h1 fl chain Hwf Hne) as (p' & h2 & [f Hfh] & Hex & Hs2).
      rewrite Hfh. simpl. rewrite Hex. simpl. intros [= _ <-]. simpl. lia. }
  destruct Hinv as [->|(Hsz & fl & chain & Hwf)].
  - simpl. intros Hrun. apply (Hgrown empty_hash INITIAL_HASH_CAPACITY); try done.
    simpl. unfold INITIAL_HASH_CAPACITY. lia.
  - rewrite decide_False by done. simpl.
    destruct (free_head h) as [f|] eqn:Hfh.
    + assert (fl ≠ []) as Hne.
      { intros ->. rewrite (wf_fl_head _ _ _ Hwf) in Hfh. done. }
      destruct (Hnew h fl chain Hwf Hne) as (p' & h2 & _ & Hex & Hs2).
      simpl. rewrite Hex. simpl. intros [= _ <-]. simpl. lia.
    + simpl.
      destruct (resize_spec alloc_ok h (capacity (entries h) * 2))
        as [[_ Hres]|(_ & h1 & fl1 & chain1 & Hres & Hwf1 & Hne & _ & Hs & _)].
      { apply Hwf. } { pose proof (wf_pos _ _ _ Hwf). lia. }
      * rewrite Hres. simpl. done.
      * rewrite Hres. simpl.
        destruct (Hnew h1 fl1 chain1 Hwf1 Hne) as (p' & h2 & _ & Hex & Hs2).
        rewrite Hex. simpl. intros [= _ <-]. simpl. lia.
Qed.

(** ** Free slots and the number of bindings *)

Lemma filter_all_length {A} (P : A → Prop) `{∀ x, Decision (P x)} (l : list A) :
  Forall P l → length (filter P l) = length l.
Proof.
  induction 1 as [|x l Hx _ IH]; [done|].
  rewrite filter_cons_True by done. simpl. by rewrite IH.
Qed.

Lemma occupied_count h :
  length (occupied_bindings h) ≤ length (data (entries h)) ∧
  (length (occupied_bindings h) = length (data (entries h))
   ↔ ∀ s e, load h s = Some e → wasm_hash_entry_is_free e = false).
Proof.
  unfold occupied_bindings, occupied_entries. rewrite length_fmap. split.
  - apply length_filter.
  - split.
    + intros Hlen s e He. destruct (wasm_hash_entry_is_free e) eqn:Hf; [|done].
      exfalso.
      pose proof (length_filter_lt (λ e, wasm_hash_entry_is_free e = false)
                    (data (entries h)) e) as Hlt.
      rewrite Hlen in Hlt. apply (Nat.lt_irrefl (length (data (entries h)))).
      apply Hlt; [by eapply list_elem_of_lookup_2|congruence].
    + intros Hall. apply filter_all_length. apply Forall_lookup. intros s e He.
      by apply (Hall s e).
Qed.

Lemma full_iff_no_free_slot h :
  hash_inv h →
  (free_head h = None ↔ length (occupied_bindings h) = capacity (entries h)).
Proof.
  intros [->|(_ & fl & chain & Hwf)]; [done|].
  rewrite (wf_cap _ _ _ Hwf), (proj2 (occupied_count h)).
  by apply free_head_None_full with fl chain.
Qed.

(** X9: in a table built by insertions the number of occupied slots is at
    most the capacity; [free_head] is null exactly when every slot is
    occupied; and a non-null [free_head] points to a free slot whose [prev]
    is null. *)
Theorem free_list_empty_iff_full h :
  hash_inv h →
  length (occupied_bindings h) ≤ capacity (entries h) ∧
  (free_head h = None ↔ length (occupied_bindings h) = capacity (entries h)) ∧
  (∀ f, free_head h = Some f →
     ∃ e, load h f = Some e ∧ wasm_hash_entry_is_free e = true ∧ prev e = None).
Proof.
  intros Hinv. split_and!.
  - destruct Hinv as [->|(_ & fl & chain & Hwf)]; [done|].
    rewrite (wf_cap _ _ _ Hwf). apply occupied_count.
  - by apply full_iff_no_free_slot.
  - intros f Hfh. destruct Hinv as [->|(_ & fl & chain & Hwf)]; [done|].
    rewrite (wf_fl_head _ _ _ Hwf), head_lookup in Hfh.
    destruct (wf_fl_link _ _ _ Hwf 0 f Hfh) as (e & He & Hf & _ & Hp). eauto.
Qed.

Lemma free_list_empty_iff_full_witness :
  length (occupied_bindings one_name_table) ≤ capacity (entries one_name_table) ∧
  (free_head one_name_table = None
   ↔ length (occupied_bindings one_name_table) = capacity (entries one_name_table)) ∧
  (∀ f, free_head one_name_table = Some f →
     ∃ e, load one_name_table f = Some e ∧ wasm_hash_entry_is_free e = true ∧
          prev e = None).
Proof. apply (free_list_empty_iff_full one_name_table), one_name_table_inv. Defined.

(** X10: [entries.size] counts the insertions since the last growth, not
    the bindings: a successful insertion adds one binding, and sets [size]
    to 1 when it had to grow the table ([wasm_hash_resize] starts from a
    zeroed hash) and to [size + 1] otherwise; after a growth from a full
    table of capacity [c] the table holds [c + 1] bindings and [size] is 1. *)
Theorem size_counts_since_last_growth alloc_ok h nm p h' :
  hash_inv h → valid_name nm →
  wasm_insert_binding alloc_ok h nm = Some (Some p, h') →
  size (entries h') = match free_head h with None => 1 | Some _ => S (size (entries h)) end ∧
  length (occupied_bindings h') = S (length (occupied_bindings h)) ∧
  (free_head h = None →
   size (entries h') = 1 ∧ length (occupied_bindings h') = S (capacity (entries h))).
Proof.
  intros Hinv Hv Hins. pose proof (insert_size alloc_ok h nm p h' Hinv Hv Hins) as Hsz.
  destruct (insert_spec alloc_ok h nm Hinv Hv) as (r & h1 & Hins' & Hr).
  rewrite Hins in Hins'. injection Hins' as <- <-.
  destruct Hr as (_ & _ & _ & Hperm & _).
  assert (length (occupied_bindings h') = S (length (occupied_bindings h))) as Hlen.
  { by rewrite Hperm. }
  split; [done|]. split; [done|]. intros Hfh. rewrite Hfh in Hsz. split; [done|].
  rewrite Hlen. f_equal. by apply full_iff_no_free_slot.
Qed.

Lemma size_counts_since_last_growth_witness :
  ∃ p h',
    wasm_insert_binding always one_name_table (slice_of_string "b") = Some (Some p, h') ∧
    size (entries h')
      = match free_head one_name_table with
        | None => 1
        | Some _ => S (size (entries one_name_table))
        end ∧
    length (occupied_bindings h') = S (length (occupied_bindings one_name_table)) ∧
    (free_head one_name_table = None →
     size (entries h') = 1 ∧
     length (occupied_bindings h') = S (capacity (entries one_name_table))).
Proof.
  eexists _, _. split; [vm_compute; reflexivity|].
  eapply (size_counts_since_last_growth always one_name_table (slice_of_string "b")).
  - apply one_name_table_inv.
  - by eexists.
  - vm_compute. reflexivity.
Defined.

(** The ninth insertion grows the table: nine bindings, and a size of 1. *)
Example size_after_growth :
  (h ← mjoin (insert_all always empty_hash (take 9 twenty_names));
   Some (capacity (entries h), size (entries h), length (occupied_bindings h)))
  = Some (16, 1, 9).
Proof. vm_compute. reflexivity. Qed.

Lemma insert_all_capacity alloc_ok l : ∀ h h',
  hash_inv h → Forall (λ x, valid_name x.1) l → capacity_bounded h →
  insert_all alloc_ok h l = Some (Some h') → capacity_bounded h'.
Proof.
  induction l as [|[nm i] l IH]; intros h h' Hinv Hv Hb Hrun.
  { by injection Hrun as <-. }
  apply Forall_cons in Hv as [Hv1 Hv]. simpl in Hv1.
  destruct (insert_spec alloc_ok h nm Hinv Hv1) as (r & h1 & Hins & Hr).
  destruct (insert_record_spec alloc_ok h nm i Hinv Hv1) as (r' & h1' & Hins' & Hr').
  rewrite Hins in Hins'. injection Hins' as <- <-.
  simpl in Hrun. rewrite Hins in Hrun. simpl in Hrun.
  destruct r as [p|]; [|done].
  destruct Hr' as (h2 & Hrec & Hinv2 & _ & _ & Hperm & Hc2 & _).
  rewrite Hrec in Hrun. simpl in Hrun.
  apply (IH h2 h' Hinv2 Hv); [|done].
  destruct Hr as (_ & _ & _ & _ & Hgrow).
  assert (length (occupied_bindings h2) = S (length (occupied_bindings h))) as Hlen.
  { by rewrite Hperm. }
  unfold capacity_bounded in *. rewrite Hc2, Hlen.
  destruct (free_head h) eqn:Hfh.
  - destruct Hgrow as [-> _]. lia.
  - destruct Hgrow as [_ ->]. unfold grown_capacity.
    apply (full_iff_no_free_slot h Hinv) in Hfh.
    destruct Hinv as [->|(Hsz & _)]; [left; simpl; lia|].
    rewrite decide_False by done. right. lia.
Qed.

(** X11: a run of insertions into the empty table stores exactly the
    inserted bindings, duplicates included: the occupied slots hold a
    permutation of the inserted (name, index) pairs, so their number is the
    number of insertions; it never exceeds the capacity, and the capacity is
    at most 8 or at most twice the number of insertions minus 2. *)
Theorem table_holds_inserted_bindings alloc_ok (l : list (WasmStringSlice * Z)) h :
  Forall valid_name l.*1 →
  insert_all alloc_ok empty_hash l = Some (Some h) →
  occupied_bindings h ≡ₚ binding_of <$> l ∧
  length (occupied_bindings h) = length l ∧
  length l ≤ capacity (entries h) ∧
  (capacity (entries h) ≤ 8 ∨ capacity (entries h) + 2 ≤ 2 * length l).
Proof.
  intros Hv Hrun. rewrite Forall_fmap in Hv.
  destruct (insert_all_spec alloc_ok l empty_hash) as (r & Hrun' & _ & Hr);
    [by left|exact Hv|].
  rewrite Hrun in Hrun'. injection Hrun' as <-.
  destruct (Hr h eq_refl) as (Hinv & _ & Hperm).
  change (occupied_bindings empty_hash) with (@nil WasmBinding) in Hperm.
  rewrite app_nil_r in Hperm.
  assert (length (occupied_bindings h) = length l) as Hlen.
  { by rewrite Hperm, length_fmap. }
  split; [done|]. split; [done|]. split.
  - rewrite <- Hlen. destruct Hinv as [->|(_ & fl & chain & Hwf)]; [done|].
    rewrite (wf_cap _ _ _ Hwf). apply occupied_count.
  - rewrite <- Hlen.
    apply (insert_all_capacity alloc_ok l empty_hash h); [by left|exact Hv| |done].
    left. simpl. lia.
Qed.

Lemma table_holds_inserted_bindings_witness :
  ∃ h, insert_all always empty_hash twenty_names = Some (Some h) ∧
    occupied_bindings h ≡ₚ binding_of <$> twenty_names ∧
    length (occupied_bindings h) = length twenty_names ∧
    length twenty_names ≤ capacity (entries h) ∧
    (capacity (entries h) ≤ 8 ∨ capacity (entries h) + 2 ≤ 2 * length twenty_names).
Proof.
  eexists. split; [vm_compute; reflexivity|].
  apply (table_holds_inserted_bindings always twenty_names).
  - refine (bool_decide_unpack _ _). vm_compute. exact I.
  - vm_compute. reflexivity.
Defined.

(** ** A new entry *)

Lemma one_name_table_wf : well_formed one_name_table.
Proof. destruct one_name_table_inv as [?|[_ ?]]; done. Qed.

(** X12: in a well-formed table with a free slot [wasm_hash_new_entry]
    returns a slot for every valid name, and keeps the table well formed;
    capacity and size are unchanged; the slot holds the name with index 0;
    the bindings are those before plus the new one; and an entry that sat in
    its main slot still holds its binding there, in a slot other than the
    returned one. *)
Theorem new_entry_keeps_table_well_formed h nm :
  well_formed h → valid_name nm → is_Some (free_head h) →
  ∃ p h', wasm_hash_new_entry h nm = Some (p, h') ∧ well_formed h' ∧
    capacity (entries h') = capacity (entries h) ∧
    size (entries h') = size (entries h) ∧
    (∃ e, load h' p = Some e ∧ binding e = {| name := nm; index := 0 |}) ∧
    occupied_bindings h' ≡ₚ {| name := nm; index := 0 |} :: occupied_bindings h ∧
    (∀ s e, load h s = Some e → wasm_hash_entry_is_free e = false →
       wasm_hash_main_entry h (name (binding e)) = Some s →
       s ≠ p ∧ ∃ e', load h' s = Some e' ∧ binding e' = binding e).
Proof.
  intros (fl & chain & Hwf) Hv [f Hfh].
  destruct (new_entry_spec h fl chain nm Hwf Hv)
    as (p & h' & fl' & chain' & Hex & Hwf' & _ & Hc & Hs & He & Hperm & Hkeep).
  { intros ->. rewrite (wf_fl_head _ _ _ Hwf) in Hfh. done. }
  exists p, h'. split_and!; try done. by exists fl', chain'.
Qed.

Lemma new_entry_keeps_table_well_formed_witness :
  ∃ p h', wasm_hash_new_entry one_name_table (slice_of_string "i") = Some (p, h') ∧
    well_formed h' ∧
    capacity (entries h') = capacity (entries one_name_table) ∧
    size (entries h') = size (entries one_name_table) ∧
    (∃ e, load h' p = Some e ∧ binding e = {| name := slice_of_string "i"; index := 0 |}) ∧
    occupied_bindings h' ≡ₚ
      {| name := slice_of_string "i"; index := 0 |} :: occupied_bindings one_name_table ∧
    (∀ s e, load one_name_table s = Some e → wasm_hash_entry_is_free e = false →
       wasm_hash_main_entry one_name_table (name (binding e)) = Some s →
       s ≠ p ∧ ∃ e', load h' s = Some e' ∧ binding e' = binding e).
Proof.
  apply (new_entry_keeps_table_well_formed one_name_table (slice_of_string "i")).
  - apply one_name_table_wf.
  - by eexists.
  - by eexists.
Defined.

(** X13: where [wasm_hash_new_entry] puts a name whose main slot is [m].
    If [m] is free the name goes to [m].  If the occupant of [m] is in its
    own main slot, the name goes to the head [f] of the free list and is
    linked second in the chain of [m].  If the occupant belongs to another
    chain, the occupant is moved to [f] and the name takes [m].  With [m]
    occupied and no free slot the assertion on [free_head] fails: the model
    has no result. *)
Theorem new_entry_placement h nm m e :
  well_formed h → valid_name nm →
  wasm_hash_main_entry h nm = Some m → load h m = Some e →
  (wasm_hash_entry_is_free e = true →
   ∃ h', wasm_hash_new_entry h nm = Some (m, h') ∧
         load h' m = Some (new_entry_val nm)) ∧
  (∀ f, wasm_hash_entry_is_free e = false → free_head h = Some f →
     wasm_hash_main_entry h (name (binding e)) = Some m →
     ∃ h', wasm_hash_new_entry h nm = Some (f, h') ∧
       load h' m = Some (set_next (Some f) e) ∧
       load h' f = Some {| binding := new_binding nm; next := next e; prev := None |}) ∧
  (∀ f, wasm_hash_entry_is_free e = false → free_head h = Some f →
     wasm_hash_main_entry h (name (binding e)) ≠ Some m →
     ∃ h', wasm_hash_new_entry h nm = Some (m, h') ∧
       load h' m = Some (new_entry_val nm) ∧ load h' f = Some e) ∧
  (wasm_hash_entry_is_free e = false → free_head h = None →
   wasm_hash_new_entry h nm = None).
Proof.
  intros (fl & chain & Hwf) Hv Hm He. split_and!.
  - intros Hf.
    destruct (new_entry_free_exec h fl chain nm m e Hwf Hv Hm He Hf)
      as (h' & Hex & _ & _ & _ & _ & Hl & _).
    eauto.
  - intros f Hf Hfh Hmain.
    destruct (new_entry_chain_exec h fl chain nm m e f Hwf Hv Hm He Hf Hmain Hfh)
      as (h' & fe & _ & Hex & _ & _ & _ & _ & Hlf & Hlm & _).
    eauto.
  - intros f Hf Hfh Hmain.
    destruct (wf_ch_all _ _ _ Hwf _ _ He Hf) as (o & Ho & _).
    destruct (new_entry_move_exec h fl chain nm m e o f Hwf Hv Hm He Hf Ho)
      as (h' & fe & k & p & _ & _ & _ & Hex & _ & _ & _ & _ & Hlm & Hlf & _);
      [congruence|done|].
    eauto.
  - intros Hf Hfh. unfold wasm_hash_new_entry. rewrite Hm. simpl. rewrite He. simpl.
    rewrite Hf. simpl. rewrite Hfh. done.
Qed.

Lemma two_colliding_names_inv : hash_inv two_colliding_names.
Proof.
  destruct (insert_all_spec always
              [(slice_of_string "a", 0%Z); (slice_of_string "i", 1%Z)] empty_hash)
    as (r & Hrun & _ & Hr); [by left| |].
  { refine (bool_decide_unpack _ _). vm_compute. exact I. }
  change (insert_all always empty_hash
            [(slice_of_string "a", 0%Z); (slice_of_string "i", 1%Z)])
    with (Some (Some two_colliding_names)) in Hrun.
  injection Hrun as <-. by destruct (Hr _ eq_refl).
Qed.

Lemma two_colliding_names_wf : well_formed two_colliding_names.
Proof. destruct two_colliding_names_inv as [?|[_ ?]]; done. Qed.

Lemma new_entry_placement_witness :
  (wasm_hash_entry_is_free displaced_entry = true →
   ∃ h', wasm_hash_new_entry two_colliding_names (slice_of_string "h") = Some (7, h') ∧
         load h' 7 = Some (new_entry_val (slice_of_string "h"))) ∧
  (∀ f, wasm_hash_entry_is_free displaced_entry = false →
     free_head two_colliding_names = Some f →
     wasm_hash_main_entry two_colliding_names (name (binding displaced_entry)) = Some 7 →
     ∃ h', wasm_hash_new_entry two_colliding_names (slice_of_string "h") = Some (f, h') ∧
       load h' 7 = Some (set_next (Some f) displaced_entry) ∧
       load h' f = Some {| binding := new_binding (slice_of_string "h");
                           next := next displaced_entry; prev := None |}) ∧
  (∀ f, wasm_hash_entry_is_free displaced_entry = false →
     free_head two_colliding_names = Some f →
     wasm_hash_main_entry two_colliding_names (name (binding displaced_entry)) ≠ Some 7 →
     ∃ h', wasm_hash_new_entry two_colliding_names (slice_of_string "h") = Some (7, h') ∧
       load h' 7 = Some (new_entry_val (slice_of_string "h")) ∧
       load h' f = Some displaced_entry) ∧
  (wasm_hash_entry_is_free displaced_entry = false →
   free_head two_colliding_names = None →
   wasm_hash_new_entry two_colliding_names (slice_of_string "h") = None).
Proof.
  apply (new_entry_placement two_colliding_names (slice_of_string "h") 7 displaced_entry).
  - apply two_colliding_names_wf.
  - by eexists.
  - vm_compute. reflexivity.
  - vm_compute. reflexivity.
Defined.

(** Inserting "h" moves "i" from slot 7 to the free slot 6 and puts "h" in
    slot 7; "i" is still found. *)
Example displaced_occupant_moves :
  ('(p, h) ← wasm_hash_new_entry two_colliding_names (slice_of_string "h");
   e ← load h 6;
   Some (p, name (binding e), find_binding_index_by_name h (slice_of_string "i")))
  = Some (7, slice_of_string "i", Some 1%Z).
Proof. vm_compute. reflexivity. Qed.

(** ** Growth *)

(** X14: [wasm_hash_resize] to a larger capacity returns for the empty
    table and for every well-formed one.  When the allocation is refused it
    returns [WASM_ERROR] and leaves the table as it was; otherwise the new
    table is well formed, has the requested capacity, a [size] of 0 and a
    free slot, and holds the same bindings, duplicates included. *)
Theorem growth_keeps_bindings alloc_ok h desired :
  table_ok h → capacity (entries h) < desired →
  ∃ r h', wasm_hash_resize alloc_ok h desired = Some (r, h') ∧
    (alloc_ok desired = false → r = WASM_ERROR ∧ h' = h) ∧
    (alloc_ok desired = true →
     r = WASM_OK ∧ well_formed h' ∧
     capacity (entries h') = desired ∧ size (entries h') = 0 ∧
     is_Some (free_head h') ∧
     occupied_bindings h' ≡ₚ occupied_bindings h).
Proof.
  intros Hok Hlt.
  assert (capacity (entries h) = length (data (entries h))) as Hcap.
  { destruct Hok as [->|(fl & chain & Hwf)]; [done|apply Hwf]. }
  destruct (resize_spec alloc_ok h desired Hcap Hlt)
    as [[Hno Hres]|(Hyes & h' & fl & chain & Hres & Hwf & Hne & Hc & Hs & Hp)].
  - exists WASM_ERROR, h. split; [done|]. split; [done|]. congruence.
  - exists WASM_OK, h'. split; [done|]. split; [congruence|]. intros _.
    split_and!; try done.
    + by exists fl, chain.
    + rewrite (wf_fl_head _ _ _ Hwf). destruct fl; [done|]. by eexists.
Qed.

Lemma growth_keeps_bindings_witness :
  ∃ r h', wasm_hash_resize always one_name_table 16 = Some (r, h') ∧
    (always 16 = false → r = WASM_ERROR ∧ h' = one_name_table) ∧
    (always 16 = true →
     r = WASM_OK ∧ well_formed h' ∧
     capacity (entries h') = 16 ∧ size (entries h') = 0 ∧
     is_Some (free_head h') ∧
     occupied_bindings h' ≡ₚ occupied_bindings one_name_table).
Proof.
  apply (growth_keeps_bindings always one_name_table 16).
  - apply one_name_table_ok.
  - vm_compute. lia.
Defined.

(** ** Functions and their exports *)

Lemma func_is_exported_loop_S objects module func n i :
  func_is_exported_loop objects module func (S n) i =
    (p ← exports module !! i;
     export ← export_at objects p;
     match export_var export with
     | WASM_VAR_TYPE_NAME nm =>
         equal ← (if decide (start nm = None) then Some false
                  else f ← func_at objects func;
                       Some (wasm_string_slices_are_equal nm (func_name f)));
         if equal : bool then Some 1%Z
         else func_is_exported_loop objects module func n (S i)
     | WASM_VAR_TYPE_INDEX index =>
         if decide (index >= 0 ∧ index < Z.of_nat (length (funcs module)))%Z then
           fp ← vector_at (funcs module) index;
           if decide (fp = func) then Some 1%Z
           else func_is_exported_loop objects module func n (S i)
         else func_is_exported_loop objects module func n (S i)
     end).
Proof. done. Qed.

Lemma func_is_exported_loop_spec objects module func f n : ∀ i,
  func_at objects func = Some f →
  Forall (λ p, is_Some (export_at objects p)) (exports module) →
  i + n = length (exports module) →
  ∃ r, func_is_exported_loop objects module func n i = Some r ∧
    ((r = 1%Z ∧ ∃ j p export, i ≤ j ∧ exports module !! j = Some p ∧
                 export_at objects p = Some export ∧
                 export_names_func objects module func export)
     ∨ (r = 0%Z ∧ ∀ j p export, i ≤ j → exports module !! j = Some p →
                 export_at objects p = Some export →
                 ¬ export_names_func objects module func export)).
Proof.
  induction n as [|n IH]; intros i Hf Hall Hlen.
  { exists 0%Z. split; [done|]. right. split; [done|]. intros j p export Hj Hp.
    apply lookup_lt_Some in Hp. lia. }
  assert (i < length (exports module)) as Hi by lia.
  destruct (lookup_lt_is_Some_2 _ _ Hi) as [p Hp].
  destruct (proj1 (Forall_lookup _ _) Hall i p Hp) as [export Hexp].
  rewrite func_is_exported_loop_S, Hp. simpl. rewrite Hexp. simpl.
  destruct (IH (S i) Hf Hall) as (r & Hr & Hcase); [lia|].
  assert (¬ export_names_func objects module func export →
    ∃ r, func_is_exported_loop objects module func n (S i) = Some r ∧
      ((r = 1%Z ∧ ∃ j p export, i ≤ j ∧ exports module !! j = Some p ∧
                   export_at objects p = Some export ∧
                   export_names_func objects module func export)
       ∨ (r = 0%Z ∧ ∀ j p export, i ≤ j → exports module !! j = Some p →
                   export_at objects p = Some export →
                   ¬ export_names_func objects module func export))) as Hrest.
  { intros Hnot. exists r. split; [done|].
    destruct Hcase as [(-> & j & p' & e' & Hj & ?)|(-> & Hno)].
    - left. split; [done|]. exists j, p', e'. split; [lia|done].
    - right. split; [done|]. intros j p' e' Hj Hp' He'.
      destruct (decide (j = i)) as [->|Hne].
      + rewrite Hp in Hp'. injection Hp' as <-. rewrite Hexp in He'.
        by injection He' as <-.
      + apply (Hno j p' e'); [lia|done..]. }
  assert (export_names_func objects module func export →
    ∃ r, Some 1%Z = Some r ∧
      ((r = 1%Z ∧ ∃ j p export, i ≤ j ∧ exports module !! j = Some p ∧
                   export_at objects p = Some export ∧
                   export_names_func objects module func export)
       ∨ (r = 0%Z ∧ ∀ j p export, i ≤ j → exports module !! j = Some p →
                   export_at objects p = Some export →
                   ¬ export_names_func objects module func export))) as Hhere.
  { intros Hyes. exists 1%Z. split; [done|]. left. split; [done|].
    exists i, p, export. done. }
  unfold export_names_func in Hrest, Hhere at 1.
  destruct (export_var export) as [index|nm].
  - destruct (decide (index >= 0 ∧ index < Z.of_nat (length (funcs module)))%Z)
      as [[H0 Hlt]|Hout].
    + assert (is_Some (funcs module !! Z.to_nat index)) as [fp Hfp].
      { apply lookup_lt_is_Some. lia. }
      unfold vector_at. rewrite decide_True by lia. rewrite Hfp. simpl.
      destruct (decide (fp = func)) as [->|Hne].
      * apply Hhere. split; [lia|done].
      * apply Hrest. intros [_ Hx]. congruence.
    + apply Hrest. intros [H0 Hx]. apply Hout. split; [lia|].
      apply lookup_lt_Some in Hx. lia.
  - destruct (decide (start nm = None)) as [Hnull|_]; simpl.
    + apply Hrest. intros (f' & _ & Heq).
      apply equal_iff_key in Heq as ([bs Hbs] & _). congruence.
    + rewrite Hf. simpl.
      destruct (wasm_string_slices_are_equal nm (func_name f)) eqn:Heq.
      * apply Hhere. eauto.
      * apply Hrest. intros (f' & Hf' & Heq'). congruence.
Qed.

Lemma func_is_exported_cases objects module func f :
  func_at objects func = Some f →
  Forall (λ p, is_Some (export_at objects p)) (exports module) →
  ∃ r, wasm_func_is_exported objects module func = Some r ∧
    ((r = 1%Z ∧ ∃ j p export, exports module !! j = Some p ∧
                 export_at objects p = Some export ∧
                 export_names_func objects module func export)
     ∨ (r = 0%Z ∧ ∀ j p export, exports module !! j = Some p →
                 export_at objects p = Some export →
                 ¬ export_names_func objects module func export)).
Proof.
  intros Hf Hall.
  destruct (func_is_exported_loop_spec objects module func f (length (exports module)) 0
              Hf Hall)
    as (r & Hr & Hcase); [done|].
  exists r. split; [done|].
  destruct Hcase as [(-> & j & p & e & _ & ?)|(-> & Hno)].
  - left. split; [done|]. eauto.
  - right. split; [done|]. intros j p e. apply Hno. lia.
Qed.

(** X15: [wasm_func_is_exported], in a module whose export pointers are
    valid, returns 0 or 1, and 1 exactly when some export names the
    function: by a name equal to the function's name, or by an index that
    lies in [funcs] and at which [funcs] holds the function.  An index
    outside [funcs] is skipped without a read.  A function without a name
    (null start) is exported only through an index. *)
Theorem func_is_exported_spec objects module func f :
  func_at objects func = Some f →
  Forall (λ p, is_Some (export_at objects p)) (exports module) →
  ∃ r, wasm_func_is_exported objects module func = Some r ∧
    (r = 0%Z ∨ r = 1%Z) ∧
    (r = 1%Z ↔ ∃ j p export, exports module !! j = Some p ∧
                 export_at objects p = Some export ∧
                 export_names_func objects module func export) ∧
    (start (func_name f) = None →
     (r = 1%Z ↔ ∃ j p export index, exports module !! j = Some p ∧
                  export_at objects p = Some export ∧
                  export_var export = WASM_VAR_TYPE_INDEX index ∧
                  (0 ≤ index)%Z ∧ funcs module !! Z.to_nat index = Some func)).
Proof.
  intros Hf Hall.
  destruct (func_is_exported_cases objects module func f Hf Hall) as (r & Hr & Hcase).
  exists r. split; [done|].
  assert (r = 1%Z ↔ ∃ j p export, exports module !! j = Some p ∧
            export_at objects p = Some export ∧
            export_names_func objects module func export) as Hiff.
  { destruct Hcase as [(-> & Hex)|(-> & Hno)].
    - split; [done|done].
    - split; [done|]. intros (j & p & e & Hp & He & Hx). by destruct (Hno j p e). }
  split_and!.
  - destruct Hcase as [[-> _]|[-> _]]; [by right|by left].
  - done.
  - intros Hnull. rewrite Hiff. split.
    + intros (j & p & e & Hp & He & Hx). unfold export_names_func in Hx.
      destruct (export_var e) as [index|nm] eqn:Hvar.
      * exists j, p, e, index. by destruct Hx.
      * destruct Hx as (f' & Hf' & Heq). rewrite Hf in Hf'. injection Hf' as <-.
        apply equal_iff_key in Heq as (_ & [bs Hbs] & _). congruence.
    + intros (j & p & e & index & Hp & He & Hvar & H0 & Hx).
      exists j, p, e. split; [done|]. split; [done|].
      unfold export_names_func. by rewrite Hvar.
Qed.

Lemma small_objects_exports :
  Forall (λ p, is_Some (export_at small_objects p)) (exports small_module).
Proof. repeat constructor; by eexists. Qed.

Lemma func_is_exported_spec_witness :
  ∃ r, wasm_func_is_exported small_objects small_module 101 = Some r ∧
    (r = 0%Z ∨ r = 1%Z) ∧
    (r = 1%Z ↔ ∃ j p export, exports small_module !! j = Some p ∧
                 export_at small_objects p = Some export ∧
                 export_names_func small_objects small_module 101 export) ∧
    (start zero_slice = None →
     (r = 1%Z ↔ ∃ j p export index, exports small_module !! j = Some p ∧
                  export_at small_objects p = Some export ∧
                  export_var export = WASM_VAR_TYPE_INDEX index ∧
                  (0 ≤ index)%Z ∧ funcs small_module !! Z.to_nat index = Some 101)).
Proof.
  apply (func_is_exported_spec small_objects small_module 101
           {| func_name := zero_slice;
              params_and_locals := {| types := []; bindings := empty_hash |} |}).
  - reflexivity.
  - apply small_objects_exports.
Defined.

(** Both functions of [small_module] are exported, the first by its name and
    the second, which has no name, by its position; a function that is not in
    the module is not. *)
Example exported_functions :
  wasm_func_is_exported small_objects small_module <$> [100; 101; 102]
  = [Some 1%Z; Some 1%Z; None].
Proof. vm_compute. reflexivity. Qed.

(** A lookup that finds an index other than -1 has hashed the name. *)
Lemma find_Some_hashable h nm r :
  find_binding_index_by_name h nm = Some r → r ≠ (-1)%Z → is_Some (wasm_hash_name nm).
Proof.
  unfold find_binding_index_by_name, wasm_hash_main_entry.
  case_decide; [by intros [= <-]|].
  destruct (wasm_hash_name nm); [by eexists|done].
Qed.

(** X16: [wasm_func_is_exported] agrees with [wasm_get_func_by_var]: when
    the function table binds every function under its own name, a function
    that the reference of some export resolves to is reported as exported. *)
Theorem resolved_export_is_exported objects module func f j p export :
  func_at objects func = Some f →
  Forall (λ p, is_Some (export_at objects p)) (exports module) →
  table_ok (func_bindings module) →
  (∀ b fp g, b ∈ occupied_bindings (func_bindings module) →
     vector_at (funcs module) (index b) = Some fp → func_at objects fp = Some g →
     wasm_string_slices_are_equal (name b) (func_name g) = true) →
  exports module !! j = Some p → export_at objects p = Some export →
  wasm_get_func_by_var module (export_var export) = Some (Some func) →
  wasm_func_is_exported objects module func = Some 1%Z.
Proof.
  intros Hf Hall Hok Hnames Hp Hexp Hget.
  destruct (func_is_exported_cases objects module func f Hf Hall)
    as (r & Hr & [[-> _]|[-> Hno]]); [done|].
  exfalso. apply (Hno j p export Hp Hexp).
  unfold wasm_get_func_by_var in Hget.
  destruct (wasm_get_index_from_var (func_bindings module) (export_var export))
    as [k|] eqn:Hk; [|done].
  simpl in Hget. case_decide as Hrange; [done|].
  destruct (vector_at (funcs module) k) as [fp|] eqn:Hfp; [|done].
  injection Hget as ->.
  assert ((0 ≤ k)%Z ∧ funcs module !! Z.to_nat k = Some func) as [H0 Hfk].
  { unfold vector_at in Hfp. by case_decide. }
  unfold export_names_func. destruct (export_var export) as [index|nm].
  - simpl in Hk. by injection Hk as ->.
  - simpl in Hk. exists f. split; [done|].
    destruct (lookup_cases (func_bindings module) nm Hok)
      as (r & Hr' & [(b & Hb & Heq & Hi)|[-> _]]).
    + apply (find_Some_hashable _ _ _ Hk). lia.
    + rewrite Hk in Hr'. injection Hr' as <-.
      pose proof (Hnames b func f Hb) as Hbf. rewrite Hi in Hbf.
      specialize (Hbf Hfp Hf).
      apply (equal_trans nm (name b)); [|done]. by rewrite equal_sym.
    + rewrite Hk in Hr'. injection Hr' as ->. lia.
Qed.

Lemma resolved_export_is_exported_witness :
  wasm_func_is_exported small_objects small_module 100 = Some 1%Z.
Proof.
  apply (resolved_export_is_exported small_objects small_module 100
           {| func_name := slice_of_string "a";
              params_and_locals := {| types := []; bindings := empty_hash |} |}
           0 200
           {| export_name := slice_of_string "first";
              export_var := WASM_VAR_TYPE_NAME (slice_of_string "a") |}).
  - reflexivity.
  - apply small_objects_exports.
  - apply one_name_table_ok.
  - change (func_bindings small_module) with one_name_table.
    rewrite one_name_bindings. intros b fp g ->%list_elem_of_singleton H1 H2.
    vm_compute in H1. injection H1 as <-. vm_compute in H2. injection H2 as <-.
    vm_compute. reflexivity.
  - reflexivity.
  - reflexivity.
  - vm_compute. reflexivity.
Defined.

(** ** Names resolved through a table built by insertions *)





(** X18: [wasm_get_export_by_name] trusts the index stored in the export
    table.  For a name whose bindings carry the index [i]: it returns [NULL]
    when [i] is -1 although the name is bound, the export at [i] when [i]
    lies in [exports], and reads outside the vector (no result in the model)
    when [i] is below -1 or at least [exports.size]. *)
Theorem export_by_name_trusts_the_table module nm b :
  table_ok (export_bindings module) → is_Some (wasm_hash_name nm) →
  b ∈ occupied_bindings (export_bindings module) →
  wasm_string_slices_are_equal (name b) nm = true →
  (∀ b', b' ∈ occupied_bindings (export_bindings module) →
     wasm_string_slices_are_equal (name b') nm = true → index b' = index b) →
  (index b = (-1)%Z → wasm_get_export_by_name module nm = Some None) ∧
  ((index b < -1 ∨ index b >= Z.of_nat (length (exports module)))%Z →
     wasm_get_export_by_name module nm = None) ∧
  (∀ e, (0 ≤ index b)%Z → exports module !! Z.to_nat (index b) = Some e →
     wasm_get_export_by_name module nm = Some (Some e)).
Proof.
  intros Hok Hnm Hb Heq Hall.
  destruct (lookup_cases (export_bindings module) nm Hok Hnm)
    as (r & Hr & [(b' & Hb' & Heq' & <-)|[-> Hno]]).
  2: { rewrite (Hno b Hb) in Heq. done. }
  rewrite (Hall b' Hb' Heq') in Hr.
  unfold wasm_get_export_by_name. rewrite Hr. simpl. split_and!.
  - intros ->. done.
  - intros Hout. rewrite decide_False by lia. unfold vector_at.
    case_decide; [|done].
    rewrite (proj2 (lookup_ge_None _ _)); [done|]. lia.
  - intros e H0 He. rewrite decide_False by lia. unfold vector_at.
    rewrite decide_True by done. by rewrite He.
Qed.

Lemma export_by_name_trusts_the_table_witness :
  (0 = -1 → wasm_get_export_by_name dangling_export_module (slice_of_string "a")
            = Some None)%Z ∧
  ((0 < -1 ∨ 0 >= Z.of_nat (length (exports dangling_export_module)))%Z →
     wasm_get_export_by_name dangling_export_module (slice_of_string "a") = None) ∧
  (∀ e, (0 ≤ 0)%Z → exports dangling_export_module !! Z.to_nat 0 = Some e →
     wasm_get_export_by_name dangling_export_module (slice_of_string "a")
     = Some (Some e)).
Proof.
  apply (export_by_name_trusts_the_table dangling_export_module (slice_of_string "a")
           (binding_of (slice_of_string "a", 0%Z))).
  - apply one_name_table_ok.
  - by eexists.
  - change (export_bindings dangling_export_module) with one_name_table.
    rewrite one_name_bindings. by apply list_elem_of_singleton.
  - vm_compute. reflexivity.
  - change (export_bindings dangling_export_module) with one_name_table.
    rewrite one_name_bindings. by intros b' ->%list_elem_of_singleton _.
Defined.

(** ** Lookups after an extension *)

Lemma occupied_names_valid h : Forall valid_name (name <$> occupied_bindings h).
Proof.
  apply Forall_fmap, Forall_forall.
  intros b (s & e & He & Hf & <-)%elem_of_occupied_bindings.
  by apply is_free_false_valid.
Qed.

(** X19: lookups after [wasm_extend_type_bindings] has returned [WASM_OK],
    when the names bound in [src] and [dst] are pairwise different: a name
    of [src] is found in the result with the [int] sum of its index and the
    number of types [dst] had, which is the sum itself when that is an
    [int]; a name of [dst] is found with its index unchanged; so
    [wasm_get_local_index_by_var] on a function whose [params_and_locals] is
    the result, and [wasm_get_global_index_by_var] on globals that are the
    result, find the names of [src] after those of [dst].  The table of the
    result is again one built by insertions. *)
Theorem extended_bindings_are_found alloc_ok alloc_types_ok dst src dst' :
  hash_inv (bindings dst) → table_ok (bindings src) →
  distinct_names
    (name <$> occupied_bindings (bindings src) ++ occupied_bindings (bindings dst)) →
  wasm_extend_type_bindings alloc_ok alloc_types_ok dst src = Some (WASM_OK, dst') →
  hash_inv (bindings dst') ∧
  (∀ b, b ∈ occupied_bindings (bindings src) →
     find_binding_index_by_name (bindings dst') (name b)
     = Some (to_int (index b + Z.of_nat (length (types dst))))) ∧
  (∀ b, b ∈ occupied_bindings (bindings dst) →
     find_binding_index_by_name (bindings dst') (name b) = Some (index b)) ∧
  (∀ func b, params_and_locals func = dst' →
     b ∈ occupied_bindings (bindings src) →
     wasm_get_local_index_by_var func (WASM_VAR_TYPE_NAME (name b))
     = Some (to_int (index b + Z.of_nat (length (types dst))))) ∧
  (∀ b, b ∈ occupied_bindings (bindings src) →
     wasm_get_global_index_by_var dst' (WASM_VAR_TYPE_NAME (name b))
     = Some (to_int (index b + Z.of_nat (length (types dst))))) ∧
  (∀ b, b ∈ occupied_bindings (bindings src) →
     int_range (index b + Z.of_nat (length (types dst))) →
     find_binding_index_by_name (bindings dst') (name b)
     = Some (index b + Z.of_nat (length (types dst)))%Z ∧
     wasm_get_global_index_by_var dst' (WASM_VAR_TYPE_NAME (name b))
     = Some (index b + Z.of_nat (length (types dst)))%Z ∧
     ∀ func, params_and_locals func = dst' →
       wasm_get_local_index_by_var func (WASM_VAR_TYPE_NAME (name b))
       = Some (index b + Z.of_nat (length (types dst)))%Z).
Proof.
  intros Hinv Hsrc Hd Hrun.
  unfold wasm_extend_type_bindings, wasm_extend_types in Hrun.
  destruct (alloc_types_ok (length (types dst) + length (types src))); [|done].
  assert (capacity (entries (bindings src)) = length (data (entries (bindings src))))
    as Hcap.
  { destruct Hsrc as [->|(fl & chain & Hwf)]; [done|apply Hwf]. }
  destruct (extend_bindings_spec alloc_ok (bindings src) (capacity (entries (bindings src)))
              0 (bindings dst) (to_int (Z.of_nat (length (types dst)))) Hinv)
    as (r & h & Hrun' & Hinv' & Hok & _); [lia|].
  rewrite Hrun' in Hrun. simpl in Hrun. injection Hrun as -> <-. simpl.
  pose proof (Hok eq_refl) as Hperm. simpl in Hperm.
  rewrite Hcap, firstn_all in Hperm.
  change (occupied_entries (data (entries (bindings src))))
    with (occupied_bindings (bindings src)) in Hperm.
  assert (NoDup (slice_key ∘ name <$> occupied_bindings h)) as Hnd.
  { rewrite Hperm, fmap_app, <- list_fmap_compose.
    apply distinct_names_NoDup in Hd;
      [|rewrite fmap_app; apply Forall_app; split; apply occupied_names_valid].
    rewrite <- list_fmap_compose, fmap_app in Hd. exact Hd. }
  assert (∀ b, b ∈ occupied_bindings h →
            find_binding_index_by_name h (name b) = Some (index b)) as Hfind.
  { intros b Hb. destruct Hinv' as [->|(_ & fl & chain & Hwf)].
    - by apply not_elem_of_nil in Hb.
    - by apply (lookup_unique h fl chain b Hwf Hnd). }
  assert (∀ b, b ∈ occupied_bindings (bindings src) →
            find_binding_index_by_name h (name b)
            = Some (to_int (index b + Z.of_nat (length (types dst))))) as Hsrcfind.
  { intros b Hb. rewrite <- to_int_add_r.
    apply (Hfind (shift_binding (to_int (Z.of_nat (length (types dst)))) b)).
    rewrite Hperm. apply elem_of_app. left. by apply list_elem_of_fmap_2. }
  split_and!.
  - done.
  - done.
  - intros b Hb. apply Hfind. rewrite Hperm. apply elem_of_app. by right.
  - intros func b -> Hb. by apply Hsrcfind.
  - done.
  - intros b Hb Hr.
    assert (find_binding_index_by_name h (name b)
            = Some (index b + Z.of_nat (length (types dst)))%Z) as Hsum.
    { rewrite (Hsrcfind b Hb). by rewrite to_int_id. }
    split_and!; [done|done|]. by intros func ->.
Qed.

Lemma two_name_bindings :
  occupied_bindings two_name_table
  = [binding_of (slice_of_string "c", 1%Z); binding_of (slice_of_string "b", 0%Z)].
Proof. vm_compute. reflexivity. Qed.

Lemma extended_bindings_are_found_witness :
  ∃ dst', wasm_extend_type_bindings always always extend_dst extend_src
          = Some (WASM_OK, dst') ∧
    hash_inv (bindings dst') ∧
    (∀ b, b ∈ occupied_bindings (bindings extend_src) →
       find_binding_index_by_name (bindings dst') (name b)
       = Some (to_int (index b + Z.of_nat (length (types extend_dst))))) ∧
    (∀ b, b ∈ occupied_bindings (bindings extend_dst) →
       find_binding_index_by_name (bindings dst') (name b) = Some (index b)) ∧
    (∀ func b, params_and_locals func = dst' →
       b ∈ occupied_bindings (bindings extend_src) →
       wasm_get_local_index_by_var func (WASM_VAR_TYPE_NAME (name b))
       = Some (to_int (index b + Z.of_nat (length (types extend_dst))))) ∧
    (∀ b, b ∈ occupied_bindings (bindings extend_src) →
       wasm_get_global_index_by_var dst' (WASM_VAR_TYPE_NAME (name b))
       = Some (to_int (index b + Z.of_nat (length (types extend_dst))))) ∧
    (∀ b, b ∈ occupied_bindings (bindings extend_src) →
       int_range (index b + Z.of_nat (length (types extend_dst))) →
       find_binding_index_by_name (bindings dst') (name b)
       = Some (index b + Z.of_nat (length (types extend_dst)))%Z ∧
       wasm_get_global_index_by_var dst' (WASM_VAR_TYPE_NAME (name b))
       = Some (index b + Z.of_nat (length (types extend_dst)))%Z ∧
       ∀ func, params_and_locals func = dst' →
         wasm_get_local_index_by_var func (WASM_VAR_TYPE_NAME (name b))
         = Some (index b + Z.of_nat (length (types extend_dst)))%Z).
Proof.
  eexists. split; [vm_compute; reflexivity|].
  apply (extended_bindings_are_found always always extend_dst extend_src).
  - apply one_name_table_inv.
  - apply hash_inv_table_ok, two_name_table_inv.
  - change (bindings extend_src) with two_name_table.
    change (bindings extend_dst) with one_name_table.
    rewrite two_name_bindings, one_name_bindings.
    apply NoDup_distinct_names. refine (bool_decide_unpack _ _). vm_compute. exact I.
  - vm_compute. reflexivity.
Defined.

(** ** The text of the memory dump *)

Lemma list_ascii_of_string_app s1 s2 :
  list_ascii_of_string (s1 +:+ s2) = list_ascii_of_string s1 ++ list_ascii_of_string s2.
Proof. induction s1 as [|a s1 IH]; [done|]. rewrite string_app_cons. simpl. by rewrite IH. Qed.

Lemma plain_text_app s1 s2 : plain_text s1 → plain_text s2 → plain_text (s1 +:+ s2).
Proof.
  unfold plain_text. rewrite list_ascii_of_string_app. intros. by apply Forall_app.
Qed.

Lemma plain_text_concat l :
  Forall plain_text l → plain_text (foldr String.app "" l).
Proof.
  induction 1 as [|s l Hs _ IH]; [by constructor|]. simpl. by apply plain_text_app.
Qed.

Lemma hex_digits_plain n : ∀ v, plain_text (hex_digits n v).
Proof.
  induction n as [|n IH]; intros v; [by constructor|].
  simpl. apply plain_text_app; [apply IH|].
  constructor; [|by constructor]. left. apply hex_digit_printable.
Qed.

Lemma octet_text_plain row i : plain_text (octet_text row i).
Proof.
  unfold octet_text. destruct (row !! i).
  - apply hex_digits_plain.
  - repeat constructor.
Qed.

Lemma groups_text_plain row : plain_text (groups_text row).
Proof.
  unfold groups_text. apply plain_text_concat, Forall_fmap, Forall_forall.
  intros g _. simpl. repeat apply plain_text_app; try apply octet_text_plain.
  repeat constructor.
Qed.

Lemma chars_text_plain print_chars row : plain_text (chars_text print_chars row).
Proof.
  unfold chars_text. apply plain_text_concat, Forall_fmap, Forall_forall.
  intros b _. simpl. destruct print_chars; [|by constructor].
  constructor; [|by constructor]. left.
  destruct (isprint b) eqn:Hb; [by rewrite printable_byte|reflexivity].
Qed.

Lemma printf_07x_plain v : plain_text (printf_07x v).
Proof. unfold printf_07x. case_decide; apply hex_digits_plain. Qed.

Lemma line_text_plain bytes offset print_chars desc k :
  (∀ d, desc = Some d → plain_text d) →
  plain_text (line_text bytes offset print_chars desc k).
Proof.
  intros Hd. unfold line_text.
  apply plain_text_app; [apply printf_07x_plain|].
  apply plain_text_app; [by repeat constructor|].
  apply plain_text_app; [apply groups_text_plain|].
  apply plain_text_app; [by repeat constructor|].
  apply plain_text_app; [apply chars_text_plain|].
  apply plain_text_app.
  - destruct desc as [d|]; [|by constructor].
    case_decide; [|by constructor].
    apply plain_text_app; [by repeat constructor|by apply Hd].
  - constructor; [by right|by constructor].
Qed.

Lemma print_memory_lines bytes offset print_chars desc :
  wasm_print_memory bytes offset print_chars desc
  = foldr String.app ""
      (line_text bytes offset print_chars desc <$> seq 0 (dump_line_count (length bytes))).
Proof.
  unfold wasm_print_memory. change 0 with (16 * 0) at 1.
  rewrite (dump_lines_eq bytes offset print_chars desc (length bytes) 0) by lia.
  by rewrite Nat.sub_0_r.
Qed.

(** X20: whatever bytes are dumped, the output of [wasm_print_memory]
    consists of printable ASCII characters and newlines only, provided the
    description does. *)
Theorem dump_is_plain_text bytes offset print_chars desc :
  (∀ d, desc = Some d → plain_text d) →
  plain_text (wasm_print_memory bytes offset print_chars desc).
Proof.
  intros Hd. rewrite print_memory_lines.
  apply plain_text_concat, Forall_fmap, Forall_forall. intros k _.
  by apply line_text_plain.
Qed.

Lemma dump_is_plain_text_witness :
  plain_text (wasm_print_memory [x00; x07; x1b; xff; x41]%byte 0 true (Some "data"%string)).
Proof.
  apply (dump_is_plain_text [x00; x07; x1b; xff; x41]%byte 0 true (Some "data"%string)).
  intros d [= <-]. repeat constructor.
Defined.

Lemma octet_text_length row i : String.length (octet_text row i) = 2.
Proof.
  unfold octet_text. destruct (row !! i); [|done]. apply hex_digits_length.
Qed.

Lemma groups_text_length row : String.length (groups_text row) = 40.
Proof.
  unfold groups_text. cbn [seq fmap list_fmap foldr].
  rewrite !string_length_app, !octet_text_length. done.
Qed.

Lemma chars_text_length print_chars row :
  String.length (chars_text print_chars row) = if print_chars then length row else 0.
Proof.
  unfold chars_text. induction row as [|b row IH]; [by destruct print_chars|].
  cbn [fmap list_fmap foldr]. rewrite string_length_app.
  change (list_fmap _ _ ?f row) with (f <$> row). rewrite IH.
  by destruct print_chars.
Qed.

(** X21: the columns of the dump are aligned.  On every line the groups of
    octets take 40 characters, however many bytes the line holds; the line
    is the address, 44 further characters (": ", the groups, the space
    before the characters and the newline), one character per byte of the
    line when characters are asked for, and on the line that reaches the end
    of the buffer "  ; " and the description; the address takes 7
    characters while it is below [2^28]. *)
Theorem dump_line_width bytes offset print_chars desc k :
  16 * k < length bytes →
  String.length
    (dump_groups DUMP_OCTETS_PER_LINE bytes (16 * k) (16 * k + DUMP_OCTETS_PER_LINE)) = 40 ∧
  String.length (dump_line bytes offset print_chars desc (16 * k)).1
  = String.length (printf_07x (Z.of_nat (16 * k) + offset)) + 44
    + (if print_chars then min 16 (length bytes - 16 * k) else 0)
    + match desc with
      | Some d => if decide (length bytes ≤ 16 * k + 16) then 4 + String.length d else 0
      | None => 0
      end ∧
  ((0 ≤ Z.of_nat (16 * k) + offset < 2 ^ 28)%Z →
   String.length (printf_07x (Z.of_nat (16 * k) + offset)) = 7).
Proof.
  intros Hk. split_and!.
  - rewrite dump_groups_row. apply groups_text_length.
  - rewrite dump_line_eq by done. cbn [fst]. unfold line_text.
    rewrite !string_length_app, groups_text_length, chars_text_length.
    assert (length (dump_row bytes k) = min 16 (length bytes - 16 * k)) as ->.
    { unfold dump_row. by rewrite length_take, length_drop. }
    assert (String.length
              match desc with
              | Some d => if decide (S k = dump_line_count (length bytes))
                          then "  ; " +:+ d else ""
              | None => ""
              end
            = match desc with
              | Some d => if decide (length bytes ≤ 16 * k + 16)
                          then 4 + String.length d else 0
              | None => 0
              end) as ->.
    { destruct desc as [d|]; [|done]. unfold dump_line_count.
      pose proof (Nat.div_mod_eq (length bytes + 15) 16) as Hd.
      pose proof (Nat.mod_upper_bound (length bytes + 15) 16).
      destruct (decide (length bytes ≤ 16 * k + 16)).
      - rewrite decide_True by lia. by rewrite string_length_app.
      - by rewrite decide_False by lia. }
    simpl. lia.
  - intros Hv. unfold printf_07x. rewrite Z.mod_small by lia.
    rewrite decide_True by lia. apply hex_digits_length.
Qed.

Lemma dump_line_width_witness :
  String.length
    (dump_groups DUMP_OCTETS_PER_LINE (list_byte_of_string "ABCDEFGHIJKLMNOPQ")
       (16 * 1) (16 * 1 + DUMP_OCTETS_PER_LINE)) = 40 ∧
  String.length
    (dump_line (list_byte_of_string "ABCDEFGHIJKLMNOPQ") 0 true (Some "desc"%string)
       (16 * 1)).1
  = String.length (printf_07x (Z.of_nat (16 * 1) + 0)) + 44
    + min 16 (length (list_byte_of_string "ABCDEFGHIJKLMNOPQ") - 16 * 1)
    + (if decide (length (list_byte_of_string "ABCDEFGHIJKLMNOPQ") ≤ 16 * 1 + 16)
       then 4 + String.length "desc" else 0) ∧
  ((0 ≤ Z.of_nat (16 * 1) + 0 < 2 ^ 28)%Z →
   String.length (printf_07x (Z.of_nat (16 * 1) + 0)) = 7).
Proof.
  apply (dump_line_width (list_byte_of_string "ABCDEFGHIJKLMNOPQ") 0 true
           (Some "desc"%string) 1).
  vm_compute. lia.
Defined.

Lemma printf_07x_wrap v n : printf_07x (v + 2 ^ 32 * n) = printf_07x v.
Proof.
  unfold printf_07x. cbv zeta.
  assert (((v + 2 ^ 32 * n) mod 2 ^ 32 = v mod 2 ^ 32)%Z) as ->; [|done].
  rewrite Z.mul_comm. apply Z_mod_plus_full.
Qed.

Lemma dump_line_wrap bytes offset n print_chars desc p :
  dump_line bytes (offset + 2 ^ 32 * n) print_chars desc p
  = dump_line bytes offset print_chars desc p.
Proof. unfold dump_line. by rewrite Z.add_assoc, printf_07x_wrap. Qed.

Lemma dump_lines_wrap bytes offset n print_chars desc fuel : ∀ p,
  dump_lines fuel bytes (offset + 2 ^ 32 * n) print_chars desc p
  = dump_lines fuel bytes offset print_chars desc p.
Proof.
  induction fuel as [|fuel IH]; intros p; [done|].
  cbn [dump_lines]. rewrite dump_line_wrap.
  destruct (dump_line bytes offset print_chars desc p) as [text p'].
  by rewrite IH.
Qed.

(** X22: the address column shows the display offset modulo [2^32]: two
    dumps of the same buffer whose display offsets differ by a multiple of
    [2^32] are the same text. *)
Theorem dump_offset_wraps bytes offset n print_chars desc :
  wasm_print_memory bytes (offset + 2 ^ 32 * n) print_chars desc
  = wasm_print_memory bytes offset print_chars desc.
Proof. unfold wasm_print_memory. by rewrite dump_lines_wrap. Qed.

Lemma line_text_ends bytes offset print_chars desc k :
  ∃ body, line_text bytes offset print_chars desc k = body +:+ newline.
Proof.
  unfold line_text.
  set (d := match desc with Some _ => _ | None => _ end).
  exists (printf_07x (Z.of_nat (16 * k) + offset) +:+ ": "
          +:+ groups_text (dump_row bytes k) +:+ " "
          +:+ chars_text print_chars (dump_row bytes k) +:+ d).
  by rewrite !string_app_assoc.
Qed.

Lemma concat_ends l body :
  foldr String.app "" (l ++ [body +:+ newline])
  = foldr String.app "" (l ++ [body]) +:+ newline.
Proof.
  induction l as [|s l IH]; simpl.
  - by rewrite !string_app_nil_r.
  - by rewrite IH, string_app_assoc.
Qed.

(** X23: when the description holds no newline, the output of
    [wasm_print_memory] has exactly [ceil(S/16)] newline characters for a
    buffer of [S] bytes; it is empty exactly when the buffer is, whatever
    the description; and otherwise it ends with a newline. *)
Theorem dump_line_breaks bytes offset print_chars desc :
  (∀ d, desc = Some d → count_newlines d = 0) →
  count_newlines (wasm_print_memory bytes offset print_chars desc)
    = dump_line_count (length bytes) ∧
  (wasm_print_memory bytes offset print_chars desc = "" ↔ bytes = []) ∧
  (bytes ≠ [] →
   ∃ text, wasm_print_memory bytes offset print_chars desc = text +:+ newline).
Proof.
  intros Hd. rewrite print_memory_lines.
  assert (∀ k, count_newlines (line_text bytes offset print_chars desc k) = 1) as Hone.
  { intros k. rewrite line_text_newlines. destruct desc as [d|]; [|done].
    case_decide; [|done]. by rewrite (Hd d). }
  assert (count_newlines
            (foldr String.app ""
               (line_text bytes offset print_chars desc
                  <$> seq 0 (dump_line_count (length bytes))))
          = dump_line_count (length bytes)) as Hcount.
  { rewrite count_newlines_concat, <- list_fmap_compose.
    rewrite sum_list_replicate_1; [by rewrite length_seq|]. intros k _. apply Hone. }
  split; [done|].
  assert (bytes ≠ [] → 0 < dump_line_count (length bytes)) as Hpos.
  { intros Hne. unfold dump_line_count.
    assert (0 < length bytes) by (destruct bytes; [done|simpl; lia]).
    pose proof (Nat.div_mod_eq (length bytes + 15) 16).
    pose proof (Nat.mod_upper_bound (length bytes + 15) 16). lia. }
  split.
  - split.
    + intros Hempty. destruct bytes as [|b bytes]; [done|]. exfalso.
      rewrite Hempty in Hcount. specialize (Hpos ltac:(done)).
      cbn [count_newlines] in Hcount. lia.
    + intros ->. done.
  - intros Hne. specialize (Hpos Hne).
    destruct (dump_line_count (length bytes)) as [|n]; [lia|].
    rewrite seq_S, fmap_app. cbn [fmap list_fmap].
    destruct (line_text_ends bytes offset print_chars desc (0 + n)) as [body ->].
    rewrite concat_ends. eauto.
Qed.

Lemma dump_line_breaks_witness :
  count_newlines
    (wasm_print_memory (list_byte_of_string "ABCDEFGHIJKLMNOPQ") 0 true (Some "desc"%string))
    = dump_line_count (length (list_byte_of_string "ABCDEFGHIJKLMNOPQ")) ∧
  (wasm_print_memory (list_byte_of_string "ABCDEFGHIJKLMNOPQ") 0 true (Some "desc"%string)
   = "" ↔ list_byte_of_string "ABCDEFGHIJKLMNOPQ" = []) ∧
  (list_byte_of_string "ABCDEFGHIJKLMNOPQ" ≠ [] →
   ∃ text,
     wasm_print_memory (list_byte_of_string "ABCDEFGHIJKLMNOPQ") 0 true (Some "desc"%string)
     = text +:+ newline).
Proof.
  apply (dump_line_breaks (list_byte_of_string "ABCDEFGHIJKLMNOPQ") 0 true
           (Some "desc"%string)).
  intros d [= <-]. reflexivity.
Defined.
